(** * Panoramic viewer: camera interaction and hotspot placement

    A shallow embedding of the two [PanoramicViewer] components of the
    repository:

    - variant A ([src/unnamed/part_000]) pins the hotspots to 3D world
      positions and projects them through the camera every frame;
    - variant B ([src/src/components/PanoramicViewer.tsx]) treats the first
      two position components as longitude and latitude and places the
      hotspots at fixed viewport percentages.

    Numbers.  A JavaScript [number] is a binary64 floating-point number.
    The development has two embeddings of it.

    - The exact one: [number] is a rational, a decimal literal denotes the
      rational it spells and the operators are exact.  It serves where
      rounding changes nothing that is stated: comparisons, [Math.max] and
      [Math.min], which return one of their arguments, constants, the
      state of the components other than their numbers, and the algebra of
      the projection, whose arithmetic is the rendering library's.
    - [Binary64]: every operator rounds to the nearest binary64 number.
      The handlers whose sums can round are embedded over it a second
      time, and what is stated about a chain of such sums (the zoom round
      trip, repeated zooming, the wheel) is stated there.

    [Math.PI] is the rational value of the binary64 constant.  A division
    whose divisor depends on the data ([applyMatrix4]) returns [None] at a
    zero divisor, where JavaScript produces an infinity or NaN, which a
    rational cannot represent.

    The renderer is not modelled.  In particular the camera's
    [matrixWorldInverse], which the renderer refreshes from the rotation
    when it draws a frame, is a field the handlers leave alone and the
    projection theorems quantify over.  [Event] lists the input events the
    handlers of both files answer; [PageEvent] adds the resize of the
    window; the registrations of the effect, its frame requests and its
    cleanup are modelled on a page of their own, [Dom]. *)

From Stdlib Require Import QArith Qminmax Qround Qabs Qpower.
From Stdlib Require Import Lqa Lia List String Bool ZArith.
From Stdlib Require PrimFloat FloatOps SpecFloat.
Import ListNotations.
Open Scope Q_scope.

(* ================================================================= *)
(** * JavaScript numbers *)

(** The exact embedding; [Binary64] below has the rounding. *)
Definition number : Type := Q.

(** [a < b] as a boolean test. *)
Definition ltb (a b : number) : bool := negb (Qle_bool b a).

(** The [%] operator: the remainder has the sign of the dividend, the
    quotient being truncated towards zero. *)
Definition js_rem (a b : number) : number :=
  let q := a / b in
  a - b * inject_Z (Z.quot (Qnum q) (Zpos (Qden q))).

Module Math.

(** [Math.PI] is the binary64 number 0x400921FB54442D18, that is
    884279719003555 / 2^48. *)
Definition PI : number := 884279719003555 # 281474976710656.

Definition max (a b : number) : number := Qmax a b.
Definition min (a b : number) : number := Qmin a b.

(** [Math.tan] is transcendental; the development is parametric in it. *)
Class Trig := { tan : number -> number }.

End Math.

(* ================================================================= *)
(** * The part of the rendering library the components call *)

Module Vector3.
Record t := mk { x : number; y : number; z : number }.
End Vector3.

Module Euler.
Record t := mk { x : number; y : number; z : number }.
(** [rotation.set(x, y, z)] *)
Definition set (x y z : number) (_ : t) : t := mk x y z.
End Euler.

Module Matrix4.

(** [elements] in the library's column-major order. *)
Record t := mk {
  e0 : number; e1 : number; e2 : number; e3 : number;
  e4 : number; e5 : number; e6 : number; e7 : number;
  e8 : number; e9 : number; e10 : number; e11 : number;
  e12 : number; e13 : number; e14 : number; e15 : number }.

Definition identity : t :=
  mk 1 0 0 0
     0 1 0 0
     0 0 1 0
     0 0 0 1.

(** Modelled from the spec: [Matrix4.makePerspective] of the rendering
    library is not under src/; this is the perspective matrix of the
    "view-projection transform into normalized device coordinates" the
    spec names, with the library's element layout. *)
Definition makePerspective (left right top bottom near far : number) : t :=
  let x := 2 * near / (right - left) in
  let y := 2 * near / (top - bottom) in
  let a := (right + left) / (right - left) in
  let b := (top + bottom) / (top - bottom) in
  let c := - ((far + near) / (far - near)) in
  let d := - (2 * far * near / (far - near)) in
  mk x 0 0 0
     0 y 0 0
     a b c (-(1))
     0 0 d 0.

End Matrix4.

(** Modelled from the spec: [Vector3.applyMatrix4] of the rendering library
    is not under src/; the vector is transformed as a homogeneous point and
    divided by the resulting fourth component.  [None] stands for the zero
    divisor. *)
Definition applyMatrix4 (m : Matrix4.t) (v : Vector3.t) : option Vector3.t :=
  let x := Vector3.x v in
  let y := Vector3.y v in
  let z := Vector3.z v in
  let d := Matrix4.e3 m * x + Matrix4.e7 m * y + Matrix4.e11 m * z
           + Matrix4.e15 m in
  if Qeq_bool d 0 then None
  else
    let w := 1 / d in
    Some (Vector3.mk
            ((Matrix4.e0 m * x + Matrix4.e4 m * y + Matrix4.e8 m * z
              + Matrix4.e12 m) * w)
            ((Matrix4.e1 m * x + Matrix4.e5 m * y + Matrix4.e9 m * z
              + Matrix4.e13 m) * w)
            ((Matrix4.e2 m * x + Matrix4.e6 m * y + Matrix4.e10 m * z
              + Matrix4.e14 m) * w)).

Module PerspectiveCamera.

(** The fields of the camera object the components read or write, and the
    two matrices [project] reads. *)
Record t := mk {
  fov : number;
  aspect : number;
  near : number;
  far : number;
  rotation : Euler.t;
  position : Vector3.t;
  matrixWorldInverse : Matrix4.t;
  projectionMatrix : Matrix4.t }.

Definition set_fov (v : number) (c : t) : t :=
  mk v (aspect c) (near c) (far c) (rotation c) (position c)
     (matrixWorldInverse c) (projectionMatrix c).

Definition set_rotation (r : Euler.t) (c : t) : t :=
  mk (fov c) (aspect c) (near c) (far c) r (position c)
     (matrixWorldInverse c) (projectionMatrix c).

Definition set_position (p : Vector3.t) (c : t) : t :=
  mk (fov c) (aspect c) (near c) (far c) (rotation c) p
     (matrixWorldInverse c) (projectionMatrix c).

Definition set_projectionMatrix (m : Matrix4.t) (c : t) : t :=
  mk (fov c) (aspect c) (near c) (far c) (rotation c) (position c)
     (matrixWorldInverse c) m.

Definition DEG2RAD : number := Math.PI / 180.

Section Projection.
Context `{Math.Trig}.

(** Modelled from the spec: [updateProjectionMatrix] of the rendering
    library is not under src/; "the camera's projection must be
    recomputed immediately after any field-of-view change".  The
    frustum is the symmetric one of a camera whose zoom is 1 and which
    has no view offset, as the components construct it. *)
Definition frustum (c : t) : Matrix4.t :=
  let top := near c * Math.tan (DEG2RAD * 0.5 * fov c) in
  let height := 2 * top in
  let width := aspect c * height in
  let left := - (0.5) * width in
  Matrix4.makePerspective left (left + width) top (top - height)
                          (near c) (far c).

Definition updateProjectionMatrix (c : t) : t :=
  set_projectionMatrix (frustum c) c.

(** [new THREE.PerspectiveCamera(fov, aspect, near, far)] *)
Definition new (fov aspect near far : number) : t :=
  updateProjectionMatrix
    (mk fov aspect near far (Euler.mk 0 0 0) (Vector3.mk 0 0 0)
        Matrix4.identity Matrix4.identity).
End Projection.

End PerspectiveCamera.

(** Modelled from the spec: [Vector3.project] of the rendering library is
    not under src/; "transform its 3D position through the camera's
    view-projection transform into normalized device coordinates". *)
Definition project (camera : PerspectiveCamera.t) (v : Vector3.t)
  : option Vector3.t :=
  match applyMatrix4 (PerspectiveCamera.matrixWorldInverse camera) v with
  | Some v' => applyMatrix4 (PerspectiveCamera.projectionMatrix camera) v'
  | None => None
  end.

(** The panorama texture, the inverted sphere that carries it, and the
    scene the sphere is added to. *)
Record Texture := { image : string }.

Record SphereGeometry := {
  radius : number;
  widthSegments : number;
  heightSegments : number;
  scale : Vector3.t }.

Inductive Side := FrontSide | BackSide | DoubleSide.

Record MeshBasicMaterial := { map : Texture; side : Side }.

Record Mesh := { geometry : SphereGeometry; material : MeshBasicMaterial }.

Module Scene.
Record t := mk { children : list Mesh }.
Definition add (m : Mesh) (s : t) : t := mk (children s ++ [m]).
End Scene.

(* ================================================================= *)
(** * What the two components share

    The declarations of this part read the same in both source files. *)

Definition Position : Type := (number * number * number)%type.

Record Hotspot := {
  id : string;
  position : Position;
  title : string;
  description : string;
  details : string }.

Module Point.
Record t := mk { x : number; y : number }.
End Point.

Record MouseEvent := { clientX : number; clientY : number }.
Record WheelEvent := { deltaY : number }.
Record Window := { innerWidth : number; innerHeight : number }.

(** The refs and the React state of a component.  [V] is the state only one
    variant has.  [sceneRef] and [cameraRef] hold the objects the mount
    effect creates; the handlers the effect registers close over the same
    two objects, so they are modelled as acting through the refs. *)
Record Component (V : Type) := mkComponent {
  sceneRef : option Scene.t;
  cameraRef : option PerspectiveCamera.t;
  sphereRef : option Mesh;
  isDraggingRef : bool;
  previousMouseRef : Point.t;
  selectedHotspot : option Hotspot;
  isLoading : bool;
  console : list string;
  variantState : V }.

Arguments mkComponent {V}.
Arguments sceneRef {V}.
Arguments cameraRef {V}.
Arguments sphereRef {V}.
Arguments isDraggingRef {V}.
Arguments previousMouseRef {V}.
Arguments selectedHotspot {V}.
Arguments isLoading {V}.
Arguments console {V}.
Arguments variantState {V}.

Section Shared.
Context `{Math.Trig}.
Variable V : Type.

Let State : Type := Component V.

Definition set_sceneRef (v : option Scene.t) (s : State) : State :=
  mkComponent v (cameraRef s) (sphereRef s) (isDraggingRef s)
    (previousMouseRef s) (selectedHotspot s) (isLoading s) (console s)
    (variantState s).

Definition set_cameraRef (v : option PerspectiveCamera.t) (s : State)
  : State :=
  mkComponent (sceneRef s) v (sphereRef s) (isDraggingRef s)
    (previousMouseRef s) (selectedHotspot s) (isLoading s) (console s)
    (variantState s).

Definition set_sphereRef (v : option Mesh) (s : State) : State :=
  mkComponent (sceneRef s) (cameraRef s) v (isDraggingRef s)
    (previousMouseRef s) (selectedHotspot s) (isLoading s) (console s)
    (variantState s).

Definition set_isDraggingRef (v : bool) (s : State) : State :=
  mkComponent (sceneRef s) (cameraRef s) (sphereRef s) v
    (previousMouseRef s) (selectedHotspot s) (isLoading s) (console s)
    (variantState s).

Definition set_previousMouseRef (v : Point.t) (s : State) : State :=
  mkComponent (sceneRef s) (cameraRef s) (sphereRef s) (isDraggingRef s)
    v (selectedHotspot s) (isLoading s) (console s) (variantState s).

Definition setSelectedHotspot (v : option Hotspot) (s : State) : State :=
  mkComponent (sceneRef s) (cameraRef s) (sphereRef s) (isDraggingRef s)
    (previousMouseRef s) v (isLoading s) (console s) (variantState s).

Definition setIsLoading (v : bool) (s : State) : State :=
  mkComponent (sceneRef s) (cameraRef s) (sphereRef s) (isDraggingRef s)
    (previousMouseRef s) (selectedHotspot s) v (console s)
    (variantState s).

Definition console_error (msg : string) (s : State) : State :=
  mkComponent (sceneRef s) (cameraRef s) (sphereRef s) (isDraggingRef s)
    (previousMouseRef s) (selectedHotspot s) (isLoading s)
    (console s ++ [msg]) (variantState s).

Definition set_variantState (v : V) (s : State) : State :=
  mkComponent (sceneRef s) (cameraRef s) (sphereRef s) (isDraggingRef s)
    (previousMouseRef s) (selectedHotspot s) (isLoading s) (console s) v.

(** An update of the camera object, when there is one:
    [if (cameraRef.current) { ... }]. *)
Definition with_camera (f : PerspectiveCamera.t -> PerspectiveCamera.t)
    (s : State) : State :=
  match cameraRef s with
  | Some camera => set_cameraRef (Some (f camera)) s
  | None => s
  end.

(** [scene.add(sphere)] on the scene object of the effect. *)
Definition scene_add (m : Mesh) (s : State) : State :=
  match sceneRef s with
  | Some scene => set_sceneRef (Some (Scene.add m scene)) s
  | None => s
  end.

(** The state the mount effect leaves before any callback has run:
    scene, camera at the origin, the load pending. *)
Definition mount (window : Window) (v : V) : State :=
  let scene := Scene.mk [] in
  let camera :=
    PerspectiveCamera.new 75 (innerWidth window / innerHeight window)
                          0.1 1000 in
  let camera := PerspectiveCamera.set_position (Vector3.mk 0 0 0) camera in
  mkComponent (Some scene) (Some camera) None false (Point.mk 0 0)
              None true [] v.

(** ** The two continuations of [loader.load] *)

Definition onLoad (texture : Texture) (s : State) : State :=
  let geometry := {| radius := 500; widthSegments := 60;
                     heightSegments := 40;
                     scale := Vector3.mk (-(1)) 1 1 |} in
  let material := {| map := texture; side := DoubleSide |} in
  let sphere := {| geometry := geometry; material := material |} in
  setIsLoading false (set_sphereRef (Some sphere) (scene_add sphere s)).

Definition onError (error : string) (s : State) : State :=
  setIsLoading false
    (console_error ("Error loading panorama: " ++ error) s).

(** ** Mouse and wheel handlers *)

Definition handleMouseDown (event : MouseEvent) (s : State) : State :=
  set_previousMouseRef (Point.mk (clientX event) (clientY event))
    (set_isDraggingRef true s).

Definition handleMouseUp (s : State) : State :=
  set_isDraggingRef false s.

Definition handleWheel (event : WheelEvent) (s : State) : State :=
  with_camera
    (fun camera =>
       let fov := PerspectiveCamera.fov camera + deltaY event * 0.05 in
       let camera :=
         PerspectiveCamera.set_fov (Math.max 10 (Math.min 120 fov)) camera in
       PerspectiveCamera.updateProjectionMatrix camera)
    s.

(** ** The three buttons *)

Definition resetView (s : State) : State :=
  with_camera
    (fun camera =>
       let camera :=
         PerspectiveCamera.set_rotation
           (Euler.set 0 0 0 (PerspectiveCamera.rotation camera)) camera in
       let camera := PerspectiveCamera.set_fov 75 camera in
       PerspectiveCamera.updateProjectionMatrix camera)
    s.

Definition zoomIn (s : State) : State :=
  with_camera
    (fun camera =>
       let camera :=
         PerspectiveCamera.set_fov
           (Math.max 10 (PerspectiveCamera.fov camera - 10)) camera in
       PerspectiveCamera.updateProjectionMatrix camera)
    s.

Definition zoomOut (s : State) : State :=
  with_camera
    (fun camera =>
       let camera :=
         PerspectiveCamera.set_fov
           (Math.min 120 (PerspectiveCamera.fov camera + 10)) camera in
       PerspectiveCamera.updateProjectionMatrix camera)
    s.

(** ** Input events and the host's dispatch

      Which handler an event reaches.  The mouse-move handler is the one
      declaration of this part the two files word differently.  The resize
      of the window is not among these events, [PageEvent] adds it; nor is
      the animation frame, which writes the view matrix and, in variant A,
      the hotspot positions. *)

Inductive Event :=
| MouseDown (event : MouseEvent)
| MouseMove (event : MouseEvent)
| MouseUp
| Wheel (event : WheelEvent)
| ClickZoomIn
| ClickZoomOut
| ClickReset
| TextureLoaded (texture : Texture)
| TextureFailed (error : string)
| ClickHotspot (hotspot : Hotspot)
| ClickClose.

Section Dispatch.
Variable handleMouseMove : MouseEvent -> State -> State.

Definition dispatch_with (e : Event) (s : State) : State :=
  match e with
  | MouseDown event => handleMouseDown event s
  | MouseMove event => handleMouseMove event s
  | MouseUp => handleMouseUp s
  | Wheel event => handleWheel event s
  | ClickZoomIn => zoomIn s
  | ClickZoomOut => zoomOut s
  | ClickReset => resetView s
  | TextureLoaded texture => onLoad texture s
  | TextureFailed error => onError error s
  | ClickHotspot hotspot => setSelectedHotspot (Some hotspot) s
  | ClickClose => setSelectedHotspot None s
  end.

(** The states after each event of a sequence, in order. *)
Fixpoint trace_with (es : list Event) (s : State) : list State :=
  match es with
  | [] => []
  | e :: es' => let s' := dispatch_with e s in s' :: trace_with es' s'
  end.
End Dispatch.

End Shared.

Arguments with_camera {V}.
Arguments handleMouseDown {V}.
Arguments handleMouseUp {V}.
Arguments handleWheel {_ V}.
Arguments resetView {_ V}.
Arguments zoomIn {_ V}.
Arguments zoomOut {_ V}.
Arguments onLoad {V}.
Arguments onError {V}.
Arguments mount {_ V}.
Arguments dispatch_with {_ V}.
Arguments trace_with {_ V}.
Arguments set_previousMouseRef {V}.
Arguments set_variantState {V}.
Arguments setSelectedHotspot {V}.
Arguments setIsLoading {V}.

(* ================================================================= *)
(** * Variant A: perspective projection ([src/unnamed/part_000]) *)

Module VariantA.

Definition hotspots : list Hotspot :=
  [ {| id := "jersey-display";
       position := (100, 0, -200);
       title := "Vintage Jerseys Collection";
       description := "Historic basketball jerseys from legendary players";
       details := "This display features authentic game-worn jerseys from basketball legends including Michael Jordan's Chicago Bulls #23, Magic Johnson's Lakers #32, and Larry Bird's Celtics #33. Each jersey represents a pivotal moment in basketball history." |};
    {| id := "trophy-case";
       position := (-200, 20, -100);
       title := "Championship Trophies";
       description := "NBA Championship trophies and awards";
       details := "The Larry O'Brien Trophy collection showcasing championship victories from different eras. These trophies represent the pinnacle of basketball achievement and the dedication of championship teams." |};
    {| id := "basketball-collection";
       position := (-100, -20, 200);
       title := "Signed Basketball Collection";
       description := "Game balls signed by basketball legends";
       details := "A curated collection of basketballs signed by Hall of Fame players, including rare game balls from historic matches, All-Star games, and playoff series that defined basketball history." |};
    {| id := "poster-gallery";
       position := (200, 10, 100);
       title := "Basketball Poster Gallery";
       description := "Iconic basketball posters and memorabilia";
       details := "Vintage promotional posters, championship banners, and rare photographs capturing the golden moments of basketball. These pieces showcase the evolution of the sport's visual culture." |} ].

(** The value [projectToScreen] returns: pixel coordinates and the
    visibility flag. *)
Module Anchor.
Record t := mk { x : number; y : number; visible : bool }.
End Anchor.

(** [None] is the projection through a zero divisor, see [applyMatrix4]:
    the point lies in the plane through the camera across its viewing
    direction.  The code divides by the zero and returns an anchor all the
    same: its [x] and [y] are infinities or NaN, its depth is minus
    infinity and so its [visible] flag is true. *)
Definition projectToScreen (window : Window) (worldPosition : Position)
    (camera : PerspectiveCamera.t) : option Anchor.t :=
  let '(px, py, pz) := worldPosition in
  match project camera (Vector3.mk px py pz) with
  | Some vector =>
      let x := (Vector3.x vector + 1) * innerWidth window / 2 in
      let y := (- Vector3.y vector + 1) * innerHeight window / 2 in
      let visible := ltb (Vector3.z vector) 1 in
      Some (Anchor.mk x y visible)
  | None => None
  end.

(** [hotspotPositions]: an object keyed by hotspot id. *)
Definition HotspotPositions : Type := list (string * option Anchor.t).

Fixpoint assign (k : string) (v : option Anchor.t) (o : HotspotPositions)
  : HotspotPositions :=
  match o with
  | [] => [(k, v)]
  | (k', v') :: o' =>
      if String.eqb k k' then (k, v) :: o' else (k', v') :: assign k v o'
  end.

Definition State : Type := Component HotspotPositions.

Definition updateHotspotPositions (window : Window) (s : State) : State :=
  match cameraRef s with
  | None => s
  | Some camera =>
      let newPositions :=
        fold_left
          (fun acc hotspot =>
             assign (id hotspot)
                    (projectToScreen window (position hotspot) camera) acc)
          hotspots [] in
      set_variantState newPositions s
  end.

Definition handleMouseMove (event : MouseEvent) (s : State) : State :=
  if negb (isDraggingRef s) then s
  else
    let deltaX := clientX event - Point.x (previousMouseRef s) in
    let deltaY := clientY event - Point.y (previousMouseRef s) in
    let s :=
      with_camera
        (fun camera =>
           let r := PerspectiveCamera.rotation camera in
           let r := Euler.mk (Euler.x r) (Euler.y r - deltaX * 0.005)
                             (Euler.z r) in
           let r := Euler.mk (Euler.x r - deltaY * 0.005) (Euler.y r)
                             (Euler.z r) in
           let r := Euler.mk
                      (Math.max ((- Math.PI) / 2)
                                (Math.min (Math.PI / 2) (Euler.x r)))
                      (Euler.y r) (Euler.z r) in
           PerspectiveCamera.set_rotation r camera)
        s in
    set_previousMouseRef (Point.mk (clientX event) (clientY event)) s.

Section Host.
Context `{Math.Trig}.
Definition dispatch : Event -> State -> State :=
  dispatch_with handleMouseMove.
Definition trace : list Event -> State -> list State :=
  trace_with handleMouseMove.
(** The state after all the events of a sequence. *)
Definition run (es : list Event) (s : State) : State :=
  fold_left (fun s e => dispatch e s) es s.
End Host.

(** [hotspotPositions[id]]: [None] is [undefined], the key being absent. *)
Fixpoint lookup (k : string) (o : HotspotPositions)
  : option (option Anchor.t) :=
  match o with
  | [] => None
  | (k', v) :: o' => if String.eqb k k' then Some v else lookup k o'
  end.

(** What the render function returns for one hotspot: [null], or a marker
    whose style places it at [left] and [top] pixels.  [MarkerNotFinite] is
    the marker the code renders for the anchor of a point in the camera's
    plane, see [projectToScreen]: the anchor's [visible] flag is true and
    its [x] and [y], an infinity or NaN, are written into the style. *)
Inductive Rendered :=
| Null
| Marker (left top : number)
| MarkerNotFinite.

Definition renderHotspot (s : State) (hotspot : Hotspot) : Rendered :=
  match lookup (id hotspot) (variantState s) with
  | None => Null
  | Some None => MarkerNotFinite
  | Some (Some position) =>
      if negb (Anchor.visible position) then Null
      else Marker (Anchor.x position) (Anchor.y position)
  end.

Definition hotspotMarkers (s : State) : list (string * Rendered) :=
  List.map (fun hotspot => (id hotspot, renderHotspot s hotspot)) hotspots.

End VariantA.

(* ================================================================= *)
(** * Variant B: spherical-to-percentage mapping
      ([src/src/components/PanoramicViewer.tsx]) *)

Module VariantB.

Definition hotspots : list Hotspot :=
  [ {| id := "jersey-display";
       position := (45, -5, -8);
       title := "Vintage Jerseys Collection";
       description := "Historic basketball jerseys from legendary players";
       details := "This display features authentic game-worn jerseys from basketball legends including Michael Jordan's Chicago Bulls #23, Magic Johnson's Lakers #32, and Larry Bird's Celtics #33. Each jersey represents a pivotal moment in basketball history." |};
    {| id := "trophy-case";
       position := (-90, 10, -6);
       title := "Championship Trophies";
       description := "NBA Championship trophies and awards";
       details := "The Larry O'Brien Trophy collection showcasing championship victories from different eras. These trophies represent the pinnacle of basketball achievement and the dedication of championship teams." |};
    {| id := "basketball-collection";
       position := (135, -10, 4);
       title := "Signed Basketball Collection";
       description := "Game balls signed by basketball legends";
       details := "A curated collection of basketballs signed by Hall of Fame players, including rare game balls from historic matches, All-Star games, and playoff series that defined basketball history." |};
    {| id := "poster-gallery";
       position := (-135, 5, 2);
       title := "Basketball Poster Gallery";
       description := "Iconic basketball posters and memorabilia";
       details := "Vintage promotional posters, championship banners, and rare photographs capturing the golden moments of basketball. These pieces showcase the evolution of the sport's visual culture." |} ].

(** The style [getScreenPosition] returns.  The source formats the two
    numbers as the strings [`${n}%`]; the model keeps the number of
    percent. *)
Module Style.
Record t := mk { left : number; top : number }.
End Style.

Definition getScreenPosition (longitude latitude : number) : Style.t :=
  let x := js_rem (longitude + 180) 360 / 360 in
  let y := (90 - latitude) / 180 in
  Style.mk (x * 100) (y * 100).

(** The [cameraRotation] React state. *)
Definition State : Type := Component Point.t.

Definition setCameraRotation (v : Point.t) (s : State) : State :=
  set_variantState v s.

Definition handleMouseMove (event : MouseEvent) (s : State) : State :=
  if negb (isDraggingRef s) then s
  else
    let deltaX := clientX event - Point.x (previousMouseRef s) in
    let deltaY := clientY event - Point.y (previousMouseRef s) in
    let s :=
      with_camera
        (fun camera =>
           let r := PerspectiveCamera.rotation camera in
           let newRotationY := Euler.y r - deltaX * 0.005 in
           let newRotationX := Euler.x r - deltaY * 0.005 in
           let r := Euler.mk (Euler.x r) newRotationY (Euler.z r) in
           let r := Euler.mk
                      (Math.max ((- Math.PI) / 2)
                                (Math.min (Math.PI / 2) newRotationX))
                      (Euler.y r) (Euler.z r) in
           PerspectiveCamera.set_rotation r camera)
        s in
    let s :=
      match cameraRef s with
      | Some camera =>
          let r := PerspectiveCamera.rotation camera in
          setCameraRotation (Point.mk (Euler.x r) (Euler.y r)) s
      | None => s
      end in
    set_previousMouseRef (Point.mk (clientX event) (clientY event)) s.

(** The hotspot markers of the rendered output.  The render function is a
    closure over the whole component state [s]; for each hotspot, in
    order, it yields the key and the style of the marker. *)
Definition marker (s : State) (hotspot : Hotspot) : string * Style.t :=
  let '(p0, p1, _) := position hotspot in
  let screenPos := getScreenPosition p0 p1 in
  (id hotspot, screenPos).

Definition hotspotMarkers (s : State) : list (string * Style.t) :=
  List.map (marker s) hotspots.

Section Host.
Context `{Math.Trig}.
Definition dispatch : Event -> State -> State :=
  dispatch_with handleMouseMove.
Definition trace : list Event -> State -> list State :=
  trace_with handleMouseMove.
(** The state after all the events of a sequence. *)
Definition run (es : list Event) (s : State) : State :=
  fold_left (fun s e => dispatch e s) es s.
End Host.

End VariantB.

(** A rational stand-in for the tangent, to run the definitions on concrete
    cameras: the first two terms of its series. *)
Definition series_tan : Math.Trig :=
  {| Math.tan := fun x => x + x * x * x / 3 |}.

Definition window_1920x1080 : Window :=
  {| innerWidth := 1920; innerHeight := 1080 |}.

(* ================================================================= *)
(** * Properties stated about the components *)

(** The component has a camera, and the camera satisfies [P]. *)
Definition camera_has {V : Type} (P : PerspectiveCamera.t -> Prop)
    (s : Component V) : Prop :=
  exists camera, cameraRef s = Some camera /\ P camera.

(** Pitch is the rotation about the camera's x axis, yaw the one about its
    y axis. *)
Definition pitch (camera : PerspectiveCamera.t) : number :=
  Euler.x (PerspectiveCamera.rotation camera).

Definition yaw (camera : PerspectiveCamera.t) : number :=
  Euler.y (PerspectiveCamera.rotation camera).

Definition pitch_in_range (camera : PerspectiveCamera.t) : Prop :=
  (- Math.PI) / 2 <= pitch camera <= Math.PI / 2.

Definition fov_in_range (camera : PerspectiveCamera.t) : Prop :=
  10 <= PerspectiveCamera.fov camera <= 120.

(** Two cameras that differ at most in the field of view and in the
    projection matrix recomputed from it. *)
Definition same_but_zoom (c c' : PerspectiveCamera.t) : Prop :=
  PerspectiveCamera.rotation c' = PerspectiveCamera.rotation c /\
  PerspectiveCamera.position c' = PerspectiveCamera.position c /\
  PerspectiveCamera.aspect c' = PerspectiveCamera.aspect c /\
  PerspectiveCamera.near c' = PerspectiveCamera.near c /\
  PerspectiveCamera.far c' = PerspectiveCamera.far c /\
  PerspectiveCamera.matrixWorldInverse c' =
    PerspectiveCamera.matrixWorldInverse c.

(** Two component states that differ at most in the zoom of the camera. *)
Definition zoom_only {V : Type} (s s' : Component V) : Prop :=
  sceneRef s' = sceneRef s /\
  sphereRef s' = sphereRef s /\
  isDraggingRef s' = isDraggingRef s /\
  previousMouseRef s' = previousMouseRef s /\
  selectedHotspot s' = selectedHotspot s /\
  isLoading s' = isLoading s /\
  console s' = console s /\
  variantState s' = variantState s /\
  match cameraRef s, cameraRef s' with
  | Some c, Some c' => same_but_zoom c c'
  | None, None => True
  | _, _ => False
  end.

(** The position of a world point in the camera's own frame, in which the
    camera looks down the negative z axis. *)
Definition viewSpace (camera : PerspectiveCamera.t) (p : Position)
  : option Vector3.t :=
  let '(px, py, pz) := p in
  applyMatrix4 (PerspectiveCamera.matrixWorldInverse camera)
               (Vector3.mk px py pz).

Definition behind_camera (camera : PerspectiveCamera.t) (p : Position)
  : Prop :=
  exists v, viewSpace camera p = Some v /\ 0 < Vector3.z v.

(** On the forward axis, at distance [d] in front of the camera. *)
Definition on_forward_axis (camera : PerspectiveCamera.t) (p : Position)
    (d : number) : Prop :=
  exists v, viewSpace camera p = Some v /\
            Vector3.x v == 0 /\ Vector3.y v == 0 /\
            Vector3.z v == - d /\ 0 < d.

(** The projection matrix is the one [updateProjectionMatrix] computes from
    the camera's present parameters. *)
Definition projection_current `{Math.Trig} (camera : PerspectiveCamera.t)
  : Prop :=
  PerspectiveCamera.projectionMatrix camera = PerspectiveCamera.frustum camera.

(** The parameters describe a frustum: a positive near distance below the
    far distance, a positive aspect ratio and a positive half-angle
    tangent. *)
Definition depth_range (camera : PerspectiveCamera.t) : Prop :=
  0 < PerspectiveCamera.near camera /\
  PerspectiveCamera.near camera < PerspectiveCamera.far camera.

Definition opening `{Math.Trig} (camera : PerspectiveCamera.t) : Prop :=
  0 < PerspectiveCamera.aspect camera /\
  0 < Math.tan (PerspectiveCamera.DEG2RAD * 0.5
                * PerspectiveCamera.fov camera).

(** What the projection theorems ask of a camera, less the sign of the
    tangent. *)
Definition ready `{Math.Trig} (camera : PerspectiveCamera.t) : Prop :=
  projection_current camera /\ depth_range camera /\
  0 < PerspectiveCamera.aspect camera.

(** Concrete states to run the definitions on. *)
Definition mountedA : VariantA.State :=
  mount (H := series_tan) window_1920x1080 [].

Definition mountedB : VariantB.State :=
  mount (H := series_tan) window_1920x1080 (Point.mk 0 0).

Definition drag_far : list Event :=
  [ MouseDown {| clientX := 0; clientY := 0 |};
    MouseMove {| clientX := 5; clientY := 1000000 |};
    MouseMove {| clientX := 9; clientY := -3000000 |};
    MouseUp ].

Definition scroll_far : list Event :=
  [ Wheel {| deltaY := 100 |};
    Wheel {| deltaY := -1000000 |};
    ClickZoomIn;
    Wheel {| deltaY := 987654321 |};
    ClickZoomOut;
    ClickReset;
    ClickZoomOut ].

Definition no_hotspot : Hotspot :=
  {| id := EmptyString; position := (0, 0, 0); title := EmptyString;
     description := EmptyString; details := EmptyString |}.


Definition camera0 : PerspectiveCamera.t :=
  PerspectiveCamera.set_position (Vector3.mk 0 0 0)
    (PerspectiveCamera.new (H := series_tan) 75 (1920 / 1080) 0.1 1000).

(* ================================================================= *)
(** * Window resize

    [handleResize], which reads the same in both files.  Its call of
    [renderer.setSize] touches nothing that is modelled.  The quotient is
    the exact one: a window of height zero, where JavaScript yields an
    infinity or NaN, is outside the model. *)

Definition set_aspect (v : number) (c : PerspectiveCamera.t)
  : PerspectiveCamera.t :=
  PerspectiveCamera.mk
    (PerspectiveCamera.fov c) v (PerspectiveCamera.near c)
    (PerspectiveCamera.far c) (PerspectiveCamera.rotation c)
    (PerspectiveCamera.position c) (PerspectiveCamera.matrixWorldInverse c)
    (PerspectiveCamera.projectionMatrix c).

Definition handleResize `{Math.Trig} {V : Type} (window : Window)
    (s : Component V) : Component V :=
  with_camera
    (fun camera =>
       let camera :=
         set_aspect (innerWidth window / innerHeight window) camera in
       PerspectiveCamera.updateProjectionMatrix camera)
    s.

(* ================================================================= *)
(** * Binary64 arithmetic

    A JavaScript number is a binary64 floating-point number, and an
    arithmetic operator returns the binary64 number nearest to the exact
    result, a tie going to the even significand.  [round] is that rounding,
    on rationals: a finite binary64 number is an integer of magnitude below
    2^53 times a power of two not below 2^-1074.  Overflow to an infinity
    (magnitudes from 2^1024 on), NaN and the sign of zero are outside the
    model.

    The handlers whose arithmetic is a chain of sums that can round
    ([handleWheel], [zoomIn], [zoomOut] and the two [handleMouseMove]) are
    embedded a second time here, operator by operator.  [Math.max] and
    [Math.min] return one of their arguments and round nothing, and
    [Math.PI / 2] and [-Math.PI / 2] are binary64 numbers, halving and
    negation being exact.  The library's [updateProjectionMatrix] is the
    exact one of both embeddings. *)

Module Binary64.

(** The exponent of the smallest positive binary64 number. *)
Definition emin : Z := -1074.

Definition pow2 (k : Z) : Q := 2 ^ k.

(** The integer part of the binary logarithm of a positive rational. *)
Definition ilog2 (x : Q) : Z :=
  let k := (Z.log2 (Qnum x) - Z.log2 (Zpos (Qden x)))%Z in
  if Qle_bool (pow2 k) x then k else (k - 1)%Z.

(** The exponent of the last place of the binary64 numbers around [x]:
    53 significant bits, and the spacing 2^-1074 of the subnormal
    numbers at the least. *)
Definition exponent (x : Q) : Z := Z.max (ilog2 (Qabs x) - 52) emin.

(** The nearest integer, a tie going to the even one. *)
Definition rne (y : Q) : Z :=
  let f := Qfloor y in
  match Qcompare (y - inject_Z f) (1 # 2) with
  | Lt => f
  | Gt => (f + 1)%Z
  | Eq => if Z.even f then f else (f + 1)%Z
  end.

(** The binary64 number nearest to [x]. *)
Definition round (x : Q) : Q :=
  if Qeq_bool x 0 then 0
  else inject_Z (rne (x / pow2 (exponent x))) * pow2 (exponent x).

(** [x] is a finite binary64 number. *)
Definition representable (x : Q) : Prop :=
  exists m e : Z,
    (Z.abs m < 2 ^ 53)%Z /\ (emin <= e)%Z /\ x == inject_Z m * pow2 e.

(** The number a decimal literal of the source denotes. *)
Definition literal (q : Q) : number := round q.

(** The operators [+], [-] and [*]. *)
Definition add (a b : number) : number := round (a + b).
Definition sub (a b : number) : number := round (a - b).
Definition mul (a b : number) : number := round (a * b).

Section Handlers.
Context `{Math.Trig}.
Variable V : Type.

Definition handleWheel (event : WheelEvent) (s : Component V)
  : Component V :=
  with_camera
    (fun camera =>
       let fov :=
         add (PerspectiveCamera.fov camera)
             (mul (deltaY event) (literal 0.05)) in
       let camera :=
         PerspectiveCamera.set_fov (Math.max 10 (Math.min 120 fov)) camera in
       PerspectiveCamera.updateProjectionMatrix camera)
    s.

Definition zoomIn (s : Component V) : Component V :=
  with_camera
    (fun camera =>
       let camera :=
         PerspectiveCamera.set_fov
           (Math.max 10 (sub (PerspectiveCamera.fov camera) 10)) camera in
       PerspectiveCamera.updateProjectionMatrix camera)
    s.

Definition zoomOut (s : Component V) : Component V :=
  with_camera
    (fun camera =>
       let camera :=
         PerspectiveCamera.set_fov
           (Math.min 120 (add (PerspectiveCamera.fov camera) 10)) camera in
       PerspectiveCamera.updateProjectionMatrix camera)
    s.

End Handlers.

Arguments handleWheel {_ V}.
Arguments zoomIn {_ V}.
Arguments zoomOut {_ V}.

(** [handleMouseMove], as variant A words it (src/unnamed/part_000). *)
Definition handleMouseMoveA (event : MouseEvent) (s : VariantA.State)
  : VariantA.State :=
  if negb (isDraggingRef s) then s
  else
    let deltaX :=
      sub (clientX event) (Point.x (previousMouseRef s)) in
    let deltaY :=
      sub (clientY event) (Point.y (previousMouseRef s)) in
    let s :=
      with_camera
        (fun camera =>
           let r := PerspectiveCamera.rotation camera in
           let r :=
             Euler.mk (Euler.x r)
                      (sub (Euler.y r)
                         (mul deltaX (literal 0.005)))
                      (Euler.z r) in
           let r :=
             Euler.mk (sub (Euler.x r)
                         (mul deltaY (literal 0.005)))
                      (Euler.y r) (Euler.z r) in
           let r := Euler.mk
                      (Math.max ((- Math.PI) / 2)
                                (Math.min (Math.PI / 2) (Euler.x r)))
                      (Euler.y r) (Euler.z r) in
           PerspectiveCamera.set_rotation r camera)
        s in
    set_previousMouseRef (Point.mk (clientX event) (clientY event)) s.

(** [handleMouseMove], as variant B words it
    (src/src/components/PanoramicViewer.tsx). *)
Definition handleMouseMoveB (event : MouseEvent) (s : VariantB.State)
  : VariantB.State :=
  if negb (isDraggingRef s) then s
  else
    let deltaX :=
      sub (clientX event) (Point.x (previousMouseRef s)) in
    let deltaY :=
      sub (clientY event) (Point.y (previousMouseRef s)) in
    let s :=
      with_camera
        (fun camera =>
           let r := PerspectiveCamera.rotation camera in
           let newRotationY :=
             sub (Euler.y r)
               (mul deltaX (literal 0.005)) in
           let newRotationX :=
             sub (Euler.x r)
               (mul deltaY (literal 0.005)) in
           let r := Euler.mk (Euler.x r) newRotationY (Euler.z r) in
           let r := Euler.mk
                      (Math.max ((- Math.PI) / 2)
                                (Math.min (Math.PI / 2) newRotationX))
                      (Euler.y r) (Euler.z r) in
           PerspectiveCamera.set_rotation r camera)
        s in
    let s :=
      match cameraRef s with
      | Some camera =>
          let r := PerspectiveCamera.rotation camera in
          VariantB.setCameraRotation (Point.mk (Euler.x r) (Euler.y r)) s
      | None => s
      end in
    set_previousMouseRef (Point.mk (clientX event) (clientY event)) s.

End Binary64.

(** ** The floating-point numbers of the kernel

    Rocq's kernel has the binary64 numbers and their operators built in.
    They serve as a check of [Binary64.round] on concrete numbers; no
    theorem rests on them. *)

Module KernelFloat.
Import PrimFloat FloatOps SpecFloat.

(** The rational a finite floating-point number is. *)
Definition to_Q (f : float) : option Q :=
  match Prim2SF f with
  | S754_zero _ => Some 0
  | S754_finite sign m e =>
      Some ((if sign then - (1) else 1) * inject_Z (Zpos m) * 2 ^ e)
  | _ => None
  end.

Definition has_value (q : Q) (f : float) : bool :=
  match to_Q f with
  | Some r => Qeq_bool q r
  | None => false
  end.

Set Warnings "-inexact-float".

(** The field of view after the mount and a wheel event of deltaY -303. *)
Definition fov_wheeled : float := (75 + (-303) * 0.05)%float.

(** Zoom-out and zoom-in after it, neither clamped. *)
Definition fov_zoomed : float := (fov_wheeled + 10 - 10)%float.

(** Numbers as [Binary64] computes them, each with the same computation on
    the floating-point numbers of the kernel: the literals of the
    handlers, the wheel event of deltaY -303, zoom-out and zoom-in after
    it, two wheel events and the one of their sum, the pitch of a drag,
    directly and by way of another position, ties, quotients and subnormal
    numbers. *)
Definition samples : list (Q * float) :=
  [ (Binary64.literal 0.05, 0.05%float);
    (Binary64.literal 0.005, 0.005%float);
    (Binary64.mul (-303) (Binary64.literal 0.05), ((-303) * 0.05)%float);
    (Binary64.add 75 (Binary64.mul (-303) (Binary64.literal 0.05)),
     fov_wheeled);
    (Binary64.add
       (Binary64.add 75 (Binary64.mul (-303) (Binary64.literal 0.05))) 10,
     (fov_wheeled + 10)%float);
    (Binary64.sub
       (Binary64.add
          (Binary64.add 75 (Binary64.mul (-303) (Binary64.literal 0.05)))
          10)
       10,
     fov_zoomed);
    (Binary64.add
       (Binary64.add 75 (Binary64.mul 1 (Binary64.literal 0.05)))
       (Binary64.mul 2 (Binary64.literal 0.05)),
     (75 + 1 * 0.05 + 2 * 0.05)%float);
    (Binary64.add 75 (Binary64.mul 3 (Binary64.literal 0.05)),
     (75 + 3 * 0.05)%float);
    (Binary64.sub 0 (Binary64.mul (-40) (Binary64.literal 0.005)),
     (0 - (-40) * 0.005)%float);
    (Binary64.sub
       (Binary64.sub 0 (Binary64.mul 100 (Binary64.literal 0.005)))
       (Binary64.mul (-140) (Binary64.literal 0.005)),
     (0 - 100 * 0.005 - (-140) * 0.005)%float);
    (Binary64.add 9007199254740992 1, (9007199254740992 + 1)%float);
    (Binary64.add 9007199254740994 1, (9007199254740994 + 1)%float);
    (Binary64.round (1 # 3), (1 / 3)%float);
    (Binary64.round (- (2 # 3)), (-2 / 3)%float);
    (Binary64.mul (Binary64.round (3 * 2 ^ (-1074))) (1 # 2),
     (0x3p-1074 * 0.5)%float);
    (Binary64.mul (Binary64.round (5 * 2 ^ (-1074))) (1 # 2),
     (0x5p-1074 * 0.5)%float);
    (Binary64.mul (Binary64.round (2 ^ (-1074))) (1 # 2),
     (0x1p-1074 * 0.5)%float) ].

Set Warnings "inexact-float".

End KernelFloat.

(* ================================================================= *)
(** * The effect and its cleanup

    What the mount effect acquires from the page and what the function it
    returns releases: the canvas appended to the container, five event
    listeners, the frame request of the animation loop, the renderer.  The
    page is modelled as far as these calls go.

    Modelled from the spec: the browser's own calls follow the DOM
    standard.  [addEventListener] ignores a listener that is registered
    already, [removeEventListener] removes the matching one if there is
    one, [requestAnimationFrame] hands out a handle that no earlier request
    had, [cancelAnimationFrame] takes the request of that handle off the
    list, and a frame runs the callbacks that were pending when it began.
    An element is a number; [removeChild] of an element that is no child,
    where the browser throws, does not occur on the pages the theorems are
    about. *)

Module Dom.

Inductive Target := domElement | window.

(** The five handlers of the effect, as listener identities. *)
Inductive Callback :=
| cb_handleMouseDown
| cb_handleMouseMove
| cb_handleMouseUp
| cb_handleWheel
| cb_handleResize.

Record Listener := {
  target : Target;
  type : string;
  callback : Callback }.

Definition Target_eqb (a b : Target) : bool :=
  match a, b with
  | domElement, domElement | window, window => true
  | _, _ => false
  end.

Definition Callback_eqb (a b : Callback) : bool :=
  match a, b with
  | cb_handleMouseDown, cb_handleMouseDown
  | cb_handleMouseMove, cb_handleMouseMove
  | cb_handleMouseUp, cb_handleMouseUp
  | cb_handleWheel, cb_handleWheel
  | cb_handleResize, cb_handleResize => true
  | _, _ => false
  end.

Definition Listener_eqb (a b : Listener) : bool :=
  Target_eqb (target a) (target b) && String.eqb (type a) (type b)
  && Callback_eqb (callback a) (callback b).

(** The page, as the effect sees it. *)
Record Page := mkPage {
  mountRef : bool;            (* [mountRef.current] is not null *)
  container : list nat;       (* the children of the mount container *)
  listeners : list Listener;  (* the registered event listeners *)
  pending : list nat;         (* the frame requests not yet run *)
  nextHandle : nat;           (* the handle the next frame request gets *)
  animationRef : option nat;  (* [animationRef.current] *)
  disposed : bool }.          (* [renderer.dispose()] has been called *)

(** [addEventListener] ignores a listener that is registered already. *)
Definition addEventListener (l : Listener) (p : Page) : Page :=
  if existsb (Listener_eqb l) (listeners p) then p
  else mkPage (mountRef p) (container p) (listeners p ++ [l]) (pending p)
              (nextHandle p) (animationRef p) (disposed p).

Fixpoint remove_first {A : Type} (eqb : A -> A -> bool) (a : A)
    (l : list A) : list A :=
  match l with
  | [] => []
  | b :: l' => if eqb a b then l' else b :: remove_first eqb a l'
  end.

Definition removeEventListener (l : Listener) (p : Page) : Page :=
  mkPage (mountRef p) (container p)
         (remove_first Listener_eqb l (listeners p)) (pending p)
         (nextHandle p) (animationRef p) (disposed p).

Definition appendChild (element : nat) (p : Page) : Page :=
  mkPage (mountRef p) (container p ++ [element]) (listeners p) (pending p)
         (nextHandle p) (animationRef p) (disposed p).

Definition removeChild (element : nat) (p : Page) : Page :=
  mkPage (mountRef p) (remove_first Nat.eqb element (container p))
         (listeners p) (pending p) (nextHandle p) (animationRef p)
         (disposed p).

(** [requestAnimationFrame]: the handle, and the page with the request. *)
Definition requestAnimationFrame (p : Page) : nat * Page :=
  (nextHandle p,
   mkPage (mountRef p) (container p) (listeners p)
          (pending p ++ [nextHandle p]) (S (nextHandle p)) (animationRef p)
          (disposed p)).

Definition cancelAnimationFrame (handle : nat) (p : Page) : Page :=
  mkPage (mountRef p) (container p) (listeners p)
         (remove_first Nat.eqb handle (pending p)) (nextHandle p)
         (animationRef p) (disposed p).

Definition set_animationRef (v : option nat) (p : Page) : Page :=
  mkPage (mountRef p) (container p) (listeners p) (pending p)
         (nextHandle p) v (disposed p).

Definition set_mountRef (v : bool) (p : Page) : Page :=
  mkPage v (container p) (listeners p) (pending p) (nextHandle p)
         (animationRef p) (disposed p).

Definition dispose (p : Page) : Page :=
  mkPage (mountRef p) (container p) (listeners p) (pending p)
         (nextHandle p) (animationRef p) true.

Definition registrations : list Listener :=
  [ {| target := domElement; type := "mousedown";
       callback := cb_handleMouseDown |};
    {| target := window; type := "mousemove";
       callback := cb_handleMouseMove |};
    {| target := window; type := "mouseup";
       callback := cb_handleMouseUp |};
    {| target := domElement; type := "wheel";
       callback := cb_handleWheel |};
    {| target := window; type := "resize";
       callback := cb_handleResize |} ].

(** [animate], as far as the page goes: the next frame is requested and its
    handle kept; drawing acquires nothing. *)
Definition animate (p : Page) : Page :=
  let '(handle, p) := requestAnimationFrame p in
  set_animationRef (Some handle) p.

(** The browser runs a frame: the requests pending at its start are taken
    off the list and their callback, [animate], is run for each. *)
Definition frame (p : Page) : Page :=
  let requests := pending p in
  let p := mkPage (mountRef p) (container p) (listeners p) []
                  (nextHandle p) (animationRef p) (disposed p) in
  fold_left (fun p _ => animate p) requests p.

(** The effect, for the renderer whose canvas is [canvas]: nothing when the
    container ref is null. *)
Definition effect (canvas : nat) (p : Page) : Page :=
  if negb (mountRef p) then p
  else
    let p := appendChild canvas p in
    let p := fold_left (fun p l => addEventListener l p) registrations p in
    animate p.

(** The function the effect returns. *)
Definition cleanup (canvas : nat) (p : Page) : Page :=
  let p :=
    match animationRef p with
    | Some handle =>
        if Nat.eqb handle 0 then p else cancelAnimationFrame handle p
    | None => p
    end in
  let p := fold_left (fun p l => removeEventListener l p) registrations p in
  let p := if mountRef p then removeChild canvas p else p in
  dispose p.

End Dom.

(* ================================================================= *)
(** * Notions the further properties are stated with *)

(** The field of view the wheel handler stores for a requested value. *)
Definition clamp_fov (x : number) : number :=
  Math.max 10 (Math.min 120 x).

Definition clamp_pitch (x : number) : number :=
  Math.max ((- Math.PI) / 2) (Math.min (Math.PI / 2) x).

(** What the two components have in common: every field but the one of the
    variant. *)
Definition shared {V : Type} (s : Component V) :=
  (sceneRef s, cameraRef s, sphereRef s, isDraggingRef s,
   previousMouseRef s, selectedHotspot s, isLoading s, console s).

(** The three flags of the interface, read off a sequence of events. *)
Definition selection_after (es : list Event) (start : option Hotspot)
  : option Hotspot :=
  fold_left
    (fun selected e =>
       match e with
       | ClickHotspot hotspot => Some hotspot
       | ClickClose => None
       | _ => selected
       end)
    es start.

Definition loading_after (es : list Event) (start : bool) : bool :=
  fold_left
    (fun loading e =>
       match e with
       | TextureLoaded _ | TextureFailed _ => false
       | _ => loading
       end)
    es start.

Definition dragging_after (es : list Event) (start : bool) : bool :=
  fold_left
    (fun dragging e =>
       match e with
       | MouseDown _ => true
       | MouseUp => false
       | _ => dragging
       end)
    es start.

Definition is_load (e : Event) : bool :=
  match e with TextureLoaded _ => true | _ => false end.

Definition is_reset (e : Event) : bool :=
  match e with ClickReset => true | _ => false end.

(** The sphere ref holds the sphere added to the scene last, if any. *)
Definition sphere_installed {V : Type} (s : Component V) (n : nat) : Prop :=
  exists scene,
    sceneRef s = Some scene /\
    List.length (Scene.children scene) = n /\
    sphereRef s = last (List.map Some (Scene.children scene)) None.

(** Variant B: the [cameraRotation] state is the camera's pitch and yaw. *)
Definition in_sync (s : VariantB.State) : Prop :=
  camera_has
    (fun camera => variantState s = Point.mk (pitch camera) (yaw camera)) s.

(** The focal length of the projection, in pixels. *)
Definition focal `{Math.Trig} (window : Window)
    (camera : PerspectiveCamera.t) : number :=
  innerHeight window
  / (2 * Math.tan (PerspectiveCamera.DEG2RAD * 0.5
                   * PerspectiveCamera.fov camera)).

(** The state after all the events of a sequence, for either variant. *)
Definition run_with `{Math.Trig} {V : Type}
    (handleMouseMove : MouseEvent -> Component V -> Component V)
    (es : list Event) (s : Component V) : Component V :=
  fold_left (fun s e => dispatch_with handleMouseMove e s) es s.

(** The events of the page: an input event, or a resize of the window to
    the size given. *)
Inductive PageEvent :=
| Input (e : Event)
| Resize (window : Window).

(** The handler a page event reaches; [handleResize] is the listener of the
    window's resize event. *)
Definition page_dispatch_with `{Math.Trig} {V : Type}
    (handleMouseMove : MouseEvent -> Component V -> Component V)
    (e : PageEvent) (s : Component V) : Component V :=
  match e with
  | Input e => dispatch_with handleMouseMove e s
  | Resize window => handleResize window s
  end.

(** The state after all the page events of a sequence. *)
Definition page_run_with `{Math.Trig} {V : Type}
    (handleMouseMove : MouseEvent -> Component V -> Component V)
    (es : list PageEvent) (s : Component V) : Component V :=
  fold_left (fun s e => page_dispatch_with handleMouseMove e s) es s.

(** The size of the window after the events, [window] being its size
    before them. *)
Definition resized (window : Window) (e : PageEvent) : Window :=
  match e with
  | Input _ => window
  | Resize window' => window'
  end.

Definition last_window (window : Window) (es : list PageEvent) : Window :=
  fold_left resized es window.

(** A window with a width and a height: its aspect ratio, the quotient of
    the two, is a positive number. *)
Definition sized (window : Window) : Prop :=
  0 < innerWidth window /\ 0 < innerHeight window.

(** The window is sized at the mount and after every resize. *)
Definition windows_sized (window : Window) (es : list PageEvent) : Prop :=
  sized window /\
  Forall (fun e => match e with
                   | Input _ => True
                   | Resize window' => sized window'
                   end) es.

(** A camera with the aspect ratio of [window] and the depth range and
    position the mount effect gives it. *)
Definition built_for (window : Window) (camera : PerspectiveCamera.t)
  : Prop :=
  PerspectiveCamera.aspect camera = innerWidth window / innerHeight window /\
  PerspectiveCamera.near camera = 0.1 /\
  PerspectiveCamera.far camera = 1000 /\
  PerspectiveCamera.position camera = Vector3.mk 0 0 0.

(** Two cameras with the same parameters and the same projection matrix.
    The view matrix [matrixWorldInverse] is left out: the renderer writes
    it when it draws a frame, no handler does. *)
Definition same_parameters (c c' : PerspectiveCamera.t) : Prop :=
  PerspectiveCamera.fov c' = PerspectiveCamera.fov c /\
  PerspectiveCamera.aspect c' = PerspectiveCamera.aspect c /\
  PerspectiveCamera.near c' = PerspectiveCamera.near c /\
  PerspectiveCamera.far c' = PerspectiveCamera.far c /\
  PerspectiveCamera.rotation c' = PerspectiveCamera.rotation c /\
  PerspectiveCamera.position c' = PerspectiveCamera.position c /\
  PerspectiveCamera.projectionMatrix c' = PerspectiveCamera.projectionMatrix c.

(** A drag, a resize and two more events. *)
Definition drag_resize_zoom : list PageEvent :=
  [ Input (MouseDown {| clientX := 0; clientY := 0 |});
    Input (MouseMove {| clientX := 40; clientY := 20 |});
    Resize {| innerWidth := 800; innerHeight := 600 |};
    Input ClickZoomIn ].

(** A drag, then a reset. *)
Definition drag_then_reset : list Event :=
  [ MouseDown {| clientX := 0; clientY := 0 |};
    MouseMove {| clientX := 40; clientY := 20 |};
    ClickReset ].

(** The object [updateHotspotPositions] builds: the entries of [o] and, for
    each hotspot of [hs] in turn, its anchor [g] under its id. *)
Definition store (g : Hotspot -> option VariantA.Anchor.t)
    (hs : list Hotspot) (o : VariantA.HotspotPositions)
  : VariantA.HotspotPositions :=
  fold_left (fun acc hotspot => VariantA.assign (id hotspot) (g hotspot) acc)
            hs o.

(** The animation loop is running on a page: one frame request is pending,
    its handle is the one kept in [animationRef], and the listeners and the
    container are [ls] and [c]. *)
Definition looping (ls : list Dom.Listener) (c : list nat) (d : bool)
    (p : Dom.Page) : Prop :=
  Dom.listeners p = ls /\
  Dom.container p = c /\
  Dom.disposed p = d /\
  exists handle,
    handle <> 0%nat /\
    Dom.pending p = [handle] /\
    Dom.animationRef p = Some handle /\
    Dom.nextHandle p = S handle.

(** A camera whose yaw and pitch are binary64 numbers, the pitch between
    the poles. *)
Definition rotation_settled (camera : PerspectiveCamera.t) : Prop :=
  Binary64.representable (yaw camera) /\
  Binary64.representable (pitch camera) /\
  pitch_in_range camera.

(** The angle a mouse move sets for the angle [angle] and the pointer
    coordinates [now] and [before]. *)
Definition turned_angle (angle now before : number) : number :=
  Binary64.sub angle
    (Binary64.mul (Binary64.sub now before) (Binary64.literal 0.005)).

(** What a mouse move of a drag leaves of the camera [c0] and the recorded
    pointer position [previous]. *)
Definition turned {V : Type} (event : MouseEvent) (c0 : PerspectiveCamera.t)
    (previous : Point.t) (s' : Component V) : Prop :=
  let dx := clientX event - Point.x previous in
  let dy := clientY event - Point.y previous in
  previousMouseRef s' = Point.mk (clientX event) (clientY event) /\
  camera_has
    (fun c =>
       rotation_settled c /\
       (0 <= dx -> yaw c <= yaw c0) /\
       (dx <= 0 -> yaw c0 <= yaw c) /\
       (dx == 0 -> yaw c == yaw c0) /\
       (0 <= dy -> pitch c <= pitch c0) /\
       (dy <= 0 -> pitch c0 <= pitch c) /\
       (dy == 0 -> pitch c == pitch c0))
    s'.

(** The two components after the mount and a mouse-down at the origin. *)
Definition pressedA : VariantA.State :=
  handleMouseDown {| clientX := 0; clientY := 0 |} mountedA.

Definition pressedB : VariantB.State :=
  handleMouseDown {| clientX := 0; clientY := 0 |} mountedB.

(** A camera whose field of view is a binary64 number of the zoom
    range. *)
Definition fov_settled (camera : PerspectiveCamera.t) : Prop :=
  Binary64.representable (PerspectiveCamera.fov camera) /\
  fov_in_range camera.

(** A camera whose field of view is a binary64 number within 2^-47 of
    [f]: half a unit of the last place of the numbers from 64 to 128. *)
Definition within_rounding (f : number) (camera : PerspectiveCamera.t)
  : Prop :=
  Binary64.representable (PerspectiveCamera.fov camera) /\
  Qabs (PerspectiveCamera.fov camera - f) <= 1 # 2 ^ 47.

(** Variant A after the mount and one wheel event of deltaY -303, on
    binary64 numbers. *)
Definition wheeled : VariantA.State :=
  Binary64.handleWheel (H := series_tan) {| deltaY := -303 |} mountedA.

(** The number of steps, as a number. *)
Definition steps (n : nat) : number := inject_Z (Z.of_nat n).

(** Concrete inputs for the further properties. *)
Definition window_800x600 : Window :=
  {| innerWidth := 800; innerHeight := 600 |}.

Definition page0 : Dom.Page :=
  Dom.mkPage true [] [] [] 1 None false.

(* ================================================================= *)
(** * Clamping *)

Lemma clamp_lower (lo hi x : number) :
  lo <= Math.max lo (Math.min hi x).
Proof. unfold Math.max. apply Q.le_max_l. Qed.

Lemma clamp_upper (lo hi x : number) :
  lo <= hi -> Math.max lo (Math.min hi x) <= hi.
Proof.
  intros Hle. unfold Math.max, Math.min.
  apply Q.max_lub; [exact Hle | apply Q.le_min_l].
Qed.

Lemma max_lower_bound (lo x : number) : lo <= Math.max lo x.
Proof. apply Q.le_max_l. Qed.

Lemma max_upper_bound (lo hi x : number) :
  lo <= hi -> x <= hi -> Math.max lo x <= hi.
Proof. intros. now apply Q.max_lub. Qed.

Lemma min_upper_bound (hi x : number) : Math.min hi x <= hi.
Proof. apply Q.le_min_l. Qed.

Lemma min_lower_bound (lo hi x : number) :
  lo <= hi -> lo <= x -> lo <= Math.min hi x.
Proof. intros. now apply Q.min_glb. Qed.

Lemma max_not_clamped (lo x : number) : lo <= x -> Math.max lo x == x.
Proof. intros. now apply Q.max_r. Qed.

Lemma min_not_clamped (hi x : number) : x <= hi -> Math.min hi x == x.
Proof. intros. now apply Q.min_r. Qed.

Lemma PI_positive : 0 < Math.PI.
Proof. reflexivity. Qed.

Lemma pitch_bounds_ordered : (- Math.PI) / 2 <= Math.PI / 2.
Proof. discriminate. Qed.

(* ================================================================= *)
(** * The camera under the handlers *)

Section CameraUpdates.
Context `{Math.Trig}.
Variable V : Type.
Implicit Types (s : Component V) (f : PerspectiveCamera.t -> PerspectiveCamera.t).

Lemma cameraRef_with_camera f s :
  cameraRef (with_camera f s) = option_map f (cameraRef s).
Proof.
  unfold with_camera. destruct (cameraRef s) eqn:Hc; cbn; [reflexivity|].
  exact Hc.
Qed.

Lemma camera_has_with_camera (P Q : PerspectiveCamera.t -> Prop) f s :
  (forall camera, P camera -> Q (f camera)) ->
  camera_has P s -> camera_has Q (with_camera f s).
Proof.
  intros Hf (camera & Hc & HP). exists (f camera). split.
  - now rewrite cameraRef_with_camera, Hc.
  - now apply Hf.
Qed.

Lemma zoom_only_with_camera f s :
  (forall camera, same_but_zoom camera (f camera)) ->
  zoom_only s (with_camera f s).
Proof.
  intros Hf. unfold zoom_only, with_camera.
  destruct (cameraRef s) as [camera|] eqn:Hc; cbn; rewrite ?Hc;
    repeat split; auto; apply Hf.
Qed.

Lemma cameraRef_onLoad texture s :
  cameraRef (onLoad texture s) = cameraRef s.
Proof. unfold onLoad, scene_add. now destruct (sceneRef s). Qed.

Lemma cameraRef_onError error s :
  cameraRef (onError error s) = cameraRef s.
Proof. reflexivity. Qed.

(** The camera steps of the wheel handler and of the three buttons. *)

Lemma handleWheel_fov event s :
  camera_has (fun _ => True) s ->
  camera_has fov_in_range (handleWheel event s).
Proof.
  apply camera_has_with_camera. intros camera _.
  split; cbn; [apply clamp_lower | apply clamp_upper; discriminate].
Qed.

Lemma zoomIn_fov s :
  camera_has fov_in_range s -> camera_has fov_in_range (zoomIn s).
Proof.
  apply camera_has_with_camera. intros camera [Hlo Hhi].
  split; cbn; [apply max_lower_bound|].
  apply max_upper_bound; [discriminate | lra].
Qed.

Lemma zoomOut_fov s :
  camera_has fov_in_range s -> camera_has fov_in_range (zoomOut s).
Proof.
  apply camera_has_with_camera. intros camera [Hlo Hhi].
  split; cbn; [|apply min_upper_bound].
  apply min_lower_bound; [discriminate | lra].
Qed.

Lemma resetView_fov s :
  camera_has (fun _ => True) s -> camera_has fov_in_range (resetView s).
Proof.
  apply camera_has_with_camera. intros camera _.
  split; cbn; discriminate.
Qed.

Lemma resetView_pitch s :
  camera_has (fun _ => True) s -> camera_has pitch_in_range (resetView s).
Proof.
  apply camera_has_with_camera. intros camera _.
  split; cbn; discriminate.
Qed.

Lemma camera_has_weaken (P Q : PerspectiveCamera.t -> Prop) s :
  (forall camera, P camera -> Q camera) -> camera_has P s -> camera_has Q s.
Proof. intros HPQ (camera & Hc & HP). exists camera. auto. Qed.

Lemma camera_has_same_ref (P : PerspectiveCamera.t -> Prop) s s' :
  cameraRef s' = cameraRef s -> camera_has P s -> camera_has P s'.
Proof. intros Heq (camera & Hc & HP). exists camera. now rewrite Heq. Qed.

End CameraUpdates.

(** A handler that leaves the camera ref alone keeps what holds of it. *)
Ltac same_camera H :=
  revert H; apply camera_has_same_ref;
  first [reflexivity | apply cameraRef_onLoad].

(** What the host's dispatch preserves, given what the variant's
    mouse-move handler preserves. *)
Section Dispatching.
Context `{Math.Trig}.
Variable V : Type.
Implicit Types (s : Component V) (f : PerspectiveCamera.t -> PerspectiveCamera.t).

Section Invariant.
Variable handleMouseMove : MouseEvent -> Component V -> Component V.
Variable I : Component V -> Prop.

Lemma trace_invariant :
  (forall e s, I s -> I (dispatch_with handleMouseMove e s)) ->
  forall es s, I s -> Forall I (trace_with handleMouseMove es s).
Proof.
  intros Hstep es. induction es as [|e es IH]; intros s Hs; cbn.
  - constructor.
  - constructor; [now apply Hstep | apply IH; now apply Hstep].
Qed.
End Invariant.

Lemma dispatch_fov handleMouseMove :
  (forall event s, camera_has fov_in_range s ->
                   camera_has fov_in_range (handleMouseMove event s)) ->
  forall e s, camera_has fov_in_range s ->
              camera_has fov_in_range (dispatch_with handleMouseMove e s).
Proof.
  intros Hmove e s Hs.
  assert (Hany : camera_has (fun _ => True) s)
    by (revert Hs; apply camera_has_weaken; auto).
  destruct e; cbn; try solve [same_camera Hs].
  - now apply Hmove.
  - now apply handleWheel_fov.
  - now apply zoomIn_fov.
  - now apply zoomOut_fov.
  - now apply resetView_fov.
Qed.

Lemma with_camera_pitch f s :
  (forall camera, pitch (f camera) = pitch camera) ->
  camera_has pitch_in_range s -> camera_has pitch_in_range (with_camera f s).
Proof.
  intros Hf. apply camera_has_with_camera. intros camera.
  unfold pitch_in_range. now rewrite Hf.
Qed.

Lemma dispatch_pitch handleMouseMove :
  (forall event s, camera_has pitch_in_range s ->
                   camera_has pitch_in_range (handleMouseMove event s)) ->
  forall e s, camera_has pitch_in_range s ->
              camera_has pitch_in_range (dispatch_with handleMouseMove e s).
Proof.
  intros Hmove e s Hs.
  assert (Hany : camera_has (fun _ => True) s)
    by (revert Hs; apply camera_has_weaken; auto).
  destruct e; cbn; try solve [same_camera Hs].
  - now apply Hmove.
  - revert Hs. now apply with_camera_pitch.
  - revert Hs. now apply with_camera_pitch.
  - revert Hs. now apply with_camera_pitch.
  - now apply resetView_pitch.
Qed.

End Dispatching.

(* ================================================================= *)
(** * The mouse-move handlers of the two variants *)

Lemma clamped_pitch_in_range (x : number) :
  (- Math.PI) / 2 <= Math.max ((- Math.PI) / 2) (Math.min (Math.PI / 2) x)
  <= Math.PI / 2.
Proof.
  split; [apply clamp_lower | apply clamp_upper, pitch_bounds_ordered].
Qed.

Lemma moveA_cameraRef (event : MouseEvent) (s : VariantA.State) :
  isDraggingRef s = true ->
  exists f,
    cameraRef (VariantA.handleMouseMove event s) = option_map f (cameraRef s) /\
    forall camera,
      pitch_in_range (f camera) /\
      exists r, f camera = PerspectiveCamera.set_rotation r camera.
Proof.
  intros Hdrag. unfold VariantA.handleMouseMove. rewrite Hdrag. cbn.
  eexists. split; [apply cameraRef_with_camera|].
  intros camera. split; [apply clamped_pitch_in_range | eexists; reflexivity].
Qed.

Lemma moveB_cameraRef (event : MouseEvent) (s : VariantB.State) :
  isDraggingRef s = true ->
  exists f,
    cameraRef (VariantB.handleMouseMove event s) = option_map f (cameraRef s) /\
    forall camera,
      pitch_in_range (f camera) /\
      exists r, f camera = PerspectiveCamera.set_rotation r camera.
Proof.
  intros Hdrag. unfold VariantB.handleMouseMove. rewrite Hdrag. cbn.
  eexists. split.
  - match goal with
    | |- context [with_camera ?f s] => set (s1 := with_camera f s)
    end.
    transitivity (cameraRef s1); [|apply cameraRef_with_camera].
    destruct (cameraRef s1) eqn:Hc; cbn; [exact Hc | exact Hc].
  - intros camera. split; [apply clamped_pitch_in_range | eexists; reflexivity].
Qed.

Lemma move_idle_A (event : MouseEvent) (s : VariantA.State) :
  isDraggingRef s = false -> VariantA.handleMouseMove event s = s.
Proof. intros Hidle. unfold VariantA.handleMouseMove. now rewrite Hidle. Qed.

Lemma move_idle_B (event : MouseEvent) (s : VariantB.State) :
  isDraggingRef s = false -> VariantB.handleMouseMove event s = s.
Proof. intros Hidle. unfold VariantB.handleMouseMove. now rewrite Hidle. Qed.

Lemma moveA_pitch (event : MouseEvent) (s : VariantA.State) :
  camera_has pitch_in_range s ->
  camera_has pitch_in_range (VariantA.handleMouseMove event s).
Proof.
  intros (camera & Hc & Hp). destruct (isDraggingRef s) eqn:Hdrag.
  - destruct (moveA_cameraRef event s Hdrag) as (f & Hf & Hprop).
    exists (f camera). split; [now rewrite Hf, Hc | apply Hprop].
  - rewrite move_idle_A by assumption. now exists camera.
Qed.

Lemma moveB_pitch (event : MouseEvent) (s : VariantB.State) :
  camera_has pitch_in_range s ->
  camera_has pitch_in_range (VariantB.handleMouseMove event s).
Proof.
  intros (camera & Hc & Hp). destruct (isDraggingRef s) eqn:Hdrag.
  - destruct (moveB_cameraRef event s Hdrag) as (f & Hf & Hprop).
    exists (f camera). split; [now rewrite Hf, Hc | apply Hprop].
  - rewrite move_idle_B by assumption. now exists camera.
Qed.

Lemma moveA_fov (event : MouseEvent) (s : VariantA.State) :
  camera_has fov_in_range s ->
  camera_has fov_in_range (VariantA.handleMouseMove event s).
Proof.
  intros (camera & Hc & Hp). destruct (isDraggingRef s) eqn:Hdrag.
  - destruct (moveA_cameraRef event s Hdrag) as (f & Hf & Hprop).
    exists (f camera). split; [now rewrite Hf, Hc|].
    destruct (Hprop camera) as (_ & r & ->). exact Hp.
  - rewrite move_idle_A by assumption. now exists camera.
Qed.

Lemma moveB_fov (event : MouseEvent) (s : VariantB.State) :
  camera_has fov_in_range s ->
  camera_has fov_in_range (VariantB.handleMouseMove event s).
Proof.
  intros (camera & Hc & Hp). destruct (isDraggingRef s) eqn:Hdrag.
  - destruct (moveB_cameraRef event s Hdrag) as (f & Hf & Hprop).
    exists (f camera). split; [now rewrite Hf, Hc|].
    destruct (Hprop camera) as (_ & r & ->). exact Hp.
  - rewrite move_idle_B by assumption. now exists camera.
Qed.

Lemma mountedA_camera : cameraRef mountedA = Some camera0.
Proof. reflexivity. Qed.

Lemma mountedB_camera : cameraRef mountedB = Some camera0.
Proof. reflexivity. Qed.

Lemma camera0_pitch : pitch_in_range camera0.
Proof. split; discriminate. Qed.

Lemma camera0_fov : fov_in_range camera0.
Proof. split; discriminate. Qed.

(* ================================================================= *)
(** * Interaction controller *)

(** C2.  Whatever input events arrive, and so for every sequence of mouse
    moves of a drag however large the pointer deltas, a camera whose pitch
    starts in [-Math.PI/2, Math.PI/2] has its pitch in that interval after
    each event; in both variants. *)
Theorem pitch_stays_in_range `{Math.Trig} (es : list Event)
    (a : VariantA.State) (b : VariantB.State) :
  camera_has pitch_in_range a ->
  camera_has pitch_in_range b ->
  Forall (camera_has pitch_in_range) (VariantA.trace es a) /\
  Forall (camera_has pitch_in_range) (VariantB.trace es b).
Proof.
  intros Ha Hb. split.
  - apply trace_invariant; [|exact Ha].
    apply dispatch_pitch. apply moveA_pitch.
  - apply trace_invariant; [|exact Hb].
    apply dispatch_pitch. apply moveB_pitch.
Qed.

Lemma pitch_stays_in_range_witness :
  Forall (camera_has pitch_in_range)
         (VariantA.trace (H := series_tan) drag_far mountedA) /\
  Forall (camera_has pitch_in_range)
         (VariantB.trace (H := series_tan) drag_far mountedB).
Proof.
  apply (pitch_stays_in_range (H := series_tan) drag_far mountedA mountedB).
  - exists camera0. split; [reflexivity | exact camera0_pitch].
  - exists camera0. split; [reflexivity | exact camera0_pitch].
Defined.

(** C3.  Whatever input events arrive, and so for every sequence of wheel
    events with any [deltaY] and of zoom-in, zoom-out and reset clicks, a
    camera whose field of view starts in [10, 120] has its field of view
    in [10, 120] after each event; in both variants. *)
Theorem fov_stays_in_range `{Math.Trig} (es : list Event)
    (a : VariantA.State) (b : VariantB.State) :
  camera_has fov_in_range a ->
  camera_has fov_in_range b ->
  Forall (camera_has fov_in_range) (VariantA.trace es a) /\
  Forall (camera_has fov_in_range) (VariantB.trace es b).
Proof.
  intros Ha Hb. split.
  - apply trace_invariant; [|exact Ha].
    apply dispatch_fov. apply moveA_fov.
  - apply trace_invariant; [|exact Hb].
    apply dispatch_fov. apply moveB_fov.
Qed.

Lemma fov_stays_in_range_witness :
  Forall (camera_has fov_in_range)
         (VariantA.trace (H := series_tan) scroll_far mountedA) /\
  Forall (camera_has fov_in_range)
         (VariantB.trace (H := series_tan) scroll_far mountedB).
Proof.
  apply (fov_stays_in_range (H := series_tan) scroll_far mountedA mountedB).
  - exists camera0. split; [reflexivity | exact camera0_fov].
  - exists camera0. split; [reflexivity | exact camera0_fov].
Defined.

(* ================================================================= *)
(** * Rounding to binary64

    What the theorems on binary64 numbers need of [Binary64.round]: a
    binary64 number rounds to itself, a rounded number is a binary64
    number, rounding moves a number by at most half a unit of its last
    place, and rounding never crosses a binary64 number. *)

Section Rounding.
Import Binary64.

Lemma pow2_pos (k : Z) : 0 < pow2 k.
Proof. apply Qpower_0_lt. reflexivity. Qed.

Lemma pow2_add (a b : Z) : pow2 (a + b) == pow2 a * pow2 b.
Proof. apply Qpower_plus. discriminate. Qed.

Lemma pow2_le (a b : Z) : (a <= b)%Z -> pow2 a <= pow2 b.
Proof. intros. apply Qpower_le_compat_l; [assumption | discriminate]. Qed.

Lemma pow2_lt (a b : Z) : (a < b)%Z -> pow2 a < pow2 b.
Proof. intros. apply Qpower_lt_compat_l; [assumption | reflexivity]. Qed.

Lemma pow2_lt_inv (a b : Z) : pow2 a < pow2 b -> (a < b)%Z.
Proof.
  intros. apply (Qpower_lt_compat_l_inv 2); [assumption | reflexivity].
Qed.

Lemma pow2_nonneg (k : Z) : (0 <= k)%Z -> pow2 k == inject_Z (2 ^ k).
Proof. intros. unfold pow2. now rewrite Zpower_Qpower. Qed.

Lemma pow2_S (k : Z) : pow2 (k + 1) == 2 * pow2 k.
Proof. rewrite pow2_add. unfold pow2 at 2. cbn. ring. Qed.

(** A power of two is an integer multiple of every smaller one. *)
Lemma pow2_split (e e' : Z) :
  (e' <= e)%Z -> pow2 e == inject_Z (2 ^ (e - e')) * pow2 e'.
Proof.
  intros. rewrite <- pow2_nonneg by lia. rewrite <- pow2_add.
  now replace (e - e' + e')%Z with e by lia.
Qed.

(** ** The binary logarithm *)

Lemma ilog2_spec (x : Q) :
  0 < x -> pow2 (ilog2 x) <= x /\ x < pow2 (ilog2 x + 1).
Proof.
  intros Hx. unfold ilog2.
  destruct x as [n d]. cbn [Qnum Qden].
  assert (Hn : (0 < n)%Z).
  { unfold Qlt in Hx. cbn in Hx. lia. }
  destruct (Z.log2_spec n Hn) as [Hn1 Hn2].
  destruct (Z.log2_spec (Zpos d) (Pos2Z.is_pos d)) as [Hd1 Hd2].
  set (a := Z.log2 n) in *. set (b := Z.log2 (Zpos d)) in *.
  assert (Ha : (0 <= a)%Z) by apply Z.log2_nonneg.
  assert (Hb : (0 <= b)%Z) by apply Z.log2_nonneg.
  assert (Hq : n # d == inject_Z n / inject_Z (Zpos d)) by apply Qmake_Qdiv.
  assert (Hdpos : 0 < inject_Z (Zpos d)) by reflexivity.
  assert (Hlow : pow2 (a - b - 1) < n # d).
  { rewrite Hq. apply Qlt_shift_div_l; [exact Hdpos|].
    apply Qlt_le_trans with (pow2 (a - b - 1) * pow2 (b + 1)).
    - apply Qmult_lt_l; [apply pow2_pos|].
      rewrite pow2_nonneg by lia. rewrite <- Zlt_Qlt.
      replace (b + 1)%Z with (Z.succ b) by lia. exact Hd2.
    - rewrite <- pow2_add. replace (a - b - 1 + (b + 1))%Z with a by lia.
      rewrite pow2_nonneg by lia. rewrite <- Zle_Qle. exact Hn1. }
  assert (Hhigh : n # d < pow2 (a - b + 1)).
  { rewrite Hq. apply Qlt_shift_div_r; [exact Hdpos|].
    apply Qlt_le_trans with (pow2 (a + 1)).
    - rewrite pow2_nonneg by lia. rewrite <- Zlt_Qlt.
      replace (a + 1)%Z with (Z.succ a) by lia. exact Hn2.
    - replace (a + 1)%Z with (a - b + 1 + b)%Z by lia. rewrite pow2_add.
      apply Qmult_le_l; [apply pow2_pos|].
      rewrite pow2_nonneg by lia. rewrite <- Zle_Qle. exact Hd1. }
  destruct (Qle_bool (pow2 (a - b)) (n # d)) eqn:E.
  - apply Qle_bool_iff in E. split; [exact E | exact Hhigh].
  - split.
    + apply Qlt_le_weak. exact Hlow.
    + replace (a - b - 1 + 1)%Z with (a - b)%Z by lia.
      apply Qnot_le_lt. intros C. apply Qle_bool_iff in C. congruence.
Qed.

Lemma ilog2_le (x : Q) (k : Z) : 0 < x -> pow2 k <= x -> (k <= ilog2 x)%Z.
Proof.
  intros Hx Hk. destruct (ilog2_spec x Hx) as [_ H2].
  assert (pow2 k < pow2 (ilog2 x + 1)) by (eapply Qle_lt_trans; eassumption).
  apply pow2_lt_inv in H. lia.
Qed.

Lemma ilog2_lt (x : Q) (k : Z) : 0 < x -> x < pow2 k -> (ilog2 x < k)%Z.
Proof.
  intros Hx Hk. destruct (ilog2_spec x Hx) as [H1 _].
  apply pow2_lt_inv. eapply Qle_lt_trans; eassumption.
Qed.

Lemma ilog2_unique (x : Q) (k : Z) :
  pow2 k <= x -> x < pow2 (k + 1) -> ilog2 x = k.
Proof.
  intros H1 H2.
  assert (Hx : 0 < x) by (eapply Qlt_le_trans; [apply pow2_pos | exact H1]).
  pose proof (ilog2_le x k Hx H1). pose proof (ilog2_lt x (k + 1) Hx H2). lia.
Qed.

Lemma ilog2_mono (x y : Q) : 0 < x -> x <= y -> (ilog2 x <= ilog2 y)%Z.
Proof.
  intros Hx Hxy. apply ilog2_le; [lra|].
  destruct (ilog2_spec x Hx) as [H1 _]. lra.
Qed.

Lemma ilog2_comp (x y : Q) : 0 < x -> x == y -> ilog2 x = ilog2 y.
Proof.
  intros Hx E. symmetry. destruct (ilog2_spec x Hx) as [H1 H2].
  apply ilog2_unique; rewrite <- E; assumption.
Qed.

(** ** Rounding to the nearest integer, ties to even *)

Lemma floor_bounds (y : Q) :
  inject_Z (Qfloor y) <= y /\ y < inject_Z (Qfloor y) + 1.
Proof.
  split; [apply Qfloor_le|].
  pose proof (Qlt_floor y) as H. rewrite inject_Z_plus in H. exact H.
Qed.

Lemma rne_cases (y : Q) :
  let f := Qfloor y in
  (rne y = f /\ y - inject_Z f <= 1 # 2) \/
  (rne y = (f + 1)%Z /\ 1 # 2 <= y - inject_Z f).
Proof.
  intros f. unfold rne. fold f.
  destruct (Qcompare_spec (y - inject_Z f) (1 # 2)) as [E|E|E].
  - destruct (Z.even f); [left | right]; split; try reflexivity;
      rewrite E; apply Qle_refl.
  - left. split; [reflexivity | now apply Qlt_le_weak].
  - right. split; [reflexivity | now apply Qlt_le_weak].
Qed.

Lemma rne_error (y : Q) : Qabs (inject_Z (rne y) - y) <= 1 # 2.
Proof.
  destruct (floor_bounds y) as [H1 H2].
  apply Qabs_Qle_condition.
  destruct (rne_cases y) as [[E H]|[E H]]; rewrite E;
    rewrite ?inject_Z_plus; change (inject_Z 1) with 1; split; lra.
Qed.

Lemma rne_ge (y : Q) (k : Z) : inject_Z k <= y -> (k <= rne y)%Z.
Proof.
  intros H.
  assert (Hf : (k <= Qfloor y)%Z).
  { rewrite <- (Qfloor_Z k). now apply Qfloor_resp_le. }
  destruct (rne_cases y) as [[E _]|[E _]]; rewrite E; lia.
Qed.

Lemma rne_le (y : Q) (k : Z) : y <= inject_Z k -> (rne y <= k)%Z.
Proof.
  intros H. destruct (floor_bounds y) as [H1 H2].
  destruct (rne_cases y) as [[E Hr]|[E Hr]]; rewrite E.
  - rewrite Zle_Qle. lra.
  - (* floor y + 1/2 <= y <= k, so floor y < k *)
    assert (Hlt : inject_Z (Qfloor y) < inject_Z k) by lra.
    rewrite <- Zlt_Qlt in Hlt. lia.
Qed.

Lemma rne_int (k : Z) : rne (inject_Z k) = k.
Proof.
  apply Z.le_antisymm; [apply rne_le | apply rne_ge]; apply Qle_refl.
Qed.

Lemma rne_comp (y y' : Q) : y == y' -> rne y = rne y'.
Proof.
  intros E. unfold rne.
  assert (Ef : Qfloor y = Qfloor y') by now apply Qfloor_comp.
  rewrite Ef.
  assert (Ec : Qcompare (y - inject_Z (Qfloor y')) (1 # 2)
               = Qcompare (y' - inject_Z (Qfloor y')) (1 # 2)).
  { apply Qcompare_comp; [now rewrite E | reflexivity]. }
  now rewrite Ec.
Qed.

(** ** The exponent *)

Lemma exponent_emin (x : Q) : (emin <= exponent x)%Z.
Proof. unfold exponent. lia. Qed.

Lemma exponent_comp (x y : Q) : ~ x == 0 -> x == y -> exponent x = exponent y.
Proof.
  intros Hx E. unfold exponent. f_equal. f_equal.
  apply ilog2_comp; [|now rewrite E].
  pose proof (Qabs_nonneg x).
  destruct (Qeq_dec (Qabs x) 0) as [E0|E0]; [|lra].
  exfalso. apply Hx.
  pose proof (Qle_Qabs x). pose proof (Qle_Qabs (- x)).
  rewrite Qabs_opp in H1. lra.
Qed.

Lemma exponent_opp (x : Q) : exponent (- x) = exponent x.
Proof.
  unfold exponent. destruct x as [n d]. unfold Qabs, Qopp. cbn [Qnum Qden].
  now rewrite Z.abs_opp.
Qed.

Lemma exponent_pos (x : Q) :
  0 < x -> exponent x = Z.max (ilog2 x - 52) emin.
Proof.
  intros Hx. unfold exponent. f_equal. f_equal.
  apply ilog2_comp; [|apply Qabs_pos; lra].
  rewrite Qabs_pos; lra.
Qed.

(** Below [2^(k+1)] the exponent is at most [k - 52]. *)
Lemma exponent_below (x : Q) (k : Z) :
  0 < x -> x < pow2 (k + 1) -> (emin <= k - 52)%Z ->
  (exponent x <= k - 52)%Z.
Proof.
  intros Hx Hk He. rewrite exponent_pos by assumption.
  pose proof (ilog2_lt x (k + 1) Hx Hk). lia.
Qed.

(** The scaled value lies below [2^53]. *)
Lemma scaled_below (x : Q) :
  0 < x -> x / pow2 (exponent x) < inject_Z (2 ^ 53).
Proof.
  intros Hx. apply Qlt_shift_div_r; [apply pow2_pos|].
  rewrite <- pow2_nonneg by lia. rewrite <- pow2_add.
  destruct (ilog2_spec x Hx) as [_ H2].
  eapply Qlt_le_trans; [exact H2|]. apply pow2_le.
  rewrite exponent_pos by assumption. lia.
Qed.

(** In the normal range the scaled value is at least [2^52]. *)
Lemma scaled_above (x : Q) :
  0 < x -> (emin < exponent x)%Z ->
  inject_Z (2 ^ 52) <= x / pow2 (exponent x).
Proof.
  intros Hx He. apply Qle_shift_div_l; [apply pow2_pos|].
  rewrite <- pow2_nonneg by lia. rewrite <- pow2_add.
  destruct (ilog2_spec x Hx) as [H1 _].
  eapply Qle_trans; [|exact H1]. apply pow2_le.
  rewrite exponent_pos in * by assumption. lia.
Qed.

(** ** Rounding *)

Lemma round_zero (x : Q) : x == 0 -> round x == 0.
Proof.
  intros E. unfold round. now rewrite (Qeq_eq_bool _ _ E).
Qed.

Lemma round_nonzero (x : Q) :
  ~ x == 0 ->
  round x = inject_Z (rne (x / pow2 (exponent x))) * pow2 (exponent x).
Proof.
  intros Hx. unfold round.
  destruct (Qeq_bool x 0) eqn:E; [|reflexivity].
  apply Qeq_bool_iff in E. contradiction.
Qed.

Lemma round_comp (x y : Q) : x == y -> round x == round y.
Proof.
  intros E. destruct (Qeq_dec x 0) as [Hx|Hx].
  - rewrite (round_zero x Hx), (round_zero y); [reflexivity|].
    now rewrite <- E.
  - assert (Hy : ~ y == 0) by now rewrite <- E.
    rewrite (round_nonzero x Hx), (round_nonzero y Hy).
    rewrite <- (exponent_comp x y Hx E).
    rewrite (rne_comp (x / pow2 (exponent x)) (y / pow2 (exponent x))).
    + reflexivity.
    + unfold Qdiv. apply Qmult_comp; [exact E | reflexivity].
Qed.

Lemma abs_pos (x : Q) : ~ x == 0 -> 0 < Qabs x.
Proof.
  intros Hx. pose proof (Qabs_nonneg x).
  destruct (Qeq_dec (Qabs x) 0) as [E0|E0]; [|lra].
  exfalso. apply Hx.
  pose proof (Qle_Qabs x). pose proof (Qle_Qabs (- x)).
  rewrite Qabs_opp in H1. lra.
Qed.

Lemma exponent_abs (x : Q) : exponent (Qabs x) = exponent x.
Proof.
  unfold exponent. destruct x as [n d]. unfold Qabs. cbn [Qnum Qden].
  now rewrite Z.abs_idemp.
Qed.

Lemma scaled_abs (x : Q) :
  ~ x == 0 -> Qabs (x / pow2 (exponent x)) < inject_Z (2 ^ 53).
Proof.
  intros Hx. unfold Qdiv. rewrite Qabs_Qmult.
  rewrite (Qabs_pos (/ pow2 (exponent x))).
  - rewrite <- exponent_abs. apply scaled_below. now apply abs_pos.
  - apply Qlt_le_weak, Qinv_lt_0_compat, pow2_pos.
Qed.

(** A binary64 number is an integer multiple of the power of two of its
    own exponent. *)
Lemma canonical (x : Q) :
  representable x -> ~ x == 0 ->
  exists M : Z, x == inject_Z M * pow2 (exponent x).
Proof.
  intros (m & e & Hm & He & E) Hx.
  assert (Hexp : (exponent x <= e)%Z).
  { unfold exponent.
    assert (Habs : Qabs x < pow2 (53 + e)).
    { rewrite E, Qabs_Qmult, (Qabs_pos (pow2 e))
        by apply Qlt_le_weak, pow2_pos.
      rewrite pow2_add. apply Qmult_lt_r; [apply pow2_pos|].
      rewrite pow2_nonneg by lia.
      assert (Ea : Qabs (inject_Z m) == inject_Z (Z.abs m)) by reflexivity.
      rewrite Ea. now rewrite <- Zlt_Qlt. }
    pose proof (ilog2_lt _ _ (abs_pos x Hx) Habs). lia. }
  exists (m * 2 ^ (e - exponent x))%Z.
  etransitivity; [exact E|].
  rewrite inject_Z_mult, (pow2_split e (exponent x) Hexp). ring.
Qed.

Lemma round_exact (x : Q) : representable x -> round x == x.
Proof.
  intros Hr. destruct (Qeq_dec x 0) as [Hx|Hx].
  - now rewrite round_zero, Hx.
  - destruct (canonical x Hr Hx) as [M E].
    rewrite (round_nonzero x Hx).
    assert (Ey : x / pow2 (exponent x) == inject_Z M).
    { rewrite E at 1. field. pose proof (pow2_pos (exponent x)). lra. }
    rewrite (rne_comp _ _ Ey), rne_int. now rewrite <- E.
Qed.

Lemma representable_0 : representable 0.
Proof.
  exists 0%Z, 0%Z. split; [reflexivity | split; [discriminate | reflexivity]].
Qed.

Lemma representable_int (n : Z) :
  (Z.abs n < 2 ^ 53)%Z -> representable (inject_Z n).
Proof.
  intros Hn. exists n, 0%Z. split; [exact Hn | split; [discriminate|]].
  change (pow2 0) with 1. ring.
Qed.

Lemma representable_comp (x y : Q) :
  x == y -> representable x -> representable y.
Proof.
  intros E (m & e & Hm & He & Ex). exists m, e.
  split; [exact Hm | split; [exact He | now rewrite <- E]].
Qed.

Lemma round_representable (x : Q) : representable (round x).
Proof.
  destruct (Qeq_dec x 0) as [Hx|Hx].
  - apply (representable_comp 0); [now rewrite round_zero|].
    apply representable_0.
  - rewrite (round_nonzero x Hx).
    set (E := exponent x). set (y := x / pow2 E).
    pose proof (scaled_abs x Hx) as Hy. fold E in Hy. fold y in Hy.
    apply Qabs_Qlt_condition in Hy. destruct Hy as [Hlo Hhi].
    assert (H1 : (rne y <= 2 ^ 53)%Z) by (apply rne_le; lra).
    assert (H2 : (- 2 ^ 53 <= rne y)%Z).
    { apply rne_ge. rewrite inject_Z_opp. lra. }
    destruct (Z.eq_dec (Z.abs (rne y)) (2 ^ 53)) as [Hc|Hc].
    + exists (rne y / 2)%Z, (E + 1)%Z. split; [|split].
      * assert (Hd : (rne y = 2 ^ 53 \/ rne y = - 2 ^ 53)%Z) by lia.
        destruct Hd as [Hd|Hd]; rewrite Hd; reflexivity.
      * pose proof (exponent_emin x). fold E in H. lia.
      * rewrite pow2_S.
        assert (Hd : (rne y = 2 * (rne y / 2))%Z).
        { assert (Hd : (rne y = 2 ^ 53 \/ rne y = - 2 ^ 53)%Z) by lia.
          destruct Hd as [Hd|Hd]; rewrite Hd; reflexivity. }
        rewrite Hd at 1. rewrite inject_Z_mult. change (inject_Z 2) with 2.
        ring.
    + exists (rne y), E.
      split; [lia | split; [apply exponent_emin | reflexivity]].
Qed.

(** Rounding moves a number by at most half a unit of its last place. *)
Lemma round_error (x : Q) :
  Qabs (round x - x) <= (1 # 2) * pow2 (exponent x).
Proof.
  pose proof (pow2_pos (exponent x)) as Hp.
  destruct (Qeq_dec x 0) as [Hx|Hx].
  - assert (E0 : round x - x == 0) by (rewrite (round_zero x Hx); lra).
    rewrite E0. change (Qabs 0) with 0.
    set (p := pow2 (exponent x)) in *. clearbody p. lra.
  - rewrite (round_nonzero x Hx).
    set (E := exponent x) in *. set (y := x / pow2 E).
    assert (Ex : x == y * pow2 E) by (unfold y; field; lra).
    rewrite Ex at 1.
    setoid_replace (inject_Z (rne y) * pow2 E - y * pow2 E)
      with ((inject_Z (rne y) - y) * pow2 E) by ring.
    rewrite Qabs_Qmult, (Qabs_pos (pow2 E)) by lra.
    pose proof (rne_error y) as He.
    apply Qmult_le_compat_r; lra.
Qed.

(** ** Rounding never crosses a binary64 number *)

(** Integers, for arguments below [2^53] in magnitude. *)
Lemma small_exponent (x : Q) :
  ~ x == 0 -> Qabs x < pow2 53 -> (exponent x <= 0)%Z.
Proof.
  intros Hx Hb. unfold exponent.
  pose proof (ilog2_lt _ _ (abs_pos x Hx) Hb). unfold emin. lia.
Qed.

Lemma int_scaled (n : Z) (E : Z) :
  (E <= 0)%Z -> inject_Z n == inject_Z (n * 2 ^ (- E)) * pow2 E.
Proof.
  intros HE. rewrite inject_Z_mult, <- pow2_nonneg by lia.
  rewrite <- Qmult_assoc, <- pow2_add.
  replace (- E + E)%Z with 0%Z by lia. change (pow2 0) with 1. ring.
Qed.

Lemma round_ge_int (n : Z) (x : Q) :
  Qabs x < pow2 53 -> inject_Z n <= x -> inject_Z n <= round x.
Proof.
  intros Hb Hn. destruct (Qeq_dec x 0) as [Hx|Hx].
  - rewrite (round_zero x Hx). now rewrite <- Hx.
  - rewrite (round_nonzero x Hx).
    pose proof (small_exponent x Hx Hb) as HE.
    set (E := exponent x) in *. pose proof (pow2_pos E) as Hp.
    rewrite (int_scaled n E HE) at 1.
    apply Qmult_le_compat_r; [|lra].
    rewrite <- Zle_Qle. apply rne_ge.
    apply Qle_shift_div_l; [exact Hp|]. now rewrite <- int_scaled.
Qed.

(** Positive binary64 numbers, for positive arguments. *)
Lemma round_le_representable (r x : Q) :
  representable r -> 0 < x -> x <= r -> round x <= r.
Proof.
  intros Hr Hx Hxr.
  assert (Hr0 : ~ r == 0) by lra. assert (Hx0 : ~ x == 0) by lra.
  destruct (canonical r Hr Hr0) as [M EM].
  rewrite (round_nonzero x Hx0).
  pose proof (ilog2_mono x r Hx Hxr) as Hlog.
  pose proof (exponent_pos x Hx) as Ex.
  pose proof (exponent_pos r ltac:(lra)) as Er.
  set (E := exponent x) in *. set (F := exponent r) in *.
  pose proof (pow2_pos E) as Hp.
  destruct (Z.eq_dec E F) as [Heq|Hne].
  - rewrite EM, <- Heq. apply Qmult_le_compat_r; [|lra].
    rewrite <- Zle_Qle. apply rne_le.
    apply Qle_shift_div_r; [exact Hp|]. rewrite Heq, <- EM. exact Hxr.
  - assert (Hlt : (ilog2 x < ilog2 r)%Z) by lia.
    assert (HF : (E + 53 <= ilog2 r)%Z) by lia.
    apply Qle_trans with (pow2 (E + 53)).
    + rewrite (Z.add_comm E 53), pow2_add.
      apply Qmult_le_compat_r; [|lra].
      rewrite (pow2_nonneg 53) by lia. rewrite <- Zle_Qle. apply rne_le.
      apply Qlt_le_weak. unfold E. now apply scaled_below.
    + apply Qle_trans with (pow2 (ilog2 r)); [now apply pow2_le|].
      apply ilog2_spec. lra.
Qed.

Lemma round_ge_representable (r x : Q) :
  representable r -> 0 < r -> r <= x -> r <= round x.
Proof.
  intros Hr Hr1 Hxr.
  assert (Hx : 0 < x) by lra.
  assert (Hr0 : ~ r == 0) by lra. assert (Hx0 : ~ x == 0) by lra.
  destruct (canonical r Hr Hr0) as [M EM].
  rewrite (round_nonzero x Hx0).
  pose proof (ilog2_mono r x Hr1 Hxr) as Hlog.
  pose proof (exponent_pos x Hx) as Ex.
  pose proof (exponent_pos r Hr1) as Er.
  set (E := exponent x) in *. set (F := exponent r) in *.
  pose proof (pow2_pos E) as Hp.
  destruct (Z.eq_dec E F) as [Heq|Hne].
  - rewrite EM at 1. rewrite <- Heq. apply Qmult_le_compat_r; [|lra].
    rewrite <- Zle_Qle. apply rne_ge.
    apply Qle_shift_div_l; [exact Hp|]. rewrite Heq, <- EM. exact Hxr.
  - assert (Hlt : (ilog2 r < ilog2 x)%Z) by lia.
    assert (HE : (emin < E)%Z) by lia.
    assert (HF : (ilog2 r + 1 <= E + 52)%Z) by lia.
    apply Qle_trans with (pow2 (E + 52)).
    + apply Qle_trans with (pow2 (ilog2 r + 1)); [|now apply pow2_le].
      apply Qlt_le_weak, ilog2_spec. exact Hr1.
    + rewrite (Z.add_comm E 52), pow2_add.
      apply Qmult_le_compat_r; [|lra].
      rewrite (pow2_nonneg 52) by lia. rewrite <- Zle_Qle. apply rne_ge.
      unfold E. apply scaled_above; assumption.
Qed.

(** ** Symmetry *)

Lemma Qfloor_unique (z : Z) (x : Q) :
  inject_Z z <= x -> x < inject_Z (z + 1) -> Qfloor x = z.
Proof.
  intros Hlo Hhi.
  pose proof (Qfloor_le x) as Hfl. pose proof (Qlt_floor x) as Hlt.
  assert (H1 : inject_Z z < inject_Z (Qfloor x + 1)) by lra.
  assert (H2 : inject_Z (Qfloor x) < inject_Z (z + 1)) by lra.
  rewrite <- Zlt_Qlt in H1, H2. lia.
Qed.

Lemma rne_opp (y : Q) : rne (- y) = (- rne y)%Z.
Proof.
  destruct (floor_bounds y) as [F1 F2]. set (f := Qfloor y) in *.
  destruct (Qeq_dec y (inject_Z f)) as [Ei|Ei].
  - (* an integer *)
    rewrite (rne_comp y (inject_Z f) Ei), rne_int.
    rewrite (rne_comp (- y) (inject_Z (- f))).
    + apply rne_int.
    + rewrite inject_Z_opp. now rewrite Ei.
  - assert (Fo : Qfloor (- y) = (- f - 1)%Z).
    { apply Qfloor_unique.
      - unfold Z.sub. rewrite inject_Z_plus, !inject_Z_opp.
        change (inject_Z 1) with 1. lra.
      - replace (- f - 1 + 1)%Z with (- f)%Z by lia.
        rewrite inject_Z_opp. lra. }
    unfold rne. rewrite Fo. fold f.
    assert (Eo : - y - inject_Z (- f - 1) == 1 - (y - inject_Z f)).
    { unfold Z.sub. rewrite inject_Z_plus, !inject_Z_opp.
      change (inject_Z 1) with 1. ring. }
    destruct (Qcompare_spec (y - inject_Z f) (1 # 2)) as [E|E|E];
      destruct (Qcompare_spec (- y - inject_Z (- f - 1)) (1 # 2))
        as [E'|E'|E']; rewrite Eo in E'; try lra; try lia.
    replace (- f - 1)%Z with (- (f + 1))%Z by lia.
    rewrite Z.even_opp, Z.even_add. cbn [Z.even].
    destruct (Z.even f); cbn; lia.
Qed.

Lemma round_opp (x : Q) : round (- x) == - round x.
Proof.
  destruct (Qeq_dec x 0) as [Hx|Hx].
  - rewrite (round_zero x Hx), (round_zero (- x)); [reflexivity|].
    now rewrite Hx.
  - assert (Hx' : ~ - x == 0) by (intros C; apply Hx; lra).
    rewrite (round_nonzero x Hx), (round_nonzero (- x) Hx').
    rewrite exponent_opp.
    rewrite (rne_comp (- x / pow2 (exponent x)) (- (x / pow2 (exponent x)))).
    + rewrite rne_opp, inject_Z_opp. ring.
    + field. pose proof (pow2_pos (exponent x)). lra.
Qed.

Lemma representable_opp (x : Q) : representable x -> representable (- x).
Proof.
  intros (m & e & Hm & He & E). exists (- m)%Z, e.
  split; [now rewrite Z.abs_opp | split; [exact He|]].
  rewrite inject_Z_opp, E. ring.
Qed.

Lemma round_nonneg (x : Q) : 0 <= x -> 0 <= round x.
Proof.
  intros Hx. destruct (Qeq_dec x 0) as [E|E].
  - now rewrite round_zero.
  - rewrite (round_nonzero x E). pose proof (pow2_pos (exponent x)) as Hp.
    apply Qmult_le_0_compat; [|lra].
    change 0 with (inject_Z 0). rewrite <- Zle_Qle. apply rne_ge.
    apply Qle_shift_div_l; [exact Hp|]. change (inject_Z 0) with 0. lra.
Qed.

Lemma round_nonpos (x : Q) : x <= 0 -> round x <= 0.
Proof.
  intros Hx. pose proof (round_nonneg (- x) ltac:(lra)) as H.
  rewrite round_opp in H. lra.
Qed.

(** Rounding never crosses a binary64 number. *)
Lemma round_le (r x : Q) : representable r -> x <= r -> round x <= r.
Proof.
  intros Hr Hxr. destruct (Qlt_le_dec 0 x) as [Hx|Hx].
  - now apply round_le_representable.
  - destruct (Qlt_le_dec r 0) as [Hr0|Hr0].
    + pose proof (round_ge_representable (- r) (- x)
                    (representable_opp r Hr) ltac:(lra) ltac:(lra)) as H.
      rewrite round_opp in H. lra.
    + pose proof (round_nonpos x Hx). lra.
Qed.

Lemma round_ge (r x : Q) : representable r -> r <= x -> r <= round x.
Proof.
  intros Hr Hxr.
  pose proof (round_le (- r) (- x) (representable_opp r Hr) ltac:(lra)) as H.
  rewrite round_opp in H. lra.
Qed.

(** Subtracting a smaller non-negative integer from a binary64 number below
    [2^53] is exact. *)
Lemma sub_int_representable (x : Q) (n : Z) :
  representable x -> (0 <= n)%Z -> inject_Z n <= x -> x < pow2 53 ->
  representable (x - inject_Z n).
Proof.
  intros Hr Hn Hnx Hb.
  assert (Hx0 : 0 <= x).
  { apply Qle_trans with (inject_Z n); [|exact Hnx].
    change 0 with (inject_Z 0). now rewrite <- Zle_Qle. }
  destruct (Qeq_dec x 0) as [Hx|Hx].
  - apply (representable_comp 0); [|apply representable_0].
    assert (inject_Z n <= 0) by lra.
    assert (0 <= inject_Z n).
    { change 0 with (inject_Z 0). now rewrite <- Zle_Qle. }
    lra.
  - assert (Hpos : 0 < x) by lra.
    destruct (canonical x Hr Hx) as [M EM].
    assert (HE : (exponent x <= 0)%Z).
    { apply small_exponent; [exact Hx|]. rewrite Qabs_pos; lra. }
    pose proof (scaled_below x Hpos) as HM.
    pose proof (exponent_emin x) as Hemin.
    set (E := exponent x) in *. pose proof (pow2_pos E) as Hp.
    assert (EM' : x / pow2 E == inject_Z M).
    { rewrite EM at 1. field. lra. }
    rewrite EM' in HM. rewrite <- Zlt_Qlt in HM.
    exists (M - n * 2 ^ (- E))%Z, E.
    split; [|split; [exact Hemin|]].
    + assert (Hge : (n * 2 ^ (- E) <= M)%Z).
      { rewrite Zle_Qle, <- EM'. apply Qle_shift_div_l; [exact Hp|].
        now rewrite <- int_scaled. }
      assert (0 <= n * 2 ^ (- E))%Z by (apply Z.mul_nonneg_nonneg; lia).
      lia.
    + unfold Zminus. rewrite inject_Z_plus, inject_Z_opp.
      rewrite (int_scaled n E HE) at 1. rewrite EM at 1. ring.
Qed.

Lemma pow2_53 : pow2 53 == 9007199254740992.
Proof. reflexivity. Qed.

Lemma sub_10 (f : Q) :
  representable f -> 10 <= f -> f <= 120 ->
  Binary64.sub f 10 == f - 10 /\ representable (f - 10).
Proof.
  intros Hr Hlo Hhi.
  assert (R : representable (f - 10)).
  { apply (sub_int_representable f 10 Hr); [lia | exact Hlo |].
    rewrite pow2_53. lra. }
  split; [|exact R]. unfold Binary64.sub. now apply round_exact.
Qed.

Lemma representable_10 : representable 10.
Proof. now apply (representable_int 10). Qed.
Lemma representable_20 : representable 20.
Proof. now apply (representable_int 20). Qed.
Lemma representable_110 : representable 110.
Proof. now apply (representable_int 110). Qed.
Lemma representable_120 : representable 120.
Proof. now apply (representable_int 120). Qed.

Lemma representable_max (a b : Q) :
  representable a -> representable b -> representable (Qmax a b).
Proof.
  intros Ha Hb. destruct (Q.max_spec a b) as [[_ E]|[_ E]];
    apply (representable_comp _ _ (Qeq_sym _ _ E)); assumption.
Qed.

Lemma representable_min (a b : Q) :
  representable a -> representable b -> representable (Qmin a b).
Proof.
  intros Ha Hb. destruct (Q.min_spec a b) as [[_ E]|[_ E]];
    apply (representable_comp _ _ (Qeq_sym _ _ E)); assumption.
Qed.

(** What the sum [f + 10] becomes. *)
Lemma add_10 (f : Q) :
  10 <= f -> f <= 120 ->
  let r := Binary64.add f 10 in
  representable r /\ 20 <= r /\ r <= 130 /\
  (f + 10 <= 120 -> r <= 120) /\
  (120 <= f + 10 -> 120 <= r) /\
  (f + 10 < 128 -> Qabs (r - (f + 10)) <= 1 # 2 ^ 47) /\
  (representable (f + 10) -> r == f + 10).
Proof.
  intros Hlo Hhi r. unfold r, Binary64.add.
  split; [apply round_representable|].
  split; [apply round_ge; [apply representable_20 | lra]|].
  split; [apply round_le; [now apply (representable_int 130) | lra]|].
  split; [intros; apply round_le; [apply representable_120 | assumption]|].
  split; [intros; apply round_ge; [apply representable_120 | assumption]|].
  split; [|apply round_exact].
  intros H128. eapply Qle_trans; [apply round_error|].
  assert (HE : (exponent (f + 10) <= -46)%Z).
  { apply (exponent_below (f + 10) 6); [lra | | unfold emin; lia].
    change (pow2 (6 + 1)) with 128. exact H128. }
  apply Qle_trans with ((1 # 2) * pow2 (-46)).
  - apply Qmult_le_l; [reflexivity | now apply pow2_le].
  - apply Qle_refl.
Qed.

End Rounding.

Section Binary64Camera.
Context `{Math.Trig}.
Variable V : Type.
Implicit Types (s : Component V).

Lemma zoomIn_camera64 s (camera : PerspectiveCamera.t) :
  cameraRef s = Some camera ->
  exists camera',
    cameraRef (Binary64.zoomIn s) = Some camera' /\
    PerspectiveCamera.fov camera'
    = Math.max 10 (Binary64.sub (PerspectiveCamera.fov camera) 10).
Proof.
  intros Hc. unfold Binary64.zoomIn. rewrite cameraRef_with_camera, Hc. cbn.
  eexists. split; reflexivity.
Qed.

Lemma zoomOut_camera64 s (camera : PerspectiveCamera.t) :
  cameraRef s = Some camera ->
  exists camera',
    cameraRef (Binary64.zoomOut s) = Some camera' /\
    PerspectiveCamera.fov camera'
    = Math.min 120 (Binary64.add (PerspectiveCamera.fov camera) 10).
Proof.
  intros Hc. unfold Binary64.zoomOut. rewrite cameraRef_with_camera, Hc. cbn.
  eexists. split; reflexivity.
Qed.

Lemma handleWheel_camera64 (event : WheelEvent) s
    (camera : PerspectiveCamera.t) :
  cameraRef s = Some camera ->
  exists camera',
    cameraRef (Binary64.handleWheel event s) = Some camera' /\
    PerspectiveCamera.fov camera'
    = Math.max 10
        (Math.min 120
           (Binary64.add (PerspectiveCamera.fov camera)
                  (Binary64.mul (deltaY event) (Binary64.literal 0.05)))).
Proof.
  intros Hc. unfold Binary64.handleWheel.
  rewrite cameraRef_with_camera, Hc. cbn.
  eexists. split; reflexivity.
Qed.

End Binary64Camera.

(** [Binary64.round] and the floating-point numbers of the kernel agree on
    the samples, and on them zoom-out followed by zoom-in misses the field
    of view it started from. *)
Example round_agrees_with_kernel_floats :
  forallb (fun sample => KernelFloat.has_value (fst sample) (snd sample))
          KernelFloat.samples
  = true /\
  PrimFloat.eqb KernelFloat.fov_zoomed KernelFloat.fov_wheeled = false.
Proof. split; vm_compute; reflexivity. Qed.

(** C7, on binary64 numbers.  From a binary64 field of view [f] in
    [10, 120]: zoom-in followed by zoom-out gives [f] back exactly when the
    zoom-in was not clamped at 10, and ends at 20 when it was.  Zoom-out
    followed by zoom-in, when the zoom-out was not clamped at 120, gives a
    binary64 number within 2^-47 of [f], the sum [f + 10] being rounded,
    and [f] itself when [f + 10] is a binary64 number; when the zoom-out
    was clamped it ends at 110. *)
Theorem zoom_round_trip `{Math.Trig} (V : Type) (s : Component V)
    (camera : PerspectiveCamera.t) :
  cameraRef s = Some camera ->
  fov_in_range camera ->
  Binary64.representable (PerspectiveCamera.fov camera) ->
  let f := PerspectiveCamera.fov camera in
  let ends_at (v : number) (s' : Component V) :=
    camera_has (fun camera' => PerspectiveCamera.fov camera' == v) s' in
  (10 <= f - 10 -> ends_at f (Binary64.zoomOut (Binary64.zoomIn s))) /\
  (f - 10 < 10 -> ends_at 20 (Binary64.zoomOut (Binary64.zoomIn s))) /\
  (f + 10 <= 120 ->
   camera_has (within_rounding f) (Binary64.zoomIn (Binary64.zoomOut s))) /\
  (f + 10 <= 120 -> Binary64.representable (f + 10) ->
   ends_at f (Binary64.zoomIn (Binary64.zoomOut s))) /\
  (120 < f + 10 -> ends_at 110 (Binary64.zoomIn (Binary64.zoomOut s))).
Proof.
  intros Hc [Hlo Hhi] Hr f ends_at. subst ends_at. fold f in Hlo, Hhi, Hr.
  destruct (zoomIn_camera64 V s camera Hc) as (ci & Hci & Fi).
  destruct (zoomOut_camera64 V _ ci Hci) as (cio & Hcio & Fio).
  destruct (zoomOut_camera64 V s camera Hc) as (co & Hco & Fo).
  destruct (zoomIn_camera64 V _ co Hco) as (coi & Hcoi & Foi).
  fold f in Fi, Fo. rewrite Fi in Fio. rewrite Fo in Foi.
  clear Fi Fo Hci Hco ci co.
  destruct (sub_10 f Hr Hlo Hhi) as [Esub Rsub].
  destruct (add_10 f Hlo Hhi) as (Radd & A20 & A130 & Ale & Age & Aerr & Aex).
  unfold Math.max, Math.min in *.
  assert (Back : forall r : Q,
             Binary64.representable r -> 20 <= r -> r <= 120 ->
             Qmax 10 (Binary64.sub r 10) == r - 10).
  { intros r Rr r20 r120.
    destruct (sub_10 r Rr ltac:(lra) r120) as [E _].
    rewrite E. apply Q.max_r. lra. }
  split; [|split; [|split; [|split]]].
  - intros Hstep. exists cio. split; [exact Hcio|]. rewrite Fio.
    assert (E1 : Qmax 10 (Binary64.sub f 10) == f - 10).
    { rewrite Esub. apply Q.max_r. exact Hstep. }
    assert (E2 : Binary64.add (Qmax 10 (Binary64.sub f 10)) 10 == f).
    { unfold Binary64.add. rewrite <- (round_exact f Hr) at 2.
      apply round_comp. rewrite E1. ring. }
    rewrite E2. apply Q.min_r. exact Hhi.
  - intros Hstep. exists cio. split; [exact Hcio|]. rewrite Fio.
    assert (E1 : Qmax 10 (Binary64.sub f 10) == 10).
    { rewrite Esub. apply Q.max_l. lra. }
    assert (E2 : Binary64.add (Qmax 10 (Binary64.sub f 10)) 10 == 20).
    { unfold Binary64.add. rewrite <- (round_exact 20 representable_20).
      apply round_comp. rewrite E1. reflexivity. }
    rewrite E2. reflexivity.
  - intros Hstep. exists coi. split; [exact Hcoi|].
    unfold within_rounding. rewrite Foi.
    assert (E1 : Qmin 120 (Binary64.add f 10) == Binary64.add f 10).
    { apply Q.min_r. now apply Ale. }
    assert (E2 : Qmax 10 (Binary64.sub (Qmin 120 (Binary64.add f 10)) 10)
                 == Binary64.add f 10 - 10).
    { rewrite <- (Back (Binary64.add f 10) Radd A20 (Ale Hstep)).
      apply Q.max_compat; [reflexivity|].
      unfold Binary64.sub. apply round_comp. now rewrite E1. }
    split.
    + apply representable_max; [apply representable_10|].
      apply round_representable.
    + rewrite E2.
      setoid_replace (Binary64.add f 10 - 10 - f)
        with (Binary64.add f 10 - (f + 10)) by ring.
      apply Aerr. lra.
  - intros Hstep Hex. exists coi. split; [exact Hcoi|]. rewrite Foi.
    assert (E1 : Qmin 120 (Binary64.add f 10) == f + 10).
    { rewrite (Aex Hex). apply Q.min_r. exact Hstep. }
    assert (E2 : Binary64.sub (Qmin 120 (Binary64.add f 10)) 10 == f).
    { unfold Binary64.sub. rewrite <- (round_exact f Hr) at 2.
      apply round_comp. rewrite E1. ring. }
    rewrite E2. apply Q.max_r. exact Hlo.
  - intros Hstep. exists coi. split; [exact Hcoi|]. rewrite Foi.
    assert (E1 : Qmin 120 (Binary64.add f 10) == 120).
    { apply Q.min_l. apply Age. lra. }
    assert (E2 : Binary64.sub (Qmin 120 (Binary64.add f 10)) 10 == 110).
    { unfold Binary64.sub. rewrite <- (round_exact 110 representable_110).
      apply round_comp. rewrite E1. reflexivity. }
    rewrite E2. reflexivity.
Qed.

Lemma representable_75 : Binary64.representable 75.
Proof. now apply (representable_int 75). Qed.

Lemma zoom_round_trip_witness :
  camera_has (fun camera' => PerspectiveCamera.fov camera' == 75)
    (Binary64.zoomOut (H := series_tan)
       (Binary64.zoomIn (H := series_tan) mountedA)) /\
  camera_has (fun camera' => PerspectiveCamera.fov camera' == 75)
    (Binary64.zoomIn (H := series_tan)
       (Binary64.zoomOut (H := series_tan) mountedA)).
Proof.
  destruct (zoom_round_trip (H := series_tan) _ mountedA camera0
              mountedA_camera camera0_fov representable_75)
    as (Hio & _ & _ & Hoi & _).
  split; [apply Hio | apply Hoi]; try discriminate.
  now apply (representable_int 85).
Defined.

(** C7 does not hold as stated.  One wheel event of deltaY -303 takes the
    field of view from 75 to the binary64 number next to 59.85,
    8423138678066381 / 2^47.  The sum of it and 10 is no binary64 number
    and rounds to even; zoom-out followed by zoom-in, neither clamped,
    ends one unit of the last place below, at 8423138678066380 / 2^47. *)
Lemma zoom_out_in_misses :
  exists camera,
    cameraRef wheeled = Some camera /\
    fov_in_range camera /\
    Binary64.representable (PerspectiveCamera.fov camera) /\
    PerspectiveCamera.fov camera + 10 <= 120 /\
    ~ camera_has
        (fun camera' =>
           PerspectiveCamera.fov camera' == PerspectiveCamera.fov camera)
        (Binary64.zoomIn (H := series_tan)
           (Binary64.zoomOut (H := series_tan) wheeled)).
Proof.
  eexists. split; [vm_compute; reflexivity|].
  split; [split; discriminate|].
  split; [exists 8423138678066381%Z, (-47)%Z;
          split; [reflexivity | split; [discriminate | reflexivity]]|].
  split; [discriminate|].
  intros (camera' & Hc & E). vm_compute in Hc. injection Hc as <-.
  vm_compute in E. discriminate E.
Qed.

(** C8.  Whatever the camera's yaw, pitch and field of view were, the reset
    operation leaves yaw = 0, pitch = 0 and field of view = 75. *)
Theorem resetView_resets `{Math.Trig} (V : Type) (s : Component V)
    (camera : PerspectiveCamera.t) :
  cameraRef s = Some camera ->
  exists camera',
    cameraRef (resetView s) = Some camera' /\
    yaw camera' = 0 /\ pitch camera' = 0 /\
    PerspectiveCamera.fov camera' = 75.
Proof.
  intros Hc. unfold resetView. rewrite cameraRef_with_camera, Hc. cbn.
  eexists. split; [reflexivity|]. repeat split.
Qed.

Lemma resetView_resets_witness :
  exists camera',
    cameraRef (resetView (H := series_tan)
                 (VariantA.dispatch (H := series_tan)
                    (Wheel {| deltaY := 300 |}) mountedA))
    = Some camera' /\
    yaw camera' = 0 /\ pitch camera' = 0 /\
    PerspectiveCamera.fov camera' = 75.
Proof.
  eapply (resetView_resets (H := series_tan)). reflexivity.
Defined.

(** C10.  The wheel handler, zoom-in and zoom-out change nothing but the
    camera's field of view and the projection matrix recomputed from it: in
    particular the yaw and the pitch of the camera are what they were. *)
Theorem zoom_keeps_orientation `{Math.Trig} (V : Type) (s : Component V)
    (event : WheelEvent) (camera : PerspectiveCamera.t) :
  cameraRef s = Some camera ->
  let unchanged (s' : Component V) :=
    zoom_only s s' /\
    camera_has (fun camera' => yaw camera' = yaw camera /\
                               pitch camera' = pitch camera) s' in
  unchanged (handleWheel event s) /\
  unchanged (zoomIn s) /\
  unchanged (zoomOut s).
Proof.
  intros Hc unchanged. subst unchanged. cbn beta.
  assert (Hstart : camera_has (fun camera' => yaw camera' = yaw camera /\
                                              pitch camera' = pitch camera) s)
    by (exists camera; repeat split; exact Hc).
  split; [|split];
    (split;
     [ apply zoom_only_with_camera; intros c; repeat split
     | revert Hstart; apply camera_has_with_camera; intros c H0; exact H0 ]).
Qed.

Lemma zoom_keeps_orientation_witness :
  camera_has (fun camera' => yaw camera' = yaw camera0 /\
                             pitch camera' = pitch camera0)
             (handleWheel (H := series_tan) {| deltaY := 120 |} mountedB).
Proof.
  apply (zoom_keeps_orientation (H := series_tan) _ mountedB
           {| deltaY := 120 |} camera0 mountedB_camera).
Defined.

(* ================================================================= *)
(** * Texture load *)

(** C9.  The failure continuation clears the loading flag and leaves the
    scene and the sphere ref as they were, so no sphere is installed; the
    success continuation adds a sphere carrying the texture to the scene,
    stores it in the sphere ref and clears the loading flag. *)
Theorem load_continuations (V : Type) (s : Component V) :
  (forall error : string,
     let s' := onError error s in
     isLoading s' = false /\
     sceneRef s' = sceneRef s /\
     sphereRef s' = sphereRef s) /\
  (forall (texture : Texture) (scene : Scene.t),
     sceneRef s = Some scene ->
     let s' := onLoad texture s in
     exists sphere,
       map (material sphere) = texture /\
       sceneRef s' = Some (Scene.add sphere scene) /\
       In sphere (Scene.children (Scene.add sphere scene)) /\
       sphereRef s' = Some sphere /\
       isLoading s' = false).
Proof.
  split.
  - intros error s'. subst s'. repeat split.
  - intros texture scene Hscene s'. subst s'.
    unfold onLoad, scene_add. rewrite Hscene. cbn.
    eexists. split; [|split; [reflexivity|]].
    + reflexivity.
    + split; [|split; reflexivity].
      apply in_or_app. right. now left.
Qed.

Lemma load_continuations_witness :
  (let s' := onError "404" mountedA in
   isLoading s' = false /\
   sceneRef s' = Some (Scene.mk []) /\
   sphereRef s' = None) /\
  (let s' := onLoad {| image := "panorama.jpg" |} mountedA in
   exists sphere,
     map (material sphere) = {| image := "panorama.jpg" |} /\
     sceneRef s' = Some (Scene.add sphere (Scene.mk [])) /\
     In sphere (Scene.children (Scene.add sphere (Scene.mk []))) /\
     sphereRef s' = Some sphere /\
     isLoading s' = false).
Proof.
  destruct (load_continuations _ mountedA) as [Hfail Hok]. split.
  - exact (Hfail "404"%string).
  - exact (Hok {| image := "panorama.jpg" |} (Scene.mk []) eq_refl).
Defined.

(* ================================================================= *)
(** * Spherical-to-percentage mapping (variant B) *)

Lemma js_rem_small (a b : number) :
  0 <= a -> a < b -> js_rem a b == a.
Proof.
  intros Ha Hab. unfold js_rem.
  assert (Hb : 0 < b) by lra.
  assert (Hq0 : 0 <= a / b) by (apply Qle_shift_div_l; lra).
  assert (Hq1 : a / b < 1) by (apply Qlt_shift_div_r; lra).
  set (q := a / b) in *. clearbody q.
  assert (Hz : Z.quot (Qnum q) (Zpos (Qden q)) = 0%Z).
  { apply Z.quot_small. unfold Qle, Qlt in Hq0, Hq1. cbn in Hq0, Hq1. lia. }
  rewrite Hz. ring.
Qed.

(** Longitudes of [-180, 180) map linearly onto [0, 100). *)
Lemma left_of_longitude (longitude latitude : number) :
  -180 <= longitude -> longitude < 180 ->
  let left := VariantB.Style.left
                (VariantB.getScreenPosition longitude latitude) in
  left == (longitude + 180) / 360 * 100 /\ 0 <= left /\ left < 100.
Proof.
  intros Hlo Hhi left. subst left. cbn.
  assert (E : js_rem (longitude + 180) 360 == longitude + 180)
    by (apply js_rem_small; lra).
  rewrite E. split; [reflexivity|].
  assert (Hq0 : 0 <= (longitude + 180) / 360)
    by (apply Qle_shift_div_l; lra).
  assert (Hq1 : (longitude + 180) / 360 < 1)
    by (apply Qlt_shift_div_r; lra).
  split; lra.
Qed.

(** Latitudes map linearly: 90 at the top, -90 at the bottom. *)
Lemma top_of_latitude (longitude latitude : number) :
  VariantB.Style.top (VariantB.getScreenPosition longitude latitude)
  == (90 - latitude) / 180 * 100.
Proof. reflexivity. Qed.

(** C1.  The style of a hotspot marker is a function of the first two
    position components alone: two renders in any two component states,
    hence with any two cameras, give a hotspot of the same longitude and
    latitude the same style, and give the same list of markers. *)
Theorem marker_ignores_camera (s1 s2 : VariantB.State) (h1 h2 : Hotspot)
    (longitude latitude z1 z2 : number) :
  position h1 = (longitude, latitude, z1) ->
  position h2 = (longitude, latitude, z2) ->
  snd (VariantB.marker s1 h1) = snd (VariantB.marker s2 h2) /\
  snd (VariantB.marker s1 h1) = VariantB.getScreenPosition longitude latitude /\
  VariantB.hotspotMarkers s1 = VariantB.hotspotMarkers s2.
Proof.
  intros E1 E2. unfold VariantB.marker. rewrite E1, E2. cbn.
  repeat split.
Qed.

Lemma marker_ignores_camera_witness :
  snd (VariantB.marker mountedB (nth 0 VariantB.hotspots (no_hotspot)))
  = snd (VariantB.marker
           (last (VariantB.trace (H := series_tan)
                    (drag_far ++ scroll_far) mountedB) mountedB)
           (nth 0 VariantB.hotspots no_hotspot)).
Proof.
  exact (proj1 (marker_ignores_camera mountedB _
                  (nth 0 VariantB.hotspots no_hotspot)
                  (nth 0 VariantB.hotspots no_hotspot)
                  45 (-5) (-8) (-8) eq_refl eq_refl)).
Defined.

(** C4, as the code has it.  Longitude -180 maps to 0% and, through the
    remainder by 360, so does longitude 180; latitude 90 maps to 0% and
    latitude -90 to 100%. *)
Theorem spherical_endpoints (longitude latitude : number) :
  VariantB.Style.left (VariantB.getScreenPosition (-180) latitude) == 0 /\
  VariantB.Style.left (VariantB.getScreenPosition 180 latitude) == 0 /\
  VariantB.Style.top (VariantB.getScreenPosition longitude 90) == 0 /\
  VariantB.Style.top (VariantB.getScreenPosition longitude (-90)) == 100.
Proof. repeat split. Qed.

(** C4 does not hold as stated: at longitude 180 the horizontal percentage
    is 0, a full 100 points away from 100. *)
Lemma longitude_180_is_not_100 :
  VariantB.Style.left (VariantB.getScreenPosition 180 0) == 0 /\
  ~ (VariantB.Style.left (VariantB.getScreenPosition 180 0) == 100) /\
  ~ (50 <= VariantB.Style.left (VariantB.getScreenPosition 180 0)).
Proof.
  split; [reflexivity|]. split.
  - intros Habs. unfold Qeq in Habs. vm_compute in Habs. discriminate Habs.
  - intros Habs. apply Habs. reflexivity.
Qed.

(* ================================================================= *)
(** * Perspective projection (variant A) *)

Lemma ltb_lt (a b : number) : ltb a b = true <-> a < b.
Proof.
  unfold ltb. rewrite negb_true_iff. split.
  - intros Hb. apply Qnot_le_lt. intros Hle.
    apply Qle_bool_iff in Hle. congruence.
  - intros Hlt. destruct (Qle_bool b a) eqn:Hb; [|reflexivity].
    apply Qle_bool_iff in Hb. lra.
Qed.

Lemma ltb_ge (a b : number) : ltb a b = false <-> b <= a.
Proof.
  unfold ltb. rewrite negb_false_iff. apply Qle_bool_iff.
Qed.

Lemma div_neg_iff (N D : Q) : 0 < D -> (N / D < 0 <-> N < 0).
Proof.
  intros HD. split; intros HN.
  - assert (E : N == N / D * D) by (field; lra).
    rewrite E. setoid_replace 0 with (0 * D) by ring.
    apply Qmult_lt_compat_r; assumption.
  - apply Qlt_shift_div_r; lra.
Qed.

(** The depth the perspective matrix gives a point of the camera frame. *)
Lemma perspective_depth (x y n f z : Q) :
  0 < n -> n < f -> ~ z == 0 ->
  (0 * x + 0 * y + - ((f + n) / (f - n)) * z + - (2 * f * n / (f - n)))
  * (1 / (0 * x + 0 * y + -(1) * z + 0))
  == 1 + 2 * n * (z + f) / ((f - n) * z).
Proof. intros Hn Hf Hz. field. split; lra. Qed.

Lemma depth_behind (n f z : Q) :
  0 < n -> n < f -> 0 < z -> 1 < 1 + 2 * n * (z + f) / ((f - n) * z).
Proof.
  intros Hn Hf Hz.
  assert (0 < 2 * n * (z + f) / ((f - n) * z))
    by (apply Qlt_shift_div_l; nra).
  lra.
Qed.

Lemma depth_in_front (n f d : Q) :
  0 < n -> n < f -> 0 < d ->
  (1 + 2 * n * (- d + f) / ((f - n) * - d) < 1 <-> d < f).
Proof.
  intros Hn Hf Hd.
  assert (E : 1 + 2 * n * (- d + f) / ((f - n) * - d)
              == 1 + (2 * n * (d - f)) / ((f - n) * d))
    by (field; split; lra).
  rewrite E.
  assert (HD : 0 < (f - n) * d) by nra.
  pose proof (div_neg_iff (2 * n * (d - f)) _ HD) as Hiff.
  split; intros Hlt.
  - assert (Hneg : 2 * n * (d - f) / ((f - n) * d) < 0) by lra.
    apply Hiff in Hneg. nra.
  - assert (Hneg : 2 * n * (d - f) < 0) by nra.
    apply Hiff in Hneg. lra.
Qed.

(** A point off the camera's own plane goes through the perspective matrix
    without meeting the zero divisor. *)
Lemma applyMatrix4_perspective (l r t b n f : number) (v : Vector3.t) :
  ~ Vector3.z v == 0 ->
  let m := Matrix4.makePerspective l r t b n f in
  let x := Vector3.x v in
  let y := Vector3.y v in
  let z := Vector3.z v in
  let w := 1 / (0 * x + 0 * y + -(1) * z + 0) in
  applyMatrix4 m v =
  Some (Vector3.mk
          ((2 * n / (r - l) * x + 0 * y + (r + l) / (r - l) * z + 0) * w)
          ((0 * x + 2 * n / (t - b) * y + (t + b) / (t - b) * z + 0) * w)
          ((0 * x + 0 * y + - ((f + n) / (f - n)) * z
            + - (2 * f * n / (f - n))) * w)).
Proof.
  intros Hz m x y z w. unfold applyMatrix4. cbn.
  destruct (Qeq_bool _ 0) eqn:Hd; [|reflexivity].
  apply Qeq_bool_eq in Hd. exfalso. apply Hz. lra.
Qed.

Section Projection.
Context `{Math.Trig}.

Lemma frustum_is_perspective (camera : PerspectiveCamera.t) :
  exists l r t b,
    PerspectiveCamera.frustum camera =
      Matrix4.makePerspective l r t b (PerspectiveCamera.near camera)
                              (PerspectiveCamera.far camera) /\
    r + l == 0 /\ t + b == 0 /\
    r - l == 2 * (PerspectiveCamera.aspect camera
                  * (PerspectiveCamera.near camera
                     * Math.tan (PerspectiveCamera.DEG2RAD * 0.5
                                 * PerspectiveCamera.fov camera))) /\
    t - b == 2 * (PerspectiveCamera.near camera
                  * Math.tan (PerspectiveCamera.DEG2RAD * 0.5
                              * PerspectiveCamera.fov camera)).
Proof.
  unfold PerspectiveCamera.frustum. do 4 eexists.
  split; [reflexivity|]. repeat split; ring.
Qed.

(** C5.  A point strictly behind the camera is projected to an anchor whose
    [visible] flag is false. *)
Theorem behind_camera_not_visible (window : Window)
    (camera : PerspectiveCamera.t) (p : Position) :
  projection_current camera ->
  depth_range camera ->
  behind_camera camera p ->
  exists anchor,
    VariantA.projectToScreen window p camera = Some anchor /\
    VariantA.Anchor.visible anchor = false.
Proof.
  intros Hproj [Hn Hf] (v & Hv & Hz).
  destruct (frustum_is_perspective camera) as (l & r & t & b & Hm & _).
  unfold VariantA.projectToScreen, project.
  destruct p as [[px py] pz]. unfold viewSpace in Hv. rewrite Hv.
  rewrite Hproj, Hm.
  rewrite applyMatrix4_perspective by lra.
  eexists. split; [reflexivity|]. cbn [VariantA.Anchor.visible Vector3.z].
  apply ltb_ge. rewrite perspective_depth by lra.
  apply Qlt_le_weak, depth_behind; assumption.
Qed.

(** The forward axis.  A point on the camera's forward axis is projected
    to the centre of the canvas, and its [visible] flag is true exactly
    when the point is nearer than the far distance of the camera: the test
    [vector.z < 1] of the code, commented "Check if in front of camera",
    is the test against the far plane of the frustum. *)
Theorem forward_axis_projects_to_centre (window : Window)
    (camera : PerspectiveCamera.t) (p : Position) (d : number) :
  projection_current camera ->
  depth_range camera ->
  opening camera ->
  on_forward_axis camera p d ->
  exists anchor,
    VariantA.projectToScreen window p camera = Some anchor /\
    VariantA.Anchor.x anchor == innerWidth window / 2 /\
    VariantA.Anchor.y anchor == innerHeight window / 2 /\
    (VariantA.Anchor.visible anchor = true
     <-> d < PerspectiveCamera.far camera).
Proof.
  intros Hproj [Hn Hf] [Ha Ht] (v & Hv & Hx & Hy & Hz & Hd).
  destruct (frustum_is_perspective camera)
    as (l & r & t & b & Hm & Hrl & Htb & Hw & Hh).
  unfold VariantA.projectToScreen, project.
  destruct p as [[px py] pz]. unfold viewSpace in Hv. rewrite Hv.
  rewrite Hproj, Hm.
  rewrite applyMatrix4_perspective by lra.
  eexists. split; [reflexivity|].
  cbn [VariantA.Anchor.visible VariantA.Anchor.x VariantA.Anchor.y
       Vector3.x Vector3.y Vector3.z].
  pose proof (Qmult_lt_0_compat _ _ Hn Ht) as Hnt.
  pose proof (Qmult_lt_0_compat _ _ Ha Hnt) as Hant.
  assert (Hrl0 : ~ r - l == 0) by (rewrite Hw; lra).
  assert (Htb0 : ~ t - b == 0) by (rewrite Hh; lra).
  assert (Ea : (r + l) / (r - l) == 0) by (rewrite Hrl; now field).
  assert (Eb : (t + b) / (t - b) == 0) by (rewrite Htb; now field).
  split; [|split].
  - rewrite Hx, Ea. field. lra.
  - rewrite Hy, Eb. field. lra.
  - rewrite ltb_lt, perspective_depth by lra.
    rewrite Hz. now apply depth_in_front.
Qed.

End Projection.

Lemma camera0_ready : ready (H := series_tan) camera0.
Proof. repeat split. Qed.

Lemma camera0_opening : opening (H := series_tan) camera0.
Proof. split; reflexivity. Qed.

Lemma behind_camera_not_visible_witness :
  exists anchor,
    VariantA.projectToScreen window_1920x1080 (-100, -20, 200) camera0
    = Some anchor /\
    VariantA.Anchor.visible anchor = false.
Proof.
  apply (behind_camera_not_visible (H := series_tan)).
  - apply camera0_ready.
  - apply camera0_ready.
  - eexists. split; [vm_compute; reflexivity | reflexivity].
Defined.

Lemma forward_axis_projects_to_centre_witness :
  exists anchor,
    VariantA.projectToScreen window_1920x1080 (0, 0, -200) camera0
    = Some anchor /\
    VariantA.Anchor.x anchor == 1920 / 2 /\
    VariantA.Anchor.y anchor == 1080 / 2 /\
    (VariantA.Anchor.visible anchor = true <-> 200 < 1000).
Proof.
  apply (forward_axis_projects_to_centre (H := series_tan)
           window_1920x1080 camera0 (0, 0, -200) 200).
  - apply camera0_ready.
  - apply camera0_ready.
  - apply camera0_opening.
  - eexists. split; [vm_compute; reflexivity|]. repeat split.
Defined.


(** The first frame of variant A, camera as constructed: the two hotspots
    placed in front of the camera are flagged visible, the two placed
    behind it are not. *)
Example first_frame_visibility :
  List.map
    (fun entry => (fst entry, option_map VariantA.Anchor.visible (snd entry)))
    (variantState (VariantA.updateHotspotPositions window_1920x1080 mountedA))
  = [ ("jersey-display"%string, Some true);
      ("trophy-case"%string, Some true);
      ("basketball-collection"%string, Some false);
      ("poster-gallery"%string, Some false) ].
Proof. vm_compute. reflexivity. Qed.

(* ================================================================= *)
(** * The cameras the components reach

    The hypotheses of the projection theorems hold of the camera in every
    state reached from the mount: the handlers recompute the projection
    matrix whenever they change the field of view, and nothing else the
    matrix depends on changes. *)

Lemma set_rotation_same (camera : PerspectiveCamera.t) :
  PerspectiveCamera.set_rotation (PerspectiveCamera.rotation camera) camera
  = camera.
Proof. now destruct camera. Qed.

Lemma moveA_rotates (event : MouseEvent) (s : VariantA.State)
    (camera : PerspectiveCamera.t) :
  cameraRef s = Some camera ->
  exists r, cameraRef (VariantA.handleMouseMove event s)
            = Some (PerspectiveCamera.set_rotation r camera).
Proof.
  intros Hc. destruct (isDraggingRef s) eqn:Hdrag.
  - destruct (moveA_cameraRef event s Hdrag) as (f & Hf & Hprop).
    destruct (Hprop camera) as (_ & r & Hr). exists r.
    now rewrite Hf, Hc, <- Hr.
  - rewrite move_idle_A by assumption.
    exists (PerspectiveCamera.rotation camera).
    now rewrite set_rotation_same.
Qed.

Lemma moveB_rotates (event : MouseEvent) (s : VariantB.State)
    (camera : PerspectiveCamera.t) :
  cameraRef s = Some camera ->
  exists r, cameraRef (VariantB.handleMouseMove event s)
            = Some (PerspectiveCamera.set_rotation r camera).
Proof.
  intros Hc. destruct (isDraggingRef s) eqn:Hdrag.
  - destruct (moveB_cameraRef event s Hdrag) as (f & Hf & Hprop).
    destruct (Hprop camera) as (_ & r & Hr). exists r.
    now rewrite Hf, Hc, <- Hr.
  - rewrite move_idle_B by assumption.
    exists (PerspectiveCamera.rotation camera).
    now rewrite set_rotation_same.
Qed.

Section Reachable.
Context `{Math.Trig}.

Lemma ready_set_rotation (r : Euler.t) (camera : PerspectiveCamera.t) :
  ready camera -> ready (PerspectiveCamera.set_rotation r camera).
Proof. intros (Hp & Hd & Ha). repeat split; try apply Hd; assumption. Qed.

Lemma ready_update_fov (v : number) (camera : PerspectiveCamera.t) :
  ready camera ->
  ready (PerspectiveCamera.updateProjectionMatrix
           (PerspectiveCamera.set_fov v camera)).
Proof. intros (Hp & Hd & Ha). repeat split; try apply Hd; assumption. Qed.

Lemma dispatch_ready (V : Type)
    (handleMouseMove : MouseEvent -> Component V -> Component V) :
  (forall event s camera,
     cameraRef s = Some camera ->
     exists r, cameraRef (handleMouseMove event s)
               = Some (PerspectiveCamera.set_rotation r camera)) ->
  forall e s, camera_has ready s ->
              camera_has ready (dispatch_with handleMouseMove e s).
Proof.
  intros Hmove e s Hs. destruct e; cbn; try solve [same_camera Hs].
  - destruct Hs as (camera & Hc & Hr).
    destruct (Hmove event s camera Hc) as (r & Hm).
    exists (PerspectiveCamera.set_rotation r camera).
    split; [exact Hm | now apply ready_set_rotation].
  - revert Hs. apply camera_has_with_camera. intros camera.
    apply ready_update_fov.
  - revert Hs. apply camera_has_with_camera. intros camera.
    apply ready_update_fov.
  - revert Hs. apply camera_has_with_camera. intros camera.
    apply ready_update_fov.
  - revert Hs. apply camera_has_with_camera. intros camera Hr.
    apply (ready_update_fov 75), ready_set_rotation, Hr.
Qed.

Lemma mount_ready (V : Type) (window : Window) (v : V) :
  0 < innerWidth window -> 0 < innerHeight window ->
  camera_has (fun camera => ready camera /\ fov_in_range camera /\
                            pitch_in_range camera)
             (mount window v).
Proof.
  intros Hw Hh. eexists. split; [reflexivity|].
  repeat split; try discriminate.
  change (0 < innerWidth window / innerHeight window).
  apply Qlt_shift_div_l; [exact Hh | lra].
Qed.

(** With a tangent that is positive on the quarter turn, a camera whose
    field of view is in [10, 120] has a positive half-angle tangent. *)
Lemma opening_of_fov (camera : PerspectiveCamera.t) :
  (forall x, 0 < x -> x < Math.PI / 2 -> 0 < Math.tan x) ->
  0 < PerspectiveCamera.aspect camera ->
  fov_in_range camera ->
  opening camera.
Proof.
  intros Htan Ha [Hlo Hhi]. split; [exact Ha|]. apply Htan.
  - unfold PerspectiveCamera.DEG2RAD.
    apply Qmult_lt_0_compat; [reflexivity | lra].
  - unfold PerspectiveCamera.DEG2RAD.
    assert (E : Math.PI / 180 * 0.5 * PerspectiveCamera.fov camera
                == Math.PI / 2 * (PerspectiveCamera.fov camera / 180))
      by field.
    rewrite E.
    assert (Hq : PerspectiveCamera.fov camera / 180 < 1)
      by (apply Qlt_shift_div_r; lra).
    assert (Hpi : 0 < Math.PI / 2) by reflexivity.
    setoid_replace (Math.PI / 2) with (Math.PI / 2 * 1) at 2 by ring.
    apply Qmult_lt_l; assumption.
Qed.

(** Every state the two components reach from the mount has a camera that
    the projection theorems apply to, with pitch and field of view in
    range. *)
Lemma reached_cameras (window : Window) (es : list Event)
    (va : VariantA.HotspotPositions) (vb : Point.t) :
  0 < innerWidth window -> 0 < innerHeight window ->
  let good camera :=
    ready camera /\ fov_in_range camera /\ pitch_in_range camera in
  Forall (camera_has good) (VariantA.trace es (mount window va)) /\
  Forall (camera_has good) (VariantB.trace es (mount window vb)).
Proof.
  intros Hw Hh good.
  assert (Hsplit : forall V (s : Component V),
             camera_has good s <->
             camera_has ready s /\ camera_has fov_in_range s /\
             camera_has pitch_in_range s).
  { intros V s. unfold good, camera_has. split.
    - intros (c & Hc & Hr & Hf & Hp).
      split; [|split]; exists c; split; assumption.
    - intros ((c & Hc & Hr) & (c1 & Hc1 & Hf) & (c2 & Hc2 & Hp)).
      rewrite Hc in Hc1, Hc2. injection Hc1 as <-. injection Hc2 as <-.
      exists c. split; [exact Hc|]. split; [exact Hr|]. split; assumption. }
  split.
  - apply trace_invariant; [|now apply mount_ready].
    intros e s Hs. apply Hsplit in Hs. destruct Hs as (Hr & Hf & Hp).
    apply Hsplit. split; [|split].
    + revert Hr. apply dispatch_ready. apply moveA_rotates.
    + revert Hf. apply dispatch_fov. apply moveA_fov.
    + revert Hp. apply dispatch_pitch. apply moveA_pitch.
  - apply trace_invariant; [|now apply mount_ready].
    intros e s Hs. apply Hsplit in Hs. destruct Hs as (Hr & Hf & Hp).
    apply Hsplit. split; [|split].
    + revert Hr. apply dispatch_ready. apply moveB_rotates.
    + revert Hf. apply dispatch_fov. apply moveB_fov.
    + revert Hp. apply dispatch_pitch. apply moveB_pitch.
Qed.

End Reachable.

(* ================================================================= *)
(** * Further properties of the interaction controller *)

(** Case analysis on every [max] and [min] of the goal and of the
    hypotheses, then linear arithmetic. *)
Ltac minmax_step :=
  match goal with
  | |- context [Qmax ?a ?b] =>
      pose proof (Q.max_spec a b); generalize dependent (Qmax a b); intros
  | |- context [Qmin ?a ?b] =>
      pose proof (Q.min_spec a b); generalize dependent (Qmin a b); intros
  | _ : context [Qmax ?a ?b] |- _ =>
      pose proof (Q.max_spec a b); generalize dependent (Qmax a b); intros
  | _ : context [Qmin ?a ?b] |- _ =>
      pose proof (Q.min_spec a b); generalize dependent (Qmin a b); intros
  end.

Ltac minmax :=
  unfold clamp_fov, clamp_pitch, Math.max, Math.min in *;
  repeat minmax_step;
  repeat match goal with
         | H : _ /\ _ |- _ => destruct H
         | H : _ \/ _ |- _ => destruct H
         end;
  try lra.

Lemma steps_S (n : nat) : steps (S n) == steps n + 1.
Proof.
  unfold steps. rewrite Nat2Z.inj_succ, <- Z.add_1_r, inject_Z_plus.
  reflexivity.
Qed.

Lemma steps_le (n m : nat) : (n <= m)%nat -> steps n <= steps m.
Proof.
  intros Hnm. unfold steps. rewrite <- Zle_Qle. now apply Nat2Z.inj_le.
Qed.

Lemma cameraRef_zoomIn `{Math.Trig} (V : Type) (s : Component V)
    (camera : PerspectiveCamera.t) :
  cameraRef s = Some camera ->
  exists camera',
    cameraRef (zoomIn s) = Some camera' /\
    PerspectiveCamera.fov camera'
    = Math.max 10 (PerspectiveCamera.fov camera - 10) /\
    same_but_zoom camera camera'.
Proof.
  intros Hc. unfold zoomIn. rewrite cameraRef_with_camera, Hc. cbn.
  eexists. split; [reflexivity|]. repeat split.
Qed.

Lemma cameraRef_zoomOut `{Math.Trig} (V : Type) (s : Component V)
    (camera : PerspectiveCamera.t) :
  cameraRef s = Some camera ->
  exists camera',
    cameraRef (zoomOut s) = Some camera' /\
    PerspectiveCamera.fov camera'
    = Math.min 120 (PerspectiveCamera.fov camera + 10) /\
    same_but_zoom camera camera'.
Proof.
  intros Hc. unfold zoomOut. rewrite cameraRef_with_camera, Hc. cbn.
  eexists. split; [reflexivity|]. repeat split.
Qed.

Lemma cameraRef_handleWheel `{Math.Trig} (V : Type) (event : WheelEvent)
    (s : Component V) (camera : PerspectiveCamera.t) :
  cameraRef s = Some camera ->
  exists camera',
    cameraRef (handleWheel event s) = Some camera' /\
    PerspectiveCamera.fov camera'
    = clamp_fov (PerspectiveCamera.fov camera + deltaY event * 0.05) /\
    same_but_zoom camera camera'.
Proof.
  intros Hc. unfold handleWheel. rewrite cameraRef_with_camera, Hc. cbn.
  eexists. split; [reflexivity|]. repeat split.
Qed.

Lemma abs_le (x e : Q) : - e <= x -> x <= e -> Qabs x <= e.
Proof. intros. apply Qabs_Qle_condition. now split. Qed.

Lemma abs_bounds (x e : Q) : Qabs x <= e -> - e <= x /\ x <= e.
Proof. intros. now apply Qabs_Qle_condition. Qed.

Lemma iter_zoomIn64 `{Math.Trig} (V : Type) (n : nat) (s : Component V)
    (camera : PerspectiveCamera.t) :
  cameraRef s = Some camera ->
  fov_settled camera ->
  camera_has
    (fun camera' =>
       fov_settled camera' /\
       PerspectiveCamera.fov camera'
       == Qmax 10 (PerspectiveCamera.fov camera - 10 * steps n))
    (Nat.iter n Binary64.zoomIn s).
Proof.
  intros Hc [Hr [Hlo Hhi]]. induction n as [|n IH]; cbn [Nat.iter].
  - exists camera. split; [exact Hc|]. split; [now split|].
    change (steps 0) with 0. minmax.
  - destruct IH as (cn & Hcn & [Rn [Ln Un]] & En).
    destruct (zoomIn_camera64 V _ cn Hcn) as (c' & Hc' & Ef).
    destruct (sub_10 _ Rn Ln Un) as [Esub _].
    exists c'. split; [exact Hc'|]. unfold fov_settled, fov_in_range.
    rewrite Ef. unfold Math.max.
    split; [split|].
    + apply representable_max; [apply representable_10|].
      apply round_representable.
    + rewrite Esub. clear Hc Hcn Hc'. minmax.
    + rewrite Esub. pose proof (steps_S n) as HS. clear Hc Hcn Hc'. minmax.
Qed.

Lemma iter_zoomOut64 `{Math.Trig} (V : Type) (n : nat) (s : Component V)
    (camera : PerspectiveCamera.t) :
  cameraRef s = Some camera ->
  fov_settled camera ->
  camera_has
    (fun camera' =>
       fov_settled camera' /\
       Qmin 120 (10 + 10 * steps n) <= PerspectiveCamera.fov camera' /\
       Qabs (PerspectiveCamera.fov camera'
             - Qmin 120 (PerspectiveCamera.fov camera + 10 * steps n))
       <= steps n * (1 # 2 ^ 47))
    (Nat.iter n Binary64.zoomOut s).
Proof.
  intros Hc [Hr [Hlo Hhi]]. induction n as [|n IH]; cbn [Nat.iter].
  - exists camera. split; [exact Hc|]. split; [now split|].
    change (steps 0) with 0. split; [minmax|].
    apply abs_le; minmax.
  - destruct IH as (cn & Hcn & [Rn [Ln Un]] & Bn & En).
    destruct (zoomOut_camera64 V _ cn Hcn) as (c' & Hc' & Ef).
    destruct (add_10 _ Ln Un) as (Radd & A20 & A130 & Ale & Age & Aerr & _).
    apply abs_bounds in En. destruct En as [En1 En2].
    pose proof (steps_S n) as HS.
    assert (H0 : 0 <= steps n).
    { unfold steps. change 0 with (inject_Z 0). rewrite <- Zle_Qle. lia. }
    exists c'. split; [exact Hc'|]. unfold fov_settled, fov_in_range.
    rewrite Ef. unfold Math.min.
    set (r := Binary64.add (PerspectiveCamera.fov cn) 10) in *.
    set (x := PerspectiveCamera.fov cn) in *.
    set (f := PerspectiveCamera.fov camera) in *.
    assert (Hlow : Qmin 120 (10 + 10 * steps (S n)) <= Qmin 120 r).
    { destruct (Qlt_le_dec (x + 10) 120) as [Hc1|Hc1].
      - (* the integer bound 10 + 10 (n + 1) lies below x + 10 *)
        assert (Hb : 10 + 10 * steps n <= x) by (clear - Bn Hc1; minmax).
        assert (Hr' : inject_Z (10 + 10 * (Z.of_nat n + 1)) <= r).
        { unfold r, Binary64.add. apply round_ge_int.
          - rewrite Qabs_pos by lra. rewrite pow2_53. lra.
          - rewrite inject_Z_plus, inject_Z_mult, inject_Z_plus.
            unfold steps in Hb. change (inject_Z 10) with 10.
            change (inject_Z 1) with 1. lra. }
        rewrite inject_Z_plus, inject_Z_mult, inject_Z_plus in Hr'.
        change (inject_Z 10) with 10 in Hr'. change (inject_Z 1) with 1 in Hr'.
        fold (steps n) in Hr'. clear - Hr' HS. minmax.
      - pose proof (Age Hc1). clear - H0 H1. minmax. }
    clearbody r x f. clear Hc Hcn Hc' Ef.
    change (1 # 2 ^ 47) with (1 # 140737488355328) in *.
    split; [split; [|split]|split].
    + apply representable_min; [apply representable_120 | exact Radd].
    + minmax.
    + minmax.
    + exact Hlow.
    + destruct (Qlt_le_dec (x + 10) 120) as [Hc1|Hc1].
      * assert (Hc2 : x + 10 < 128) by lra.
        apply Aerr in Hc2. apply abs_bounds in Hc2. destruct Hc2 as [E1 E2].
        clear Aerr Ale Age Hlow. apply abs_le; minmax.
      * pose proof (Age Hc1). clear Aerr Ale Age Hlow.
        apply abs_le; minmax.
Qed.

(** Repeated zooming, on binary64 numbers.  From a binary64 field of
    view [f] in [10, 120], [n] clicks on zoom-in leave max(10, f - 10 n)
    exactly, no subtraction of 10 being rounded; [n] clicks on zoom-out
    leave min(120, f + 10 n) up to [n] roundings of at most 2^-47 each;
    and eleven clicks or more end exactly at the bound, 10 or 120,
    whatever [f] was. *)
Theorem zoom_n_times `{Math.Trig} (V : Type) (n : nat) (s : Component V)
    (camera : PerspectiveCamera.t) :
  cameraRef s = Some camera ->
  fov_in_range camera ->
  Binary64.representable (PerspectiveCamera.fov camera) ->
  let f := PerspectiveCamera.fov camera in
  let ends_at (v : number) (s' : Component V) :=
    camera_has (fun camera' => PerspectiveCamera.fov camera' == v) s' in
  ends_at (Math.max 10 (f - 10 * steps n)) (Nat.iter n Binary64.zoomIn s) /\
  camera_has
    (fun camera' =>
       Qabs (PerspectiveCamera.fov camera'
             - Math.min 120 (f + 10 * steps n))
       <= steps n * (1 # 2 ^ 47))
    (Nat.iter n Binary64.zoomOut s) /\
  ((11 <= n)%nat ->
   ends_at 10 (Nat.iter n Binary64.zoomIn s) /\
   ends_at 120 (Nat.iter n Binary64.zoomOut s)).
Proof.
  intros Hc Hf Hr f ends_at. subst ends_at. cbn beta.
  assert (Hs : fov_settled camera) by now split.
  pose proof (iter_zoomIn64 V n s camera Hc Hs) as Hin.
  pose proof (iter_zoomOut64 V n s camera Hc Hs) as Hout.
  fold f in Hin, Hout. destruct Hf as [Hlo Hhi]. fold f in Hlo, Hhi.
  split; [|split].
  - revert Hin. apply camera_has_weaken. now intros c [_ E].
  - revert Hout. apply camera_has_weaken. now intros c (_ & _ & E).
  - intros Hn. apply steps_le in Hn. change (steps 11) with 11 in Hn.
    split.
    + revert Hin. apply camera_has_weaken. intros c [_ E]. rewrite E.
      apply Q.max_l. lra.
    + revert Hout. apply camera_has_weaken.
      intros c ([_ [_ U]] & L & _).
      assert (E : Qmin 120 (10 + 10 * steps n) == 120)
        by (apply Q.min_l; lra).
      rewrite E in L. lra.
Qed.

Lemma zoom_n_times_witness :
  camera_has (fun camera' => PerspectiveCamera.fov camera' == 45)
             (Nat.iter 3 (Binary64.zoomIn (H := series_tan)) mountedA) /\
  camera_has (fun camera' => PerspectiveCamera.fov camera' == 120)
             (Nat.iter 11 (Binary64.zoomOut (H := series_tan)) mountedA).
Proof.
  split.
  - destruct (zoom_n_times (H := series_tan) _ 3 mountedA camera0
                mountedA_camera camera0_fov representable_75) as [H3 _].
    exact H3.
  - destruct (zoom_n_times (H := series_tan) _ 11 mountedA camera0
                mountedA_camera camera0_fov representable_75)
      as (_ & _ & H11).
    apply H11. lia.
Defined.

(** A zoom click is a wheel notch.  On a camera whose field of view is in
    [10, 120], zoom-in leaves the camera that a wheel event of deltaY -200
    leaves, and zoom-out the camera of a wheel event of deltaY 200: the
    same field of view, and every other parameter as it was. *)
Theorem zoom_click_is_wheel_notch `{Math.Trig} (V : Type) (s : Component V)
    (camera : PerspectiveCamera.t) :
  cameraRef s = Some camera ->
  fov_in_range camera ->
  let agree (s1 s2 : Component V) :=
    exists c1 c2,
      cameraRef s1 = Some c1 /\ cameraRef s2 = Some c2 /\
      PerspectiveCamera.fov c1 == PerspectiveCamera.fov c2 /\
      same_but_zoom c1 c2 in
  agree (zoomIn s) (handleWheel {| deltaY := -200 |} s) /\
  agree (zoomOut s) (handleWheel {| deltaY := 200 |} s).
Proof.
  intros Hc [Hlo Hhi] agree. subst agree. cbn beta.
  destruct (cameraRef_zoomIn V s camera Hc) as (ci & Hi & Ei & Si).
  destruct (cameraRef_zoomOut V s camera Hc) as (co & Ho & Eo & So).
  destruct (cameraRef_handleWheel V {| deltaY := -200 |} s camera Hc)
    as (cw & Hw & Ew & Sw).
  destruct (cameraRef_handleWheel V {| deltaY := 200 |} s camera Hc)
    as (cv & Hv & Ev & Sv).
  cbn [deltaY] in Ew, Ev.
  assert (Hsame : forall a b, same_but_zoom camera a ->
                              same_but_zoom camera b -> same_but_zoom a b).
  { intros a b (A1 & A2 & A3 & A4 & A5 & A6) (B1 & B2 & B3 & B4 & B5 & B6).
    repeat split; congruence. }
  split.
  - exists ci, cw. repeat split; try assumption; try (now apply Hsame).
    rewrite Ei, Ew. clear Hc Hi Ho Hw Hv. minmax.
  - exists co, cv. repeat split; try assumption; try (now apply Hsame).
    rewrite Eo, Ev. clear Hc Hi Ho Hw Hv. minmax.
Qed.

Lemma zoom_click_is_wheel_notch_witness :
  exists c1 c2,
    cameraRef (zoomIn (H := series_tan) mountedB) = Some c1 /\
    cameraRef (handleWheel (H := series_tan) {| deltaY := -200 |} mountedB)
    = Some c2 /\
    PerspectiveCamera.fov c1 == PerspectiveCamera.fov c2 /\
    same_but_zoom c1 c2.
Proof.
  destruct (zoom_click_is_wheel_notch (H := series_tan) _ mountedB camera0
              mountedB_camera camera0_fov) as [Hin _].
  exact Hin.
Defined.

Lemma literal_0_05 :
  Binary64.literal 0.05 == 3602879701896397 # 72057594037927936.
Proof. vm_compute. reflexivity. Qed.

(** The direction of the wheel, on binary64 numbers.  From a binary64
    field of view in [10, 120], a wheel event with deltaY >= 0 never
    narrows the field of view and one with deltaY <= 0 never widens it,
    deltaY = 0 leaves it as it is, and a wheel event of deltaY >= 2200
    ends at 120, one of deltaY <= -2200 at 10, whatever the field of view
    was. *)
Theorem wheel_direction_and_saturation `{Math.Trig} (V : Type)
    (s : Component V) (camera : PerspectiveCamera.t) (d : number) :
  cameraRef s = Some camera ->
  fov_in_range camera ->
  Binary64.representable (PerspectiveCamera.fov camera) ->
  let f := PerspectiveCamera.fov camera in
  let after (P : number -> Prop) :=
    camera_has (fun camera' => P (PerspectiveCamera.fov camera'))
               (Binary64.handleWheel {| deltaY := d |} s) in
  (0 <= d -> after (fun v => f <= v)) /\
  (d <= 0 -> after (fun v => v <= f)) /\
  (d == 0 -> after (fun v => v == f)) /\
  (2200 <= d -> after (fun v => v == 120)) /\
  (d <= -2200 -> after (fun v => v == 10)).
Proof.
  intros Hc [Hlo Hhi] Hr f after. subst after. cbn beta.
  fold f in Hlo, Hhi, Hr.
  destruct (handleWheel_camera64 V {| deltaY := d |} s camera Hc)
    as (c' & Hc' & Ef).
  cbn [deltaY] in Ef. fold f in Ef.
  set (a := Binary64.mul d (Binary64.literal 0.05)) in *.
  assert (Ea : a == Binary64.round
                      (d * (3602879701896397 # 72057594037927936))).
  { unfold a, Binary64.mul. apply round_comp. now rewrite literal_0_05. }
  set (r := Binary64.add f a) in *.
  assert (Rge : forall q : Q, Binary64.representable q -> q <= f + a -> q <= r).
  { intros q Hq Hle. unfold r, Binary64.add. now apply round_ge. }
  assert (Rle : forall q : Q, Binary64.representable q -> f + a <= q -> r <= q).
  { intros q Hq Hle. unfold r, Binary64.add. now apply round_le. }
  assert (Age : forall q : Q,
             Binary64.representable q ->
             q <= d * (3602879701896397 # 72057594037927936) -> q <= a).
  { intros q Hq Hle. rewrite Ea. now apply round_ge. }
  assert (Ale : forall q : Q,
             Binary64.representable q ->
             d * (3602879701896397 # 72057594037927936) <= q -> a <= q).
  { intros q Hq Hle. rewrite Ea. now apply round_le. }
  assert (R110 : Binary64.representable (-110)).
  { apply (representable_int (-110)). reflexivity. }
  unfold Math.max, Math.min in Ef.
  split; [|split; [|split; [|split]]]; intros Hd; exists c';
    (split; [exact Hc'|]); rewrite Ef.
  - pose proof (Age 0 representable_0 ltac:(lra)) as Ha.
    pose proof (Rge f Hr ltac:(lra)) as Hrf.
    clearbody r a. clear Ef Ea Rge Rle Age Ale. minmax.
  - pose proof (Ale 0 representable_0 ltac:(lra)) as Ha.
    pose proof (Rle f Hr ltac:(lra)) as Hrf.
    clearbody r a. clear Ef Ea Rge Rle Age Ale. minmax.
  - pose proof (Age 0 representable_0 ltac:(lra)) as Ha1.
    pose proof (Ale 0 representable_0 ltac:(lra)) as Ha2.
    pose proof (Rge f Hr ltac:(lra)) as Hr1.
    pose proof (Rle f Hr ltac:(lra)) as Hr2.
    clearbody r a. clear Ef Ea Rge Rle Age Ale. minmax.
  - pose proof (Age 110 representable_110 ltac:(lra)) as Ha.
    pose proof (Rge 120 representable_120 ltac:(lra)) as Hrf.
    clearbody r a. clear Ef Ea Rge Rle Age Ale. minmax.
  - pose proof (Ale (-110) R110 ltac:(lra)) as Ha.
    pose proof (Rle 10 representable_10 ltac:(lra)) as Hrf.
    clearbody r a. clear Ef Ea Rge Rle Age Ale. minmax.
Qed.

Lemma wheel_direction_and_saturation_witness :
  camera_has (fun camera' => 75 <= PerspectiveCamera.fov camera')
             (Binary64.handleWheel (H := series_tan) {| deltaY := 3 |}
                mountedA) /\
  camera_has (fun camera' => PerspectiveCamera.fov camera' == 10)
             (Binary64.handleWheel (H := series_tan) {| deltaY := -2500 |}
                mountedA).
Proof.
  split.
  - destruct (wheel_direction_and_saturation (H := series_tan) _ mountedA
                camera0 3 mountedA_camera camera0_fov representable_75)
      as [Hup _].
    apply Hup. discriminate.
  - destruct (wheel_direction_and_saturation (H := series_tan) _ mountedA
                camera0 (-2500) mountedA_camera camera0_fov representable_75)
      as (_ & _ & _ & _ & Hlow).
    apply Hlow. discriminate.
Defined.

(** Wheel events do not add up: from the mount, the events of deltaY 1 and
    2 leave another field of view than the one event of deltaY 3. *)
Example wheel_events_do_not_add_up :
  let one_by_one :=
    Binary64.handleWheel (H := series_tan) {| deltaY := 2 |}
      (Binary64.handleWheel (H := series_tan) {| deltaY := 1 |} mountedA) in
  let at_once :=
    Binary64.handleWheel (H := series_tan) {| deltaY := 3 |} mountedA in
  camera_has
    (fun c => PerspectiveCamera.fov c
              == 5288211124951449 # 70368744177664) one_by_one /\
  camera_has
    (fun c => PerspectiveCamera.fov c
              == 5288211124951450 # 70368744177664) at_once.
Proof.
  split; (eexists; split; [vm_compute; reflexivity|]);
    vm_compute; reflexivity.
Qed.

(* ================================================================= *)
(** * Dragging *)

Lemma fold_moves {V : Type} `{Math.Trig}
    (handleMouseMove : MouseEvent -> Component V -> Component V)
    (moves : list MouseEvent) (s : Component V) :
  fold_left (fun s e => dispatch_with handleMouseMove e s)
            (List.map MouseMove moves) s
  = fold_left (fun s event => handleMouseMove event s) moves s.
Proof.
  revert s. induction moves as [|event moves IH]; intros s; [reflexivity|].
  cbn. apply IH.
Qed.

Lemma runA_moves `{Math.Trig} (moves : list MouseEvent)
    (s : VariantA.State) :
  VariantA.run (List.map MouseMove moves) s
  = fold_left (fun s event => VariantA.handleMouseMove event s) moves s.
Proof. exact (fold_moves VariantA.handleMouseMove moves s). Qed.

Lemma runB_moves `{Math.Trig} (moves : list MouseEvent)
    (s : VariantB.State) :
  VariantB.run (List.map MouseMove moves) s
  = fold_left (fun s event => VariantB.handleMouseMove event s) moves s.
Proof. exact (fold_moves VariantB.handleMouseMove moves s). Qed.

(** Mouse moves outside a drag do nothing.  After a mouse-up, any number of
    mouse moves leave the component exactly as the mouse-up left it; in both
    variants. *)
Theorem moves_outside_drag_do_nothing `{Math.Trig} (moves : list MouseEvent)
    (a : VariantA.State) (b : VariantB.State) :
  VariantA.run (MouseUp :: List.map MouseMove moves) a = handleMouseUp a /\
  VariantB.run (MouseUp :: List.map MouseMove moves) b = handleMouseUp b.
Proof.
  change (VariantA.run (MouseUp :: List.map MouseMove moves) a)
    with (VariantA.run (List.map MouseMove moves) (handleMouseUp a)).
  change (VariantB.run (MouseUp :: List.map MouseMove moves) b)
    with (VariantB.run (List.map MouseMove moves) (handleMouseUp b)).
  rewrite runA_moves, runB_moves. split.
  - generalize (handleMouseUp a) (eq_refl : isDraggingRef (handleMouseUp a)
                                            = false).
    induction moves as [|event moves IH]; intros s Hidle; [reflexivity|].
    cbn [fold_left]. rewrite (move_idle_A event s Hidle). now apply IH.
  - generalize (handleMouseUp b) (eq_refl : isDraggingRef (handleMouseUp b)
                                            = false).
    induction moves as [|event moves IH]; intros s Hidle; [reflexivity|].
    cbn [fold_left]. rewrite (move_idle_B event s Hidle). now apply IH.
Qed.

Lemma literal_0_005 :
  Binary64.literal 0.005 == 5764607523034235 # 1152921504606846976.
Proof. vm_compute. reflexivity. Qed.

Lemma representable_half_PI :
  Binary64.representable (Math.PI / 2) /\
  Binary64.representable ((- Math.PI) / 2).
Proof.
  split.
  - exists 884279719003555%Z, (-49)%Z.
    split; [reflexivity | split; [discriminate | reflexivity]].
  - exists (-884279719003555)%Z, (-49)%Z.
    split; [reflexivity | split; [discriminate | reflexivity]].
Qed.

(** The angle follows the sign of the pointer's move. *)
Lemma turned_angle_sign (angle now before : number) :
  Binary64.representable angle ->
  let angle' := turned_angle angle now before in
  Binary64.representable angle' /\
  (0 <= now - before -> angle' <= angle) /\
  (now - before <= 0 -> angle <= angle') /\
  (now - before == 0 -> angle' == angle).
Proof.
  intros Hr angle'. subst angle'. unfold turned_angle.
  set (d := Binary64.sub now before).
  set (a := Binary64.mul d (Binary64.literal 0.005)).
  assert (Ea : a == Binary64.round
                      (d * (5764607523034235 # 1152921504606846976))).
  { unfold a, Binary64.mul. apply round_comp. now rewrite literal_0_005. }
  assert (Hd1 : 0 <= now - before -> 0 <= d)
    by (intros; apply round_nonneg; assumption).
  assert (Hd2 : now - before <= 0 -> d <= 0)
    by (intros; apply round_nonpos; assumption).
  assert (Ha1 : 0 <= d -> 0 <= a).
  { intros Hd. rewrite Ea. apply round_nonneg. clearbody d. nra. }
  assert (Ha2 : d <= 0 -> a <= 0).
  { intros Hd. rewrite Ea. apply round_nonpos. clearbody d. nra. }
  clearbody a d. unfold Binary64.sub.
  split; [apply round_representable|].
  split; [|split].
  - intros H. apply round_le; [exact Hr|].
    pose proof (Ha1 (Hd1 H)). lra.
  - intros H. apply round_ge; [exact Hr|].
    pose proof (Ha2 (Hd2 H)). lra.
  - intros H.
    assert (H0 : a == 0).
    { pose proof (Ha1 (Hd1 ltac:(lra))). pose proof (Ha2 (Hd2 ltac:(lra))).
      lra. }
    rewrite <- (round_exact angle Hr) at 2. apply round_comp.
    rewrite H0. ring.
Qed.

Lemma moveA64 (event : MouseEvent) (s : VariantA.State)
    (camera : PerspectiveCamera.t) :
  isDraggingRef s = true ->
  cameraRef s = Some camera ->
  let s' := Binary64.handleMouseMoveA event s in
  previousMouseRef s' = Point.mk (clientX event) (clientY event) /\
  cameraRef s'
  = Some (PerspectiveCamera.set_rotation
            (Euler.mk
               (clamp_pitch
                  (turned_angle (pitch camera) (clientY event)
                                (Point.y (previousMouseRef s))))
               (turned_angle (yaw camera) (clientX event)
                             (Point.x (previousMouseRef s)))
               (Euler.z (PerspectiveCamera.rotation camera)))
            camera).
Proof.
  intros Hdrag Hc s'. subst s'. unfold Binary64.handleMouseMoveA.
  rewrite Hdrag. cbn [negb]. cbv zeta. split; [reflexivity|].
  cbn [cameraRef set_previousMouseRef].
  rewrite cameraRef_with_camera, Hc. reflexivity.
Qed.

Lemma moveB64 (event : MouseEvent) (s : VariantB.State)
    (camera : PerspectiveCamera.t) :
  isDraggingRef s = true ->
  cameraRef s = Some camera ->
  let s' := Binary64.handleMouseMoveB event s in
  previousMouseRef s' = Point.mk (clientX event) (clientY event) /\
  cameraRef s'
  = Some (PerspectiveCamera.set_rotation
            (Euler.mk
               (clamp_pitch
                  (turned_angle (pitch camera) (clientY event)
                                (Point.y (previousMouseRef s))))
               (turned_angle (yaw camera) (clientX event)
                             (Point.x (previousMouseRef s)))
               (Euler.z (PerspectiveCamera.rotation camera)))
            camera).
Proof.
  intros Hdrag Hc s'. subst s'. unfold Binary64.handleMouseMoveB.
  rewrite Hdrag. cbn [negb]. cbv zeta. split; [reflexivity|].
  cbn [cameraRef set_previousMouseRef].
  rewrite cameraRef_with_camera, Hc. cbn [option_map].
  unfold VariantB.setCameraRotation. cbn [cameraRef set_variantState].
  rewrite cameraRef_with_camera, Hc. reflexivity.
Qed.

Lemma turned_camera (V : Type) (event : MouseEvent) (s s' : Component V)
    (camera : PerspectiveCamera.t) :
  rotation_settled camera ->
  previousMouseRef s' = Point.mk (clientX event) (clientY event) ->
  cameraRef s'
  = Some (PerspectiveCamera.set_rotation
            (Euler.mk
               (clamp_pitch
                  (turned_angle (pitch camera) (clientY event)
                                (Point.y (previousMouseRef s))))
               (turned_angle (yaw camera) (clientX event)
                             (Point.x (previousMouseRef s)))
               (Euler.z (PerspectiveCamera.rotation camera)))
            camera) ->
  turned event camera (previousMouseRef s) s'.
Proof.
  intros (Ry & Rp & Plo & Phi) Hprev Hcam. unfold turned. cbv zeta.
  split; [exact Hprev|]. eexists. split; [exact Hcam|].
  unfold rotation_settled, pitch_in_range, yaw, pitch.
  cbn [PerspectiveCamera.rotation PerspectiveCamera.set_rotation
       Euler.x Euler.y].
  fold (yaw camera). fold (pitch camera).
  destruct (turned_angle_sign (yaw camera) (clientX event)
              (Point.x (previousMouseRef s)) Ry)
    as (Ry' & Y1 & Y2 & Y3).
  destruct (turned_angle_sign (pitch camera) (clientY event)
              (Point.y (previousMouseRef s)) Rp)
    as (Rp' & P1 & P2 & P3).
  destruct representable_half_PI as [RH RL].
  set (y' := turned_angle (yaw camera) _ _) in *.
  set (p' := turned_angle (pitch camera) _ _) in *.
  clearbody y' p'.
  assert (Hpi : (- Math.PI) / 2 <= Math.PI / 2) by exact pitch_bounds_ordered.
  unfold clamp_pitch, Math.max, Math.min.
  set (lo := (- Math.PI) / 2) in *. set (hi := Math.PI / 2) in *.
  clearbody lo hi.
  split; [split; [exact Ry'|split]|].
  - apply representable_max; [exact RL|].
    apply representable_min; [exact RH | exact Rp'].
  - split; minmax.
  - split; [exact Y1|]. split; [exact Y2|]. split; [exact Y3|].
    split; [|split]; intros Hd.
    + pose proof (P1 Hd). minmax.
    + pose proof (P2 Hd). minmax.
    + pose proof (P3 Hd). minmax.
Qed.

(** The view turns with the pointer, on binary64 numbers.  While a drag is
    on, on a camera whose yaw and pitch are binary64 numbers, the pitch
    between the poles: a mouse move to the right of the recorded pointer
    position never raises the yaw and one to the left never lowers it; a
    move below it never raises the pitch and one above it never lowers it;
    a coordinate that did not change leaves its angle exactly as it was;
    the pitch stays between the poles; and the position of the event is
    the one recorded for the next move.  In both variants. *)
Theorem drag_turns_with_pointer (event : MouseEvent) (a : VariantA.State)
    (b : VariantB.State) (ca cb : PerspectiveCamera.t) :
  isDraggingRef a = true -> isDraggingRef b = true ->
  cameraRef a = Some ca -> cameraRef b = Some cb ->
  rotation_settled ca -> rotation_settled cb ->
  turned event ca (previousMouseRef a) (Binary64.handleMouseMoveA event a) /\
  turned event cb (previousMouseRef b) (Binary64.handleMouseMoveB event b).
Proof.
  intros Da Db Ha Hb Sa Sb. split.
  - destruct (moveA64 event a ca Da Ha) as [Hp Hc].
    exact (turned_camera _ event a _ ca Sa Hp Hc).
  - destruct (moveB64 event b cb Db Hb) as [Hp Hc].
    exact (turned_camera _ event b _ cb Sb Hp Hc).
Qed.

Lemma camera0_rotation_settled : rotation_settled camera0.
Proof.
  split; [apply representable_0 | split; [apply representable_0|]].
  exact camera0_pitch.
Qed.

Lemma drag_turns_with_pointer_witness :
  turned {| clientX := 40; clientY := -20 |} camera0 (Point.mk 0 0)
         (Binary64.handleMouseMoveA {| clientX := 40; clientY := -20 |}
            pressedA) /\
  turned {| clientX := 40; clientY := -20 |} camera0 (Point.mk 0 0)
         (Binary64.handleMouseMoveB {| clientX := 40; clientY := -20 |}
            pressedB).
Proof.
  destruct (drag_turns_with_pointer {| clientX := 40; clientY := -20 |}
              pressedA pressedB camera0 camera0
              eq_refl eq_refl eq_refl eq_refl
              camera0_rotation_settled camera0_rotation_settled)
    as [HA HB].
  split; [exact HA | exact HB].
Defined.

(** The size of the turn is as the pointer's path has it, not only its
    end: from the mouse-down at the origin, the move to (9, -40) leaves
    another pitch by way of (5, 100) than it leaves directly. *)
Example drag_depends_on_path :
  let direct :=
    Binary64.handleMouseMoveB {| clientX := 9; clientY := -40 |} pressedB in
  let by_way :=
    Binary64.handleMouseMoveB {| clientX := 9; clientY := -40 |}
      (Binary64.handleMouseMoveB {| clientX := 5; clientY := 100 |}
         pressedB) in
  camera_has
    (fun c => pitch c == 3602879701896397 # 18014398509481984) direct /\
  camera_has
    (fun c => pitch c == 1801439850948199 # 9007199254740992) by_way.
Proof.
  split; (eexists; split; [vm_compute; reflexivity|]);
    vm_compute; reflexivity.
Qed.

(* ================================================================= *)
(** * The flags of the interface and the scene *)

Lemma moveA_frame (event : MouseEvent) (s : VariantA.State) :
  let s' := VariantA.handleMouseMove event s in
  selectedHotspot s' = selectedHotspot s /\
  isLoading s' = isLoading s /\
  isDraggingRef s' = isDraggingRef s /\
  sceneRef s' = sceneRef s /\
  sphereRef s' = sphereRef s /\
  console s' = console s.
Proof.
  cbn zeta. unfold VariantA.handleMouseMove, with_camera.
  destruct (isDraggingRef s) eqn:Hd; destruct (cameraRef s); cbn;
    rewrite ?Hd; repeat split.
Qed.

Lemma moveB_frame (event : MouseEvent) (s : VariantB.State) :
  let s' := VariantB.handleMouseMove event s in
  selectedHotspot s' = selectedHotspot s /\
  isLoading s' = isLoading s /\
  isDraggingRef s' = isDraggingRef s /\
  sceneRef s' = sceneRef s /\
  sphereRef s' = sphereRef s /\
  console s' = console s.
Proof.
  cbn zeta. unfold VariantB.handleMouseMove, with_camera.
  destruct (isDraggingRef s) eqn:Hd; destruct (cameraRef s) eqn:Hc; cbn;
    rewrite ?Hc; cbn; rewrite ?Hd; repeat split.
Qed.

Lemma with_camera_fields {V : Type}
    (f : PerspectiveCamera.t -> PerspectiveCamera.t) (s : Component V) :
  let s' := with_camera f s in
  sceneRef s' = sceneRef s /\
  sphereRef s' = sphereRef s /\
  isDraggingRef s' = isDraggingRef s /\
  previousMouseRef s' = previousMouseRef s /\
  selectedHotspot s' = selectedHotspot s /\
  isLoading s' = isLoading s /\
  console s' = console s /\
  variantState s' = variantState s.
Proof.
  cbn zeta. unfold with_camera. destruct (cameraRef s); repeat split.
Qed.

(** The handlers that only update the camera. *)
Ltac camera_only :=
  unfold handleWheel, zoomIn, zoomOut, resetView;
  match goal with
  | |- context [with_camera ?f ?s] =>
      destruct (with_camera_fields f s)
        as (? & ? & ? & ? & ? & ? & ? & ?)
  end.

Section Flags.
Context `{Math.Trig}.
Variable V : Type.
Variable handleMouseMove : MouseEvent -> Component V -> Component V.
Hypothesis move_frame :
  forall event s,
    selectedHotspot (handleMouseMove event s) = selectedHotspot s /\
    isLoading (handleMouseMove event s) = isLoading s /\
    isDraggingRef (handleMouseMove event s) = isDraggingRef s /\
    sceneRef (handleMouseMove event s) = sceneRef s /\
    sphereRef (handleMouseMove event s) = sphereRef s /\
    console (handleMouseMove event s) = console s.

Lemma dispatch_flags (e : Event) (s : Component V) :
  let s' := dispatch_with handleMouseMove e s in
  selectedHotspot s' = selection_after [e] (selectedHotspot s) /\
  isLoading s' = loading_after [e] (isLoading s) /\
  isDraggingRef s' = dragging_after [e] (isDraggingRef s).
Proof.
  cbn zeta. destruct e; cbn.
  2: { destruct (move_frame event s) as (-> & -> & -> & _). repeat split. }
  all: try (camera_only; repeat split; assumption).
  all: unfold onLoad, scene_add; destruct (sceneRef s); repeat split.
Qed.

Lemma run_flags (es : list Event) :
  forall s : Component V,
    selectedHotspot (run_with handleMouseMove es s) = selection_after es (selectedHotspot s) /\
    isLoading (run_with handleMouseMove es s) = loading_after es (isLoading s) /\
    isDraggingRef (run_with handleMouseMove es s) = dragging_after es (isDraggingRef s).
Proof.
  induction es as [|e es IH]; intros s; [repeat split|].
  destruct (dispatch_flags e s) as (Hs & Hl & Hd).
  destruct (IH (dispatch_with handleMouseMove e s)) as (IHs & IHl & IHd).
  unfold run_with in *. cbn [fold_left].
  rewrite IHs, IHl, IHd, Hs, Hl, Hd. repeat split.
Qed.

Lemma sphere_installed_same (s s' : Component V) (n : nat) :
  sceneRef s' = sceneRef s -> sphereRef s' = sphereRef s ->
  sphere_installed s n -> sphere_installed s' n.
Proof.
  intros Hscene Hsphere (scene & H1 & H2 & H3). exists scene.
  rewrite Hscene, Hsphere. auto.
Qed.

Lemma dispatch_sphere (e : Event) (s : Component V) (n : nat) :
  sphere_installed s n ->
  sphere_installed (dispatch_with handleMouseMove e s)
                   (n + (if is_load e then 1 else 0)).
Proof.
  intros Hs.
  destruct e; cbn [is_load dispatch_with]; rewrite ?Nat.add_0_r;
    try (revert Hs; apply sphere_installed_same;
         first [ reflexivity
               | apply move_frame
               | camera_only; assumption ]).
  destruct Hs as (scene & Hscene & Hlen & Href).
  unfold onLoad, scene_add. rewrite Hscene. cbn.
  eexists. split; [reflexivity|]. split.
  - cbn. rewrite length_app. cbn. now rewrite Hlen.
  - cbn. rewrite map_app. cbn. now rewrite last_last.
Qed.

Lemma run_sphere (es : list Event) :
  forall (s : Component V) (n : nat),
    sphere_installed s n ->
    sphere_installed (run_with handleMouseMove es s)
                     (n + List.length (List.filter is_load es)).
Proof.
  induction es as [|e es IH]; intros s n Hs.
  - cbn. now rewrite Nat.add_0_r.
  - unfold run_with in *. cbn [fold_left List.filter].
    apply (dispatch_sphere e) in Hs. apply IH in Hs.
    destruct (is_load e); cbn [List.length].
    + match goal with
      | |- sphere_installed _ (n + S ?m) =>
          replace (n + S m)%nat with (n + 1 + m)%nat by lia
      end.
      exact Hs.
    + now rewrite Nat.add_0_r in Hs.
Qed.

End Flags.

Lemma moveA_frame_eqs (event : MouseEvent) (s : VariantA.State) :
  selectedHotspot (VariantA.handleMouseMove event s) = selectedHotspot s /\
  isLoading (VariantA.handleMouseMove event s) = isLoading s /\
  isDraggingRef (VariantA.handleMouseMove event s) = isDraggingRef s /\
  sceneRef (VariantA.handleMouseMove event s) = sceneRef s /\
  sphereRef (VariantA.handleMouseMove event s) = sphereRef s /\
  console (VariantA.handleMouseMove event s) = console s.
Proof. exact (moveA_frame event s). Qed.

Lemma moveB_frame_eqs (event : MouseEvent) (s : VariantB.State) :
  selectedHotspot (VariantB.handleMouseMove event s) = selectedHotspot s /\
  isLoading (VariantB.handleMouseMove event s) = isLoading s /\
  isDraggingRef (VariantB.handleMouseMove event s) = isDraggingRef s /\
  sceneRef (VariantB.handleMouseMove event s) = sceneRef s /\
  sphereRef (VariantB.handleMouseMove event s) = sphereRef s /\
  console (VariantB.handleMouseMove event s) = console s.
Proof. exact (moveB_frame event s). Qed.

(** The selection is the last click.  After any sequence of events the
    selected hotspot is the one clicked last, or none if the panel was
    closed since or no hotspot was clicked; a click replaces the selection,
    and no other event touches it.  In both variants. *)
Theorem selection_is_last_click `{Math.Trig} (es : list Event)
    (a : VariantA.State) (b : VariantB.State) :
  selectedHotspot (VariantA.run es a)
  = selection_after es (selectedHotspot a) /\
  selectedHotspot (VariantB.run es b)
  = selection_after es (selectedHotspot b).
Proof.
  split.
  - apply (run_flags _ _ moveA_frame_eqs es a).
  - apply (run_flags _ _ moveB_frame_eqs es b).
Qed.

(** The loading flag clears once and for all.  After any sequence of events
    the flag is false if one of them was the success or the failure of the
    texture load, and what it was otherwise; once false it stays false.  In
    both variants. *)
Theorem loading_clears_for_good `{Math.Trig} (es : list Event)
    (a : VariantA.State) (b : VariantB.State) :
  isLoading (VariantA.run es a) = loading_after es (isLoading a) /\
  isLoading (VariantB.run es b) = loading_after es (isLoading b) /\
  loading_after es false = false.
Proof.
  split; [|split].
  - apply (run_flags _ _ moveA_frame_eqs es a).
  - apply (run_flags _ _ moveB_frame_eqs es b).
  - induction es as [|e es IH]; [reflexivity|].
    destruct e; exact IH.
Qed.

(** Idle and dragging.  After any sequence of events a drag is on exactly
    when the last mouse-down came after the last mouse-up; no other event
    starts or ends a drag.  In both variants. *)
Theorem dragging_follows_buttons `{Math.Trig} (es : list Event)
    (a : VariantA.State) (b : VariantB.State) :
  isDraggingRef (VariantA.run es a) = dragging_after es (isDraggingRef a) /\
  isDraggingRef (VariantB.run es b) = dragging_after es (isDraggingRef b).
Proof.
  split.
  - apply (run_flags _ _ moveA_frame_eqs es a).
  - apply (run_flags _ _ moveB_frame_eqs es b).
Qed.

Lemma last_some_none {A : Type} (l : list A) :
  last (List.map Some l) None = None <-> List.length l = 0%nat.
Proof.
  induction l as [|a l _] using rev_ind.
  - cbn. tauto.
  - rewrite map_app. cbn [List.map]. rewrite last_last, length_app.
    cbn. split; [discriminate | lia].
Qed.

Lemma sphere_ref_none {V : Type} (s : Component V) (n : nat) :
  sphere_installed s n -> (sphereRef s = None <-> n = 0%nat).
Proof.
  intros (scene & _ & Hlen & Href). rewrite Href, <- Hlen.
  apply last_some_none.
Qed.

(** One sphere per successful load, and the sphere ref follows.  From a
    state whose scene holds [n] spheres, the last of them in the sphere
    ref, any sequence of events leaves a scene with [n] plus the number of
    successful loads of the sequence, the last sphere again in the sphere
    ref; so the ref is empty exactly when the scene is.  In both
    variants. *)
Theorem sphere_follows_loads `{Math.Trig} (es : list Event) (n : nat)
    (a : VariantA.State) (b : VariantB.State) :
  sphere_installed a n ->
  sphere_installed b n ->
  let m := (n + List.length (List.filter is_load es))%nat in
  sphere_installed (VariantA.run es a) m /\
  sphere_installed (VariantB.run es b) m /\
  (sphereRef (VariantA.run es a) = None <-> m = 0%nat) /\
  (sphereRef (VariantB.run es b) = None <-> m = 0%nat).
Proof.
  intros Ha Hb m. subst m.
  pose proof (run_sphere _ _ moveA_frame_eqs es a n Ha) as HA.
  pose proof (run_sphere _ _ moveB_frame_eqs es b n Hb) as HB.
  split; [exact HA|]. split; [exact HB|].
  split; [exact (sphere_ref_none _ _ HA) | exact (sphere_ref_none _ _ HB)].
Qed.

Lemma mount_sphere `{Math.Trig} (V : Type) (window : Window) (v : V) :
  sphere_installed (mount window v) 0.
Proof. eexists. repeat split. Qed.

Lemma sphere_follows_loads_witness :
  sphere_installed
    (VariantA.run (H := series_tan)
       [ Wheel {| deltaY := 100 |};
         TextureLoaded {| image := "panorama.jpg" |};
         ClickZoomIn ] mountedA) 1 /\
  sphere_installed
    (VariantB.run (H := series_tan)
       [ Wheel {| deltaY := 100 |};
         TextureLoaded {| image := "panorama.jpg" |};
         ClickZoomIn ] mountedB) 1.
Proof.
  destruct (sphere_follows_loads (H := series_tan)
              [ Wheel {| deltaY := 100 |};
                TextureLoaded {| image := "panorama.jpg" |};
                ClickZoomIn ] 0 mountedA mountedB
              (mount_sphere _ _ _) (mount_sphere _ _ _))
    as (HA & HB & _).
  split; [exact HA | exact HB].
Defined.

(* ================================================================= *)
(** * The two variants side by side *)

Lemma dispatch_shared `{Math.Trig} (e : Event) (a : VariantA.State)
    (b : VariantB.State) :
  shared a = shared b ->
  shared (VariantA.dispatch e a) = shared (VariantB.dispatch e b).
Proof.
  destruct a as [sa ca pa da ma ha la oa va].
  destruct b as [sb cb pb db mb hb lb ob vb].
  unfold shared. cbn. intros Heq. injection Heq as -> -> -> -> -> -> -> ->.
  destruct e; cbn;
    unfold VariantA.handleMouseMove, VariantB.handleMouseMove,
      handleWheel, zoomIn, zoomOut, resetView, onLoad, scene_add,
      with_camera; cbn;
    destruct db; destruct cb; destruct sb; reflexivity.
Qed.

(** The two components differ in the placement of the hotspots only.
    Started from states that agree on everything the two files share
    (scene, camera, sphere ref, drag flag, recorded pointer position,
    selection, loading flag, console), they agree on all of it after any
    sequence of events. *)
Theorem variants_agree `{Math.Trig} (es : list Event) (a : VariantA.State)
    (b : VariantB.State) :
  shared a = shared b ->
  shared (VariantA.run es a) = shared (VariantB.run es b).
Proof.
  revert a b. induction es as [|e es IH]; intros a b Heq; [exact Heq|].
  change (shared (VariantA.run es (VariantA.dispatch e a))
          = shared (VariantB.run es (VariantB.dispatch e b))).
  apply IH. now apply dispatch_shared.
Qed.

Lemma variants_agree_witness :
  shared (VariantA.run (H := series_tan) (drag_far ++ scroll_far) mountedA)
  = shared (VariantB.run (H := series_tan) (drag_far ++ scroll_far) mountedB).
Proof.
  apply (variants_agree (H := series_tan)). reflexivity.
Defined.

Lemma dispatch_in_sync `{Math.Trig} (e : Event) (b : VariantB.State) :
  is_reset e = false ->
  in_sync b -> in_sync (VariantB.dispatch e b).
Proof.
  intros Hnr (camera & Hc & Hv).
  destruct b as [sb cb pb db mb hb lb ob vb]. cbn in Hc, Hv. subst cb vb.
  destruct e; try discriminate Hnr; cbn;
    unfold VariantB.handleMouseMove, handleWheel, zoomIn, zoomOut, onLoad,
      scene_add, with_camera; cbn;
    destruct db; destruct sb; cbn;
    (eexists; split; [reflexivity | reflexivity]).
Qed.

(** Variant B keeps [cameraRotation] equal to the camera's pitch and yaw as
    long as the view is not reset: every event but the reset click keeps
    the two equal. *)
Theorem cameraRotation_in_sync `{Math.Trig} (es : list Event)
    (b : VariantB.State) :
  existsb is_reset es = false ->
  in_sync b ->
  in_sync (VariantB.run es b).
Proof.
  revert b. induction es as [|e es IH]; intros b Hnr Hb; [exact Hb|].
  cbn in Hnr. apply orb_false_iff in Hnr. destruct Hnr as [He Hes].
  change (in_sync (VariantB.run es (VariantB.dispatch e b))).
  apply IH; [exact Hes|]. now apply dispatch_in_sync.
Qed.

Lemma mountedB_in_sync : in_sync mountedB.
Proof. exists camera0. split; reflexivity. Qed.

Lemma cameraRotation_in_sync_witness :
  in_sync (VariantB.run (H := series_tan) drag_far mountedB).
Proof.
  apply (cameraRotation_in_sync (H := series_tan) drag_far mountedB).
  - reflexivity.
  - exact mountedB_in_sync.
Defined.

(** The reset click does not write [cameraRotation]: after a drag and a
    reset the state still holds the pitch and yaw of the drag. *)
Example reset_leaves_cameraRotation :
  ~ in_sync (VariantB.run (H := series_tan) drag_then_reset mountedB).
Proof.
  intros (camera & Hc & Hv). vm_compute in Hc. injection Hc as <-.
  vm_compute in Hv. discriminate Hv.
Qed.

Section Restored.
Context `{Math.Trig}.
Variable V : Type.
Variable handleMouseMove : MouseEvent -> Component V -> Component V.
Hypothesis rotates :
  forall event s camera,
    cameraRef s = Some camera ->
    exists r, cameraRef (handleMouseMove event s)
              = Some (PerspectiveCamera.set_rotation r camera).

Lemma page_dispatch_built (e : PageEvent) (window : Window)
    (s : Component V) :
  camera_has (built_for window) s ->
  camera_has (built_for (resized window e))
             (page_dispatch_with handleMouseMove e s).
Proof.
  intros Hs. destruct e as [e|window']; cbn [resized page_dispatch_with].
  - destruct e; cbn; try solve [same_camera Hs].
    + destruct Hs as (camera & Hc & Hb).
      destruct (rotates event s camera Hc) as (r & Hm).
      exists (PerspectiveCamera.set_rotation r camera).
      split; [exact Hm | exact Hb].
    + revert Hs. apply camera_has_with_camera. intros camera Hb. exact Hb.
    + revert Hs. apply camera_has_with_camera. intros camera Hb. exact Hb.
    + revert Hs. apply camera_has_with_camera. intros camera Hb. exact Hb.
    + revert Hs. apply camera_has_with_camera. intros camera Hb. exact Hb.
  - revert Hs. unfold handleResize. apply camera_has_with_camera.
    intros camera (_ & Hn & Hf & Hp). repeat split; assumption.
Qed.

Lemma page_run_built (es : list PageEvent) :
  forall (window : Window) (s : Component V),
    camera_has (built_for window) s ->
    camera_has (built_for (last_window window es))
               (page_run_with handleMouseMove es s).
Proof.
  induction es as [|e es IH]; intros window s Hs; [exact Hs|].
  unfold page_run_with, last_window in *. cbn [fold_left]. apply IH.
  now apply page_dispatch_built.
Qed.

Lemma reset_of_built (window : Window) (v : V) (s : Component V) :
  camera_has (built_for window) s ->
  exists c c',
    cameraRef (resetView s) = Some c /\
    cameraRef (mount window v) = Some c' /\
    same_parameters c' c.
Proof.
  intros (camera & Hc & Ha & Hn & Hf & Hp).
  unfold resetView. rewrite cameraRef_with_camera, Hc.
  do 2 eexists. split; [reflexivity|]. split; [reflexivity|].
  destruct camera as [f0 a0 n0 r0 e0 p0 m0 q0]. cbn in Ha, Hn, Hf, Hp.
  subst. repeat split.
Qed.

End Restored.

Lemma mount_built `{Math.Trig} (V : Type) (window : Window) (v : V) :
  camera_has (built_for window) (mount window v).
Proof. eexists. split; [reflexivity|]. repeat split. Qed.

(** Reset restores the camera of the mount.  After any sequence of input
    events and resizes of the window, to sizes with a width and a height,
    the camera a reset click leaves has
    the parameters and the projection matrix of the camera the mount effect
    constructs in a window of the present size: yaw, pitch and roll 0,
    field of view 75, the aspect ratio of the window as last resized, the
    depth range and the position of the mount.  The view matrix is the
    renderer's and is not compared.  A second reset changes nothing.  In
    both variants. *)
Theorem reset_restores_mount `{Math.Trig} (window : Window)
    (es : list PageEvent) (va : VariantA.HotspotPositions) (vb : Point.t) :
  windows_sized window es ->
  let restored (V : Type) (s : Component V) (v : V) :=
    exists c c',
      cameraRef (resetView s) = Some c /\
      cameraRef (mount (last_window window es) v) = Some c' /\
      same_parameters c' c in
  restored _ (page_run_with VariantA.handleMouseMove es (mount window va))
           va /\
  restored _ (page_run_with VariantB.handleMouseMove es (mount window vb))
           vb /\
  (forall (V : Type) (s : Component V),
     resetView (resetView s) = resetView s).
Proof.
  intros _ restored. subst restored. cbn beta. split; [|split].
  - apply reset_of_built.
    apply (page_run_built _ _ moveA_rotates), mount_built.
  - apply reset_of_built.
    apply (page_run_built _ _ moveB_rotates), mount_built.
  - intros V s. destruct s as [sb cb pb db mb hb lb ob vb0].
    unfold resetView, with_camera. cbn.
    destruct cb as [c|]; [|reflexivity]. cbn. reflexivity.
Qed.

Lemma reset_restores_mount_witness :
  exists c c',
    cameraRef
      (resetView (H := series_tan)
         (page_run_with (H := series_tan) VariantA.handleMouseMove
            drag_resize_zoom mountedA))
    = Some c /\
    cameraRef (mount (H := series_tan) window_800x600
                     ([] : VariantA.HotspotPositions)) = Some c' /\
    same_parameters c' c.
Proof.
  destruct (reset_restores_mount (H := series_tan) window_1920x1080
              drag_resize_zoom [] (Point.mk 0 0)) as [HA _].
  - split; [split; reflexivity|]. repeat constructor.
  - exact HA.
Defined.

(** A drag, a resize to 800 by 600 and a zoom click, then the reset: the
    field of view is 75 again and the aspect ratio is that of the resized
    window. *)
Example reset_after_resize :
  camera_has
    (fun camera =>
       PerspectiveCamera.fov camera = 75 /\
       PerspectiveCamera.rotation camera = Euler.mk 0 0 0 /\
       PerspectiveCamera.aspect camera == 800 / 600)
    (resetView (H := series_tan)
       (page_run_with (H := series_tan) VariantA.handleMouseMove
          drag_resize_zoom mountedA)).
Proof. eexists. split; [vm_compute; reflexivity|]. repeat split. Qed.

Lemma reached_cameras_witness :
  Forall
    (camera_has (fun camera => ready (H := series_tan) camera /\
                               fov_in_range camera /\
                               pitch_in_range camera))
    (VariantA.trace (H := series_tan) (drag_far ++ scroll_far)
       (mount (H := series_tan) window_1920x1080 [])).
Proof.
  destruct (reached_cameras (H := series_tan) window_1920x1080
              (drag_far ++ scroll_far) [] (Point.mk 0 0)
              eq_refl eq_refl) as [HA _].
  exact HA.
Defined.

(* ================================================================= *)
(** * Further properties of the perspective projection *)

Lemma applyMatrix4_perspective_plane (l r t b n f : number)
    (v : Vector3.t) :
  Vector3.z v == 0 ->
  applyMatrix4 (Matrix4.makePerspective l r t b n f) v = None.
Proof.
  intros Hz. unfold applyMatrix4. cbn.
  destruct (Qeq_bool _ 0) eqn:Hd; [reflexivity|].
  apply Qeq_bool_neq in Hd. exfalso. apply Hd. rewrite Hz. lra.
Qed.

Section Pinhole.
Context `{Math.Trig}.

Lemma visible_flag (window : Window)
    (camera : PerspectiveCamera.t) (p : Position) (v : Vector3.t) :
  projection_current camera ->
  depth_range camera ->
  viewSpace camera p = Some v ->
  (Vector3.z v == 0 ->
   VariantA.projectToScreen window p camera = None) /\
  (~ Vector3.z v == 0 ->
   exists anchor,
     VariantA.projectToScreen window p camera = Some anchor /\
     (VariantA.Anchor.visible anchor = true
      <-> Vector3.z v < 0 /\
          - Vector3.z v < PerspectiveCamera.far camera)).
Proof.
  intros Hproj [Hn Hf] Hv.
  destruct (frustum_is_perspective camera) as (l & r & t & b & Hm & _).
  unfold VariantA.projectToScreen, project.
  destruct p as [[px py] pz]. unfold viewSpace in Hv.
  split; intros Hz; rewrite Hv, Hproj, Hm.
  - now rewrite applyMatrix4_perspective_plane.
  - rewrite applyMatrix4_perspective by exact Hz.
    eexists. split; [reflexivity|].
    cbn [VariantA.Anchor.visible Vector3.z].
    rewrite ltb_lt, perspective_depth by assumption.
    destruct (Qlt_le_dec 0 (Vector3.z v)) as [Hpos|Hneg].
    + pose proof (depth_behind _ _ _ Hn Hf Hpos). split; intros; lra.
    + set (d := - Vector3.z v).
      assert (Ez : Vector3.z v == - d) by (unfold d; lra).
      assert (Hd : 0 < d) by (unfold d; lra).
      clearbody d. rewrite Ez.
      rewrite (depth_in_front _ _ _ Hn Hf Hd).
      split; [intros Hlt; split; lra | intros [_ Hlt]; lra].
Qed.

Lemma anchor_formula (window : Window)
    (camera : PerspectiveCamera.t) (p : Position) (v : Vector3.t) :
  projection_current camera ->
  depth_range camera ->
  opening camera ->
  viewSpace camera p = Some v ->
  ~ Vector3.z v == 0 ->
  let tan_half := Math.tan (PerspectiveCamera.DEG2RAD * 0.5
                            * PerspectiveCamera.fov camera) in
  let depth := - Vector3.z v in
  exists anchor,
    VariantA.projectToScreen window p camera = Some anchor /\
    VariantA.Anchor.x anchor
    == innerWidth window / 2
       + innerWidth window / 2
         * (Vector3.x v / (PerspectiveCamera.aspect camera * tan_half * depth))
    /\
    VariantA.Anchor.y anchor
    == innerHeight window / 2
       - innerHeight window / 2 * (Vector3.y v / (tan_half * depth)) /\
    (0 < innerHeight window ->
     PerspectiveCamera.aspect camera
     == innerWidth window / innerHeight window ->
     VariantA.Anchor.x anchor - innerWidth window / 2
     == focal window camera * (Vector3.x v / depth) /\
     VariantA.Anchor.y anchor - innerHeight window / 2
     == - (focal window camera * (Vector3.y v / depth))).
Proof.
  intros Hproj [Hn Hf] [Ha Ht] Hv Hz tan_half depth.
  destruct (frustum_is_perspective camera)
    as (l & r & t & b & Hm & Hrl & Htb & Hw & Hh).
  fold tan_half in Ht, Hw, Hh.
  unfold VariantA.projectToScreen, project.
  destruct p as [[px py] pz]. unfold viewSpace in Hv. rewrite Hv.
  rewrite Hproj, Hm.
  rewrite applyMatrix4_perspective by exact Hz.
  eexists. split; [reflexivity|].
  cbn [VariantA.Anchor.x VariantA.Anchor.y Vector3.x Vector3.y Vector3.z].
  pose proof (Qmult_lt_0_compat _ _ Hn Ht) as Hnt.
  pose proof (Qmult_lt_0_compat _ _ Ha Hnt) as Hant.
  assert (Hrl0 : ~ r - l == 0) by (rewrite Hw; lra).
  assert (Htb0 : ~ t - b == 0) by (rewrite Hh; lra).
  assert (Ea : (r + l) / (r - l) == 0) by (rewrite Hrl; now field).
  assert (Eb : (t + b) / (t - b) == 0) by (rewrite Htb; now field).
  assert (Ex : 2 * PerspectiveCamera.near camera / (r - l)
               == 1 / (PerspectiveCamera.aspect camera * tan_half)).
  { rewrite Hw. field. repeat split; lra. }
  assert (Ey : 2 * PerspectiveCamera.near camera / (t - b)
               == 1 / tan_half).
  { rewrite Hh. field. split; lra. }
  assert (EX : (2 * PerspectiveCamera.near camera / (r - l) * Vector3.x v
                + 0 * Vector3.y v + (r + l) / (r - l) * Vector3.z v + 0)
               * (1 / (0 * Vector3.x v + 0 * Vector3.y v
                       + - (1) * Vector3.z v + 0))
               == Vector3.x v
                  / (PerspectiveCamera.aspect camera * tan_half * depth)).
  { rewrite Ex, Ea. unfold depth. field. repeat split; lra. }
  assert (EY : (0 * Vector3.x v
                + 2 * PerspectiveCamera.near camera / (t - b) * Vector3.y v
                + (t + b) / (t - b) * Vector3.z v + 0)
               * (1 / (0 * Vector3.x v + 0 * Vector3.y v
                       + - (1) * Vector3.z v + 0))
               == Vector3.y v / (tan_half * depth)).
  { rewrite Ey, Eb. unfold depth. field. repeat split; lra. }
  rewrite EX, EY. clear EX EY.
  assert (Hd0 : ~ depth == 0) by (unfold depth; lra).
  unfold focal. fold tan_half. clearbody depth tan_half.
  split; [field; repeat split; first [assumption | lra]|].
  split; [field; repeat split; first [assumption | lra]|].
  intros Hh0 Hasp.
  assert (Hw0 : 0 < innerWidth window).
  { assert (E : innerWidth window
                == PerspectiveCamera.aspect camera * innerHeight window)
      by (rewrite Hasp, Qmult_comm; symmetry; apply Qmult_div_r; lra).
    rewrite E. now apply Qmult_lt_0_compat. }
  rewrite Hasp.
  split; field; repeat split; first [assumption | lra].
Qed.

(** The anchor is finite off the camera's plane, and visible in front of
    the camera up to the far distance.  For a point whose position in the
    camera frame is [v]: when [v] lies in the plane z = 0 through the
    camera the projection is not finite; otherwise [projectToScreen]
    returns an anchor, whose [visible] flag is true exactly when the point
    is in front of the camera and nearer than the far distance. *)
Theorem visible_iff_in_front_within_far (window : Window)
    (camera : PerspectiveCamera.t) (p : Position) (v : Vector3.t) :
  projection_current camera ->
  depth_range camera ->
  viewSpace camera p = Some v ->
  (Vector3.z v == 0 ->
   VariantA.projectToScreen window p camera = None) /\
  (~ Vector3.z v == 0 ->
   exists anchor,
     VariantA.projectToScreen window p camera = Some anchor /\
     (VariantA.Anchor.visible anchor = true
      <-> Vector3.z v < 0 /\
          - Vector3.z v < PerspectiveCamera.far camera)).
Proof. apply visible_flag. Qed.

(** The projection is that of a pinhole camera.  Off the camera's plane the
    anchor lies at the centre of the canvas plus the point's offsets in the
    camera frame divided by its depth, scaled by half the canvas size over
    the half-angle tangent, and horizontally by the aspect ratio as well.
    When the camera's aspect ratio is that of the window, as [mount] and
    [handleResize] set it, both axes have the one focal length
    innerHeight / (2 tan(fov / 2)). *)
Theorem projection_is_pinhole (window : Window)
    (camera : PerspectiveCamera.t) (p : Position) (v : Vector3.t) :
  projection_current camera ->
  depth_range camera ->
  opening camera ->
  viewSpace camera p = Some v ->
  ~ Vector3.z v == 0 ->
  let tan_half := Math.tan (PerspectiveCamera.DEG2RAD * 0.5
                            * PerspectiveCamera.fov camera) in
  let depth := - Vector3.z v in
  exists anchor,
    VariantA.projectToScreen window p camera = Some anchor /\
    VariantA.Anchor.x anchor
    == innerWidth window / 2
       + innerWidth window / 2
         * (Vector3.x v / (PerspectiveCamera.aspect camera * tan_half * depth))
    /\
    VariantA.Anchor.y anchor
    == innerHeight window / 2
       - innerHeight window / 2 * (Vector3.y v / (tan_half * depth)) /\
    (0 < innerHeight window ->
     PerspectiveCamera.aspect camera
     == innerWidth window / innerHeight window ->
     VariantA.Anchor.x anchor - innerWidth window / 2
     == focal window camera * (Vector3.x v / depth) /\
     VariantA.Anchor.y anchor - innerHeight window / 2
     == - (focal window camera * (Vector3.y v / depth))).
Proof. apply anchor_formula. Qed.

(** A resize keeps the pixels square.  [handleResize] sets the camera's
    aspect ratio to that of the window and recomputes the projection
    matrix, leaving field of view and orientation alone; the anchors
    computed for the resized window then have the one focal length
    innerHeight / (2 tan(fov / 2)) on both axes. *)
Theorem resize_keeps_pixels_square (V : Type) (window : Window)
    (s : Component V) (camera : PerspectiveCamera.t) (p : Position)
    (v : Vector3.t) :
  cameraRef s = Some camera ->
  depth_range camera ->
  opening camera ->
  0 < innerWidth window ->
  0 < innerHeight window ->
  viewSpace camera p = Some v ->
  ~ Vector3.z v == 0 ->
  exists camera' anchor,
    cameraRef (handleResize window s) = Some camera' /\
    PerspectiveCamera.aspect camera'
    = innerWidth window / innerHeight window /\
    projection_current camera' /\
    PerspectiveCamera.fov camera' = PerspectiveCamera.fov camera /\
    PerspectiveCamera.rotation camera' = PerspectiveCamera.rotation camera /\
    VariantA.projectToScreen window p camera' = Some anchor /\
    VariantA.Anchor.x anchor - innerWidth window / 2
    == focal window camera' * (Vector3.x v / - Vector3.z v) /\
    VariantA.Anchor.y anchor - innerHeight window / 2
    == - (focal window camera' * (Vector3.y v / - Vector3.z v)).
Proof.
  intros Hc Hd [Ha Ht] Hw Hh Hv Hz.
  unfold handleResize. rewrite cameraRef_with_camera, Hc. cbn [option_map].
  set (camera' := PerspectiveCamera.updateProjectionMatrix
                    (set_aspect (innerWidth window / innerHeight window)
                                camera)).
  assert (Haspect : 0 < innerWidth window / innerHeight window)
    by (apply Qlt_shift_div_l; lra).
  destruct (anchor_formula window camera' p v) as (anchor & Hp & _ & _ & Hsq).
  - reflexivity.
  - exact Hd.
  - split; [exact Haspect | exact Ht].
  - exact Hv.
  - exact Hz.
  - destruct (Hsq Hh) as [Ex Ey]; [reflexivity|].
    exists camera', anchor. repeat split; assumption.
Qed.

End Pinhole.

Lemma visible_iff_in_front_within_far_witness :
  exists v anchor,
    viewSpace camera0 (100, 0, -200) = Some v /\
    VariantA.projectToScreen window_1920x1080 (100, 0, -200) camera0
    = Some anchor /\
    (VariantA.Anchor.visible anchor = true
     <-> Vector3.z v < 0 /\ - Vector3.z v < PerspectiveCamera.far camera0).
Proof.
  eexists. 
  destruct (visible_iff_in_front_within_far (H := series_tan)
              window_1920x1080 camera0 (100, 0, -200) _
              (proj1 camera0_ready) (proj1 (proj2 camera0_ready)) eq_refl)
    as [_ Hoff].
  destruct Hoff as (anchor & Ha & Hiff).
  - intros E. vm_compute in E. discriminate E.
  - exists anchor. split; [reflexivity|]. split; [exact Ha | exact Hiff].
Defined.

Lemma projection_is_pinhole_witness :
  exists v anchor,
    viewSpace camera0 (100, 0, -200) = Some v /\
    VariantA.projectToScreen window_1920x1080 (100, 0, -200) camera0
    = Some anchor /\
    VariantA.Anchor.y anchor
    == 1080 / 2
       - 1080 / 2
         * (Vector3.y v
            / (Math.tan (Trig := series_tan)
                 (PerspectiveCamera.DEG2RAD * 0.5 * 75)
               * - Vector3.z v)).
Proof.
  eexists.
  destruct (projection_is_pinhole (H := series_tan)
              window_1920x1080 camera0 (100, 0, -200) _
              (proj1 camera0_ready) (proj1 (proj2 camera0_ready))
              camera0_opening eq_refl)
    as (anchor & Ha & _ & Hy & _).
  - intros E. vm_compute in E. discriminate E.
  - exists anchor. split; [reflexivity|]. split; [exact Ha | exact Hy].
Defined.

Lemma resize_keeps_pixels_square_witness :
  exists camera' anchor,
    cameraRef (handleResize (H := series_tan) window_800x600 mountedA)
    = Some camera' /\
    PerspectiveCamera.aspect camera' = 800 / 600 /\
    VariantA.projectToScreen window_800x600 (100, 0, -200) camera'
    = Some anchor.
Proof.
  destruct (resize_keeps_pixels_square (H := series_tan) _ window_800x600
              mountedA camera0 (100, 0, -200)
              (Vector3.mk ((1 * 100 + 0 * 0 + 0 * -200 + 0) * (1 / (0 * 100 + 0 * 0 + 0 * -200 + 1)))
                          ((0 * 100 + 1 * 0 + 0 * -200 + 0) * (1 / (0 * 100 + 0 * 0 + 0 * -200 + 1)))
                          ((0 * 100 + 0 * 0 + 1 * -200 + 0) * (1 / (0 * 100 + 0 * 0 + 0 * -200 + 1))))
              mountedA_camera (proj1 (proj2 camera0_ready)) camera0_opening
              eq_refl eq_refl eq_refl)
    as (camera' & anchor & Hc & Ha & _ & _ & _ & Hp & _).
  - intros E. vm_compute in E. discriminate E.
  - exists camera', anchor. split; [exact Hc|]. split; [exact Ha | exact Hp].
Defined.

(* ================================================================= *)
(** * The hotspot positions of a frame and the markers rendered (variant A) *)

Lemma lookup_assign_same (k : string) (v : option VariantA.Anchor.t)
    (o : VariantA.HotspotPositions) :
  VariantA.lookup k (VariantA.assign k v o) = Some v.
Proof.
  induction o as [|[k' v'] o IH]; cbn.
  - now rewrite String.eqb_refl.
  - destruct (String.eqb k k') eqn:E; cbn; rewrite ?String.eqb_refl;
      [reflexivity|]. now rewrite E.
Qed.

Lemma lookup_assign_other (k k' : string) (v : option VariantA.Anchor.t)
    (o : VariantA.HotspotPositions) :
  k <> k' ->
  VariantA.lookup k' (VariantA.assign k v o) = VariantA.lookup k' o.
Proof.
  intros Hne. apply not_eq_sym in Hne.
  apply String.eqb_neq in Hne.
  induction o as [|[k0 v0] o IH]; cbn.
  - now rewrite Hne.
  - destruct (String.eqb k k0) eqn:E; cbn.
    + apply String.eqb_eq in E. subst k0. now rewrite Hne.
    + destruct (String.eqb k' k0); [reflexivity | exact IH].
Qed.

Section Positions.
Variable g : Hotspot -> option VariantA.Anchor.t.

Lemma lookup_store_absent (hs : list Hotspot) :
  forall (o : VariantA.HotspotPositions) (k : string),
    ~ In k (List.map id hs) ->
    VariantA.lookup k (store g hs o) = VariantA.lookup k o.
Proof.
  induction hs as [|h hs IH]; intros o k Hk; [reflexivity|].
  cbn in Hk. unfold store in *. cbn [fold_left]. rewrite IH by tauto.
  apply lookup_assign_other. intros E. apply Hk. left. exact E.
Qed.

Lemma lookup_store_present (hs : list Hotspot) :
  forall (o : VariantA.HotspotPositions) (h : Hotspot),
    NoDup (List.map id hs) ->
    In h hs ->
    VariantA.lookup (id h) (store g hs o) = Some (g h).
Proof.
  induction hs as [|h0 hs IH]; intros o h Hnd Hin; [contradiction|].
  cbn in Hnd. inversion Hnd as [|k l Hnotin Hnd']; subst k l.
  unfold store in *. cbn [fold_left]. destruct Hin as [->|Hin].
  - fold (store g hs (VariantA.assign (id h) (g h) o)).
    rewrite lookup_store_absent by exact Hnotin.
    apply lookup_assign_same.
  - now apply IH.
Qed.

End Positions.

Lemma hotspot_ids_distinct : NoDup (List.map id VariantA.hotspots).
Proof.
  repeat constructor; cbn; intros Hin;
    repeat (destruct Hin as [Hin|Hin]; [discriminate Hin|]);
    exact Hin.
Qed.

Lemma updateHotspotPositions_store (window : Window) (s : VariantA.State)
    (camera : PerspectiveCamera.t) :
  cameraRef s = Some camera ->
  VariantA.updateHotspotPositions window s
  = set_variantState
      (store (fun hotspot =>
                VariantA.projectToScreen window (position hotspot) camera)
             VariantA.hotspots [])
      s.
Proof.
  intros Hc. unfold VariantA.updateHotspotPositions. now rewrite Hc.
Qed.

(** What a frame stores.  With a camera, [updateHotspotPositions] replaces
    the hotspot positions by a fresh object that holds, under the id of
    each hotspot and in their order, the projection of that hotspot through
    the camera, and leaves the rest of the component alone; without a
    camera it does nothing. *)
Theorem frame_stores_projections (window : Window) (s : VariantA.State)
    (camera : PerspectiveCamera.t) (hotspot : Hotspot) :
  In hotspot VariantA.hotspots ->
  (cameraRef s = Some camera ->
   let s' := VariantA.updateHotspotPositions window s in
   VariantA.lookup (id hotspot) (variantState s')
   = Some (VariantA.projectToScreen window (position hotspot) camera) /\
   List.map fst (variantState s') = List.map id VariantA.hotspots /\
   shared s' = shared s) /\
  (cameraRef s = None -> VariantA.updateHotspotPositions window s = s).
Proof.
  intros Hin. split.
  - intros Hc s'. subst s'. rewrite (updateHotspotPositions_store _ _ _ Hc).
    split; [|split].
    + cbn [variantState set_variantState].
      apply (lookup_store_present
               (fun hotspot =>
                  VariantA.projectToScreen window (position hotspot) camera)).
      * exact hotspot_ids_distinct.
      * exact Hin.
    + reflexivity.
    + reflexivity.
  - intros Hc. unfold VariantA.updateHotspotPositions. now rewrite Hc.
Qed.

Lemma frame_stores_projections_witness :
  VariantA.lookup "trophy-case"
    (variantState (VariantA.updateHotspotPositions window_1920x1080 mountedA))
  = Some (VariantA.projectToScreen window_1920x1080 (-200, 20, -100) camera0).
Proof.
  destruct (frame_stores_projections window_1920x1080 mountedA camera0
              (nth 1 VariantA.hotspots no_hotspot))
    as [Hupd _].
  - right. left. reflexivity.
  - destruct (Hupd mountedA_camera) as [Hlook _]. exact Hlook.
Defined.

Lemma renderHotspot_after_frame (window : Window) (s : VariantA.State)
    (camera : PerspectiveCamera.t) (hotspot : Hotspot) :
  cameraRef s = Some camera ->
  In hotspot VariantA.hotspots ->
  VariantA.renderHotspot (VariantA.updateHotspotPositions window s) hotspot
  = match VariantA.projectToScreen window (position hotspot) camera with
    | None => VariantA.MarkerNotFinite
    | Some anchor =>
        if VariantA.Anchor.visible anchor
        then VariantA.Marker (VariantA.Anchor.x anchor)
                             (VariantA.Anchor.y anchor)
        else VariantA.Null
    end.
Proof.
  intros Hc Hin. unfold VariantA.renderHotspot.
  rewrite (updateHotspotPositions_store _ _ _ Hc).
  cbn [variantState set_variantState].
  rewrite (lookup_store_present _ _ _ _ hotspot_ids_distinct Hin).
  destruct (VariantA.projectToScreen window (position hotspot) camera)
    as [anchor|]; [|reflexivity].
  now destruct (VariantA.Anchor.visible anchor).
Qed.

(** Which hotspots get a marker.  After a frame has stored the positions,
    for a hotspot at depth [d] in the camera frame, the frame of the view
    matrix the renderer wrote last: in front of the camera and nearer than
    the far distance, the render function returns a marker at the anchor of
    the projection; behind the camera, or at the far distance or beyond,
    it returns null; and in the camera's plane, at depth 0, it returns the
    marker that is not finite.  As long as no position is stored for a
    hotspot, on the first render, it returns null. *)
Theorem markers_by_depth `{Math.Trig} (window : Window)
    (s : VariantA.State) (camera : PerspectiveCamera.t) (hotspot : Hotspot)
    (v : Vector3.t) :
  cameraRef s = Some camera ->
  projection_current camera ->
  depth_range camera ->
  In hotspot VariantA.hotspots ->
  viewSpace camera (position hotspot) = Some v ->
  let s' := VariantA.updateHotspotPositions window s in
  let d := - Vector3.z v in
  (0 < d -> d < PerspectiveCamera.far camera ->
   exists anchor,
     VariantA.projectToScreen window (position hotspot) camera
     = Some anchor /\
     VariantA.renderHotspot s' hotspot
     = VariantA.Marker (VariantA.Anchor.x anchor)
                       (VariantA.Anchor.y anchor)) /\
  (d < 0 \/ PerspectiveCamera.far camera <= d ->
   VariantA.renderHotspot s' hotspot = VariantA.Null) /\
  (d == 0 ->
   VariantA.renderHotspot s' hotspot = VariantA.MarkerNotFinite) /\
  (VariantA.lookup (id hotspot) (variantState s) = None ->
   VariantA.renderHotspot s hotspot = VariantA.Null).
Proof.
  intros Hc Hproj Hdepth Hin Hv s' d. subst s' d.
  rewrite (renderHotspot_after_frame _ _ _ _ Hc Hin).
  destruct (visible_flag window camera _ v Hproj Hdepth Hv)
    as [Hplane Hoff].
  split; [|split; [|split]].
  - intros H0 Hfar.
    destruct (Hoff ltac:(lra)) as (anchor & Ha & Hiff).
    exists anchor. split; [exact Ha|]. rewrite Ha.
    assert (Hvis : VariantA.Anchor.visible anchor = true)
      by (apply Hiff; split; lra).
    now rewrite Hvis.
  - intros Hout.
    assert (Hz : ~ Vector3.z v == 0).
    { destruct Hdepth as [Hn Hf]. destruct Hout; lra. }
    destruct (Hoff Hz) as (anchor & Ha & Hiff). rewrite Ha.
    destruct (VariantA.Anchor.visible anchor) eqn:Hvis; [|reflexivity].
    exfalso. destruct (proj1 Hiff eq_refl) as [H1 H2].
    destruct Hout; lra.
  - intros Hz. rewrite (Hplane ltac:(lra)). reflexivity.
  - intros Hnone. unfold VariantA.renderHotspot. now rewrite Hnone.
Qed.

Lemma markers_by_depth_witness :
  exists anchor,
    VariantA.projectToScreen window_1920x1080 (100, 0, -200) camera0
    = Some anchor /\
    VariantA.renderHotspot
      (VariantA.updateHotspotPositions window_1920x1080 mountedA)
      (nth 0 VariantA.hotspots no_hotspot)
    = VariantA.Marker (VariantA.Anchor.x anchor) (VariantA.Anchor.y anchor).
Proof.
  destruct (markers_by_depth (H := series_tan) window_1920x1080 mountedA
              camera0 (nth 0 VariantA.hotspots no_hotspot)
              (Vector3.mk 100 0 (-200))
              mountedA_camera (proj1 camera0_ready)
              (proj1 (proj2 camera0_ready)) (or_introl eq_refl) eq_refl)
    as [Hin _].
  apply Hin; reflexivity.
Defined.

(* ================================================================= *)
(** * Further properties of the spherical mapping (variant B) *)

Lemma trunc_decompose (q : Q) :
  q == inject_Z (Z.quot (Qnum q) (Zpos (Qden q)))
       + (Z.rem (Qnum q) (Zpos (Qden q)) # Qden q).
Proof.
  destruct q as [n d]. unfold Qeq, Qplus, inject_Z. cbn.
  pose proof (Z.quot_rem' n (Zpos d)) as E. nia.
Qed.

Lemma js_rem_fraction (a b : Q) :
  ~ b == 0 ->
  js_rem a b
  == b * (Z.rem (Qnum (a / b)) (Zpos (Qden (a / b))) # Qden (a / b)).
Proof.
  intros Hb. unfold js_rem. cbv zeta.
  assert (Ea : a == b * (a / b)) by (field; exact Hb).
  pose proof (trunc_decompose (a / b)) as Eq.
  set (q := a / b) in *. clearbody q.
  set (t := inject_Z (Z.quot (Qnum q) (Zpos (Qden q)))) in *.
  set (r := Z.rem (Qnum q) (Z.pos (Qden q)) # Qden q) in *.
  clearbody t r. rewrite Ea at 1. rewrite Eq. ring.
Qed.

Lemma js_rem_bounds (a b : Q) :
  0 < b ->
  (0 <= a -> 0 <= js_rem a b /\ js_rem a b < b) /\
  (a <= 0 -> - b < js_rem a b /\ js_rem a b <= 0).
Proof.
  intros Hb.
  assert (Hb0 : ~ b == 0) by lra.
  pose proof (js_rem_fraction a b Hb0) as E.
  set (q := a / b) in *.
  set (r := Z.rem (Qnum q) (Z.pos (Qden q)) # Qden q) in *.
  split; intros Ha.
  - assert (Hq : 0 <= q) by (unfold q; apply Qle_shift_div_l; lra).
    clearbody q.
    assert (Hr : 0 <= r /\ r < 1).
    { unfold r. unfold Qle in Hq. cbn in Hq.
      pose proof (Z.rem_bound_pos (Qnum q) (Zpos (Qden q))) as Hrem.
      unfold Qle, Qlt. cbn. lia. }
    clearbody r. rewrite E. destruct Hr as [Hr0 Hr1]. split; nra.
  - assert (Hq : q <= 0) by (unfold q; apply Qle_shift_div_r; lra).
    clearbody q.
    assert (Hr : - (1) < r /\ r <= 0).
    { unfold r. unfold Qle in Hq. cbn in Hq.
      pose proof (Z.rem_bound_pos_neg (Qnum q) (Zpos (Qden q))) as Hrem.
      unfold Qle, Qlt. cbn. lia. }
    clearbody r. rewrite E. destruct Hr as [Hr0 Hr1]. split; nra.
Qed.

Lemma trunc_nonneg (q : Q) :
  0 <= q -> Z.quot (Qnum q) (Zpos (Qden q)) = Qfloor q.
Proof.
  intros Hq. destruct q as [n d]. unfold Qle in Hq. cbn in Hq. cbn.
  apply Z.quot_div_nonneg; lia.
Qed.

Lemma js_rem_period (a b : Q) :
  0 < b -> 0 <= a -> js_rem (a + b) b == js_rem a b.
Proof.
  intros Hb Ha. unfold js_rem. cbv zeta.
  assert (Hq : 0 <= a / b) by (apply Qle_shift_div_l; lra).
  assert (Hq' : 0 <= (a + b) / b) by (apply Qle_shift_div_l; lra).
  rewrite (trunc_nonneg _ Hq), (trunc_nonneg _ Hq').
  assert (E : (a + b) / b == a / b + 1) by (field; lra).
  assert (Hfl : Qfloor ((a + b) / b) = (Qfloor (a / b) + 1)%Z).
  { apply Qfloor_unique; rewrite E.
    - rewrite inject_Z_plus. pose proof (Qfloor_le (a / b)).
      change (inject_Z 1) with 1. lra.
    - rewrite !inject_Z_plus. pose proof (Qlt_floor (a / b)) as Hlt.
      rewrite inject_Z_plus in Hlt. change (inject_Z 1) with 1 in *. lra. }
  rewrite Hfl, inject_Z_plus. change (inject_Z 1) with 1. ring.
Qed.

Lemma js_rem_small_neg (a b : Q) :
  - b < a -> a <= 0 -> js_rem a b == a.
Proof.
  intros Hab Ha. unfold js_rem. cbv zeta.
  assert (Hb : 0 < b) by lra.
  assert (Hq0 : a / b <= 0) by (apply Qle_shift_div_r; lra).
  assert (Hq1 : - (1) < a / b) by (apply Qlt_shift_div_l; lra).
  set (q := a / b) in *. clearbody q.
  assert (Hz : Z.quot (Qnum q) (Zpos (Qden q)) = 0%Z).
  { unfold Qle, Qlt in Hq0, Hq1. cbn in Hq0, Hq1.
    rewrite <- (Z.opp_involutive (Qnum q)), Z.quot_opp_l by lia.
    rewrite Z.quot_small by lia. reflexivity. }
  rewrite Hz. ring.
Qed.

(** A hotspot of the sphere gets a marker inside the viewport.  For a
    longitude from -180 up and a latitude in [-90, 90] the horizontal
    percentage is in [0, 100) and the vertical percentage in [0, 100]. *)
Theorem marker_inside_viewport (longitude latitude : number) :
  -180 <= longitude ->
  -90 <= latitude ->
  latitude <= 90 ->
  let style := VariantB.getScreenPosition longitude latitude in
  0 <= VariantB.Style.left style /\ VariantB.Style.left style < 100 /\
  0 <= VariantB.Style.top style /\ VariantB.Style.top style <= 100.
Proof.
  intros Hlon Hlo Hhi style. subst style. cbn.
  destruct (js_rem_bounds (longitude + 180) 360) as [Hpos _];
    [reflexivity|].
  destruct Hpos as [H0 H1]; [lra|].
  set (m := js_rem (longitude + 180) 360) in *. clearbody m.
  assert (Hm0 : 0 <= m / 360) by (apply Qle_shift_div_l; lra).
  assert (Hm1 : m / 360 < 1) by (apply Qlt_shift_div_r; lra).
  assert (Ht0 : 0 <= (90 - latitude) / 180)
    by (apply Qle_shift_div_l; lra).
  assert (Ht1 : (90 - latitude) / 180 <= 1)
    by (apply Qle_shift_div_r; lra).
  repeat split; lra.
Qed.

Lemma marker_inside_viewport_witness :
  0 <= VariantB.Style.left (VariantB.getScreenPosition 495 (-5)) /\
  VariantB.Style.left (VariantB.getScreenPosition 495 (-5)) < 100 /\
  0 <= VariantB.Style.top (VariantB.getScreenPosition 495 (-5)) /\
  VariantB.Style.top (VariantB.getScreenPosition 495 (-5)) <= 100.
Proof.
  apply (marker_inside_viewport 495 (-5)); discriminate.
Defined.

Lemma js_rem_period_eq (a b c : Q) :
  0 < b -> 0 <= a -> c == a + b -> js_rem c b == js_rem a b.
Proof.
  intros Hb Ha Ec. rewrite <- (js_rem_period a b Hb Ha).
  unfold js_rem. cbv zeta.
  assert (Ediv : c / b == (a + b) / b) by (rewrite Ec; reflexivity).
  assert (Hq : 0 <= c / b) by (apply Qle_shift_div_l; lra).
  assert (Hq' : 0 <= (a + b) / b) by (apply Qle_shift_div_l; lra).
  rewrite (trunc_nonneg _ Hq), (trunc_nonneg _ Hq').
  rewrite (Qfloor_comp _ _ Ediv). rewrite Ec. reflexivity.
Qed.

(** The wrap of the longitude works eastwards only.  For whole degrees, as
    the hotspots of the file have them: from -180 up (and below 2^52,
    where every sum of the expression is a whole number still), a
    longitude and the same longitude plus 360 get the same horizontal
    percentage; from -539 to -181 the percentage is
    (longitude + 180) / 360 * 100 with no wrap at all.  And for every
    longitude below -180 the remainder keeps the sign of its dividend: the
    percentage is in (-100, 0], left of the viewport. *)
Theorem longitude_wraps_eastwards_only (degrees : Z)
    (longitude latitude : number) :
  let left (lon : number) :=
    VariantB.Style.left (VariantB.getScreenPosition lon latitude) in
  ((-180 <= degrees)%Z -> (degrees < 2 ^ 52)%Z ->
   left (inject_Z degrees + 360) == left (inject_Z degrees)) /\
  ((-540 < degrees)%Z -> (degrees < -180)%Z ->
   left (inject_Z degrees) == (inject_Z degrees + 180) / 360 * 100) /\
  (longitude < -180 -> -100 < left longitude /\ left longitude <= 0).
Proof.
  intros left. subst left. cbv beta. split; [|split].
  - intros Hlon _. cbn.
    assert (H1 : -180 <= inject_Z degrees).
    { change (-180) with (inject_Z (-180)). now rewrite <- Zle_Qle. }
    rewrite (js_rem_period_eq (inject_Z degrees + 180) 360
               (inject_Z degrees + 360 + 180));
      [reflexivity | reflexivity | lra | ring].
  - intros Hlo Hhi. cbn.
    assert (H1 : -540 < inject_Z degrees).
    { change (-540) with (inject_Z (-540)). now rewrite <- Zlt_Qlt. }
    assert (H2 : inject_Z degrees < -180).
    { change (-180) with (inject_Z (-180)). now rewrite <- Zlt_Qlt. }
    rewrite (js_rem_small_neg (inject_Z degrees + 180) 360) by lra.
    reflexivity.
  - intros Hlon. cbn.
    destruct (js_rem_bounds (longitude + 180) 360) as [_ Hneg];
      [reflexivity|].
    destruct Hneg as [H0 H1]; [lra|].
    set (m := js_rem (longitude + 180) 360) in *. clearbody m.
    assert (Hm0 : - (1) < m / 360) by (apply Qlt_shift_div_l; lra).
    assert (Hm1 : m / 360 <= 0) by (apply Qle_shift_div_r; lra).
    split; lra.
Qed.

Lemma longitude_wraps_eastwards_only_witness :
  VariantB.Style.left (VariantB.getScreenPosition (135 + 360) (-10))
  == VariantB.Style.left (VariantB.getScreenPosition 135 (-10)) /\
  VariantB.Style.left (VariantB.getScreenPosition (-270) (-10))
  == (-270 + 180) / 360 * 100.
Proof.
  destruct (longitude_wraps_eastwards_only 135 0 (-10)) as (Heast & _).
  destruct (longitude_wraps_eastwards_only (-270) 0 (-10))
    as (_ & Hwest & _).
  split; [apply Heast; [discriminate | reflexivity]
         | apply Hwest; reflexivity].
Defined.

(** East is right and north is up.  For whole degrees, as the hotspots of
    the file have them: of two longitudes in [-180, 180) the larger gets
    the larger horizontal percentage, and of two latitudes in [-90, 90]
    the larger gets the smaller vertical percentage.  For any two
    latitudes, the larger never gets the larger vertical percentage. *)
Theorem placement_preserves_order (lon1 lon2 lat1 lat2 : Z)
    (latitude1 latitude2 : number) :
  (-180 <= lon1)%Z -> (lon1 < lon2)%Z -> (lon2 < 180)%Z ->
  (-90 <= lat1)%Z -> (lat1 < lat2)%Z -> (lat2 <= 90)%Z ->
  latitude1 <= latitude2 ->
  let placed (lon lat : number) := VariantB.getScreenPosition lon lat in
  VariantB.Style.left (placed (inject_Z lon1) (inject_Z lat1))
  < VariantB.Style.left (placed (inject_Z lon2) (inject_Z lat2)) /\
  VariantB.Style.top (placed (inject_Z lon2) (inject_Z lat2))
  < VariantB.Style.top (placed (inject_Z lon1) (inject_Z lat1)) /\
  VariantB.Style.top (placed (inject_Z lon2) latitude2)
  <= VariantB.Style.top (placed (inject_Z lon1) latitude1).
Proof.
  intros H1 H12 H2 _ Hlat _ Hle placed. subst placed. cbv beta.
  rewrite Zle_Qle in H1. rewrite Zlt_Qlt in H12, H2, Hlat.
  change (inject_Z (-180)) with (-180) in H1.
  change (inject_Z 180) with 180 in H2.
  set (x1 := inject_Z lon1) in *. set (x2 := inject_Z lon2) in *.
  set (y1 := inject_Z lat1) in *. set (y2 := inject_Z lat2) in *.
  clearbody x1 x2 y1 y2.
  destruct (left_of_longitude x1 y1) as (E1 & _); [lra|lra|].
  destruct (left_of_longitude x2 y2) as (E2 & _); [lra|lra|].
  rewrite E1, E2, !top_of_latitude.
  assert (Hl : (x1 + 180) / 360 < (x2 + 180) / 360).
  { apply Qlt_shift_div_l; [reflexivity|].
    setoid_replace ((x1 + 180) / 360 * 360) with (x1 + 180)
      by (field; discriminate).
    lra. }
  assert (Ht : (90 - y2) / 180 < (90 - y1) / 180).
  { apply Qlt_shift_div_l; [reflexivity|].
    setoid_replace ((90 - y2) / 180 * 180) with (90 - y2)
      by (field; discriminate).
    lra. }
  assert (Hw : (90 - latitude2) / 180 <= (90 - latitude1) / 180).
  { apply Qle_shift_div_l; [reflexivity|].
    setoid_replace ((90 - latitude2) / 180 * 180) with (90 - latitude2)
      by (field; discriminate).
    lra. }
  split; [|split]; lra.
Qed.

Lemma placement_preserves_order_witness :
  VariantB.Style.left (VariantB.getScreenPosition (-90) 10)
  < VariantB.Style.left (VariantB.getScreenPosition 45 20) /\
  VariantB.Style.top (VariantB.getScreenPosition 45 20)
  < VariantB.Style.top (VariantB.getScreenPosition (-90) 10).
Proof.
  destruct (placement_preserves_order (-90) 45 10 20 10 20)
    as (Hleft & Htop & _);
    try first [reflexivity | discriminate].
  split; [exact Hleft | exact Htop].
Defined.

(* ================================================================= *)
(** * The effect and its cleanup *)

Lemma Listener_eqb_eq (a b : Dom.Listener) :
  Dom.Listener_eqb a b = true <-> a = b.
Proof.
  destruct a as [ta ya ca], b as [tb yb cb]. unfold Dom.Listener_eqb. cbn.
  rewrite !andb_true_iff, String.eqb_eq. split.
  - intros [[Ht Hy] Hc]. subst yb.
    destruct ta, tb; try discriminate Ht;
      destruct ca, cb; try discriminate Hc; reflexivity.
  - intros E. injection E as -> -> ->.
    destruct tb, cb; repeat split.
Qed.

Lemma existsb_Listener (l : Dom.Listener) (ls : list Dom.Listener) :
  ~ In l ls -> existsb (Dom.Listener_eqb l) ls = false.
Proof.
  intros Hnot. destruct (existsb (Dom.Listener_eqb l) ls) eqn:E;
    [|reflexivity].
  apply existsb_exists in E. destruct E as (x & Hin & Heq).
  apply Listener_eqb_eq in Heq. subst x. contradiction.
Qed.

Lemma remove_first_absent {A : Type} (eqb : A -> A -> bool) (a : A)
    (l r : list A) :
  (forall b, In b l -> eqb a b = false) ->
  Dom.remove_first eqb a (l ++ r) = l ++ Dom.remove_first eqb a r.
Proof.
  induction l as [|b l IH]; intros Habs; [reflexivity|].
  cbn. rewrite (Habs b) by now left.
  f_equal. apply IH. intros c Hc. apply Habs. now right.
Qed.

Lemma remove_first_Listener (l : Dom.Listener) (ls r : list Dom.Listener) :
  ~ In l ls ->
  Dom.remove_first Dom.Listener_eqb l (ls ++ r)
  = ls ++ Dom.remove_first Dom.Listener_eqb l r.
Proof.
  intros Hnot. apply remove_first_absent. intros b Hb.
  destruct (Dom.Listener_eqb l b) eqn:E; [|reflexivity].
  apply Listener_eqb_eq in E. subst b. contradiction.
Qed.

Lemma remove_first_nat (a : nat) (l : list nat) :
  ~ In a l -> Dom.remove_first Nat.eqb a (l ++ [a]) = l.
Proof.
  intros Hnot. rewrite remove_first_absent.
  - cbn. rewrite Nat.eqb_refl. apply app_nil_r.
  - intros b Hb. apply Nat.eqb_neq. intros ->. contradiction.
Qed.

(** The page after the effect has run on a mounted container. *)
Lemma effect_acquires (canvas : nat) (p : Dom.Page) :
  Dom.mountRef p = true ->
  (forall l, In l Dom.registrations -> ~ In l (Dom.listeners p)) ->
  Dom.effect canvas p
  = Dom.mkPage true (Dom.container p ++ [canvas])
               (Dom.listeners p ++ Dom.registrations)
               (Dom.pending p ++ [Dom.nextHandle p])
               (S (Dom.nextHandle p)) (Some (Dom.nextHandle p))
               (Dom.disposed p).
Proof.
  intros Hm Hfresh. unfold Dom.effect. rewrite Hm. cbn [negb].
  destruct p as [m c ls pe nh ar d]. cbn in *.
  assert (Hadd : forall l ls',
             ~ In l ls' ->
             forall c' pe' nh' ar' d',
               Dom.addEventListener l
                 (Dom.mkPage m c' ls' pe' nh' ar' d')
               = Dom.mkPage m c' (ls' ++ [l]) pe' nh' ar' d').
  { intros l ls' Hnot c' pe' nh' ar' d'. unfold Dom.addEventListener. cbn.
    now rewrite existsb_Listener. }
  unfold Dom.appendChild. cbn [Dom.mountRef Dom.container Dom.listeners
    Dom.pending Dom.nextHandle Dom.animationRef Dom.disposed].
  unfold Dom.registrations in *. cbn [fold_left].
  repeat match goal with
         | |- context [Dom.addEventListener ?l
                         (Dom.mkPage _ _ ?ls' _ _ _ _)] =>
             rewrite (Hadd l ls');
             [| rewrite ?in_app_iff; cbn [In]; intros Hi;
                repeat (destruct Hi as [Hi|Hi]);
                try discriminate Hi; try contradiction;
                revert Hi; apply Hfresh; cbn; tauto ]
         end.
  unfold Dom.animate, Dom.requestAnimationFrame, Dom.set_animationRef. cbn.
  subst m. now rewrite <- !app_assoc.
Qed.

Lemma frame_looping (ls : list Dom.Listener) (c : list nat) (d : bool)
    (p : Dom.Page) :
  looping ls c d p -> looping ls c d (Dom.frame p) /\
                      Dom.mountRef (Dom.frame p) = Dom.mountRef p.
Proof.
  intros (Hl & Hc & Hd & h & Hh & Hp & Ha & Hn).
  destruct p as [m c0 ls0 pe nh ar d0]. cbn in *. subst.
  unfold Dom.frame. cbn. split; [|reflexivity].
  repeat split. exists (S h). repeat split. discriminate.
Qed.

Lemma frames_looping (n : nat) (ls : list Dom.Listener) (c : list nat)
    (d : bool) (p : Dom.Page) :
  looping ls c d p ->
  looping ls c d (Nat.iter n Dom.frame p) /\
  Dom.mountRef (Nat.iter n Dom.frame p) = Dom.mountRef p.
Proof.
  intros Hp. induction n as [|n [IH Hm]]; cbn [Nat.iter]; [now split|].
  destruct (frame_looping _ _ _ _ IH) as [Hloop Hm']. split; [exact Hloop|].
  now transitivity (Dom.mountRef (Nat.iter n Dom.frame p)).
Qed.

Lemma cleanup_looping (canvas : nat) (ls : list Dom.Listener)
    (c : list nat) (d : bool) (p : Dom.Page) :
  (forall l, In l Dom.registrations -> ~ In l ls) ->
  ~ In canvas c ->
  looping (ls ++ Dom.registrations) (c ++ [canvas]) d p ->
  let p' := Dom.cleanup canvas p in
  Dom.listeners p' = ls /\
  Dom.pending p' = [] /\
  Dom.disposed p' = true /\
  Dom.container p' = (if Dom.mountRef p then c else c ++ [canvas]).
Proof.
  intros Hfresh Hcanvas (Hl & Hc & Hd & h & Hh & Hp & Ha & Hn) p'.
  subst p'. destruct p as [m c0 ls0 pe nh ar d0]. cbn in *. subst.
  unfold Dom.cleanup. cbn.
  destruct (Nat.eqb h 0) eqn:E; [apply Nat.eqb_eq in E; contradiction|].
  unfold Dom.cancelAnimationFrame. cbn. rewrite Nat.eqb_refl.
  unfold Dom.registrations in *. cbn [fold_left].
  unfold Dom.removeEventListener. cbn.
  repeat (rewrite remove_first_Listener by (apply Hfresh; cbn; tauto);
          cbn).
  rewrite app_nil_r.
  destruct m; cbn; repeat split.
  now rewrite remove_first_nat.
Qed.

(** The cleanup releases what the effect acquired.  On a page whose
    container ref is set, that has no frame request pending and none of
    the five listeners registered: once the effect has run and any number
    of frames with it, the five listeners are registered, the canvas is in
    the container and exactly one frame request is pending, its handle in
    [animationRef]; after the cleanup the listeners are those of before the
    effect, no frame request is pending, the renderer is disposed, and the
    canvas is out of the container if the container ref is still set.  With
    the container ref null the effect does nothing at all. *)
Theorem cleanup_releases_what_effect_acquired (canvas : nat) (n : nat)
    (attached : bool) (p : Dom.Page) :
  (Dom.mountRef p = false -> Dom.effect canvas p = p) /\
  (Dom.mountRef p = true ->
   Dom.pending p = [] ->
   Dom.nextHandle p <> 0%nat ->
   ~ In canvas (Dom.container p) ->
   (forall l, In l Dom.registrations -> ~ In l (Dom.listeners p)) ->
   let running := Nat.iter n Dom.frame (Dom.effect canvas p) in
   let p' := Dom.cleanup canvas (Dom.set_mountRef attached running) in
   looping (Dom.listeners p ++ Dom.registrations)
           (Dom.container p ++ [canvas]) (Dom.disposed p) running /\
   Dom.listeners p' = Dom.listeners p /\
   Dom.pending p' = [] /\
   Dom.disposed p' = true /\
   Dom.container p'
   = (if attached then Dom.container p else Dom.container p ++ [canvas])).
Proof.
  split.
  - intros Hm. unfold Dom.effect. now rewrite Hm.
  - intros Hm Hp Hn Hcanvas Hfresh running p'. subst running p'.
    rewrite (effect_acquires canvas p Hm Hfresh).
    match goal with
    | |- context [Nat.iter n Dom.frame ?q] => set (started := q)
    end.
    assert (Hstart : looping (Dom.listeners p ++ Dom.registrations)
                             (Dom.container p ++ [canvas]) (Dom.disposed p)
                             started).
    { unfold started. repeat split. exists (Dom.nextHandle p).
      cbn. rewrite Hp. repeat split. exact Hn. }
    destruct (frames_looping n _ _ _ _ Hstart) as [Hloop _].
    split; [exact Hloop|].
    set (running := Nat.iter n Dom.frame started) in *. clearbody running.
    assert (Hloop' : looping (Dom.listeners p ++ Dom.registrations)
                             (Dom.container p ++ [canvas]) (Dom.disposed p)
                             (Dom.set_mountRef attached running)).
    { destruct Hloop as (H1 & H2 & H3 & H4). repeat split; assumption. }
    destruct (cleanup_looping canvas _ _ _ _ Hfresh Hcanvas Hloop')
      as (Hl & Hpe & Hd & Hc).
    repeat split; assumption.
Qed.

Lemma cleanup_releases_what_effect_acquired_witness :
  let p' := Dom.cleanup 7
              (Dom.set_mountRef true
                 (Nat.iter 3 Dom.frame (Dom.effect 7 page0))) in
  Dom.listeners p' = [] /\ Dom.pending p' = [] /\
  Dom.disposed p' = true /\ Dom.container p' = [].
Proof.
  destruct (cleanup_releases_what_effect_acquired 7 3 true page0)
    as [_ Hrun].
  destruct Hrun as (_ & Hl & Hp & Hd & Hc); try reflexivity.
  - discriminate.
  - intros [].
  - intros l _ [].
  - repeat split; assumption.
Defined.
